(** * AquiferX: ingestion pipeline and interpolation engine

    A shallow embedding of the data-ingestion / validation code
    (the DataManager component and [services/dataLoader.ts]) and of the
    two interpolation routines ([interpolatePCHIP], in its monotone
    Hermite and natural-spline variants), with the properties of the
    specification stated and settled against it.

    Conventions of the embedding.
    - A JavaScript [number] is an element of a type carrying the
      operations the code uses (class [JsNum]).  Two instances are
      given: [float], IEEE-754 binary64 (what the program runs on), and
      [Q], exact rational arithmetic (what the numerical analysis of
      the splines speaks about).
    - A JavaScript object used as a dictionary is a [gmap string _];
      a [Set<string>] is a [gset string]; an absent key reads as
      [None] (JavaScript [undefined]).
    - A string is a [string] of one-byte characters, each standing for
      one UTF-16 code unit. *)

From Stdlib Require Import ZArith QArith Qminmax Floats Ascii String Lia Lqa Psatz.
From stdpp Require Import gmap strings list pretty.


(* ================================================================= *)
(** * 1. JavaScript numbers *)
(* ================================================================= *)

(** The operations on numbers that the sources use.  [undef] is what an
    out-of-range array read contributes to arithmetic ([undefined]
    converts to NaN). *)
Class JsNum (N : Type) : Type := {
  lit : Z -> N;
  add : N -> N -> N;
  sub : N -> N -> N;
  mul : N -> N -> N;
  div : N -> N -> N;
  ltb : N -> N -> bool;
  leb : N -> N -> bool;
  eqb : N -> N -> bool;
  isFinite : N -> bool;
  undef : N
}.

Declare Scope js_scope.
Delimit Scope js_scope with js.
Notation "a + b" := (add a b) : js_scope.
Notation "a - b" := (sub a b) : js_scope.
Notation "a * b" := (mul a b) : js_scope.
Notation "a / b" := (div a b) : js_scope.
Notation "a <? b" := (ltb a b) : js_scope.
Notation "a <=? b" := (leb a b) : js_scope.
Notation "a >=? b" := (leb b a) : js_scope.
Notation "a === b" := (eqb a b) (at level 70, no associativity) : js_scope.
Notation "a !== b" := (negb (eqb a b)) (at level 70, no associativity) : js_scope.

(** An integer literal as a binary64 value (rounded to nearest; exact
    for the small literals of the sources). *)
Definition float_of_Z (z : Z) : float :=
  SF2Prim (binary_normalize prec emax z 0 false).

#[export] Instance float_JsNum : JsNum float := {|
  lit := float_of_Z;
  add := PrimFloat.add;
  sub := PrimFloat.sub;
  mul := PrimFloat.mul;
  div := PrimFloat.div;
  ltb := PrimFloat.ltb;
  leb := PrimFloat.leb;
  eqb := PrimFloat.eqb;
  isFinite := PrimFloat.is_finite;
  undef := PrimFloat.nan
|}.

(** Exact arithmetic.  Every value is finite; the sources guard each
    division by a test that the divisor is non-zero, so [Qdiv]'s value
    at a zero divisor is never used on those paths. *)
#[export] Instance Q_JsNum : JsNum Q := {|
  lit := inject_Z;
  add := Qplus;
  sub := Qminus;
  mul := Qmult;
  div := Qdiv;
  ltb := fun a b => negb (Qle_bool b a);
  leb := Qle_bool;
  eqb := Qeq_bool;
  isFinite := fun _ => true;
  undef := 0%Q
|}.

(** [a[i]] for a JavaScript array of numbers. *)
Definition get {N} `{JsNum N} (a : list N) (i : nat) : N := nth i a undef.

(** [x] is strictly increasing: each sample abscissa is below the next. *)
Definition strictly_increasing {N} `{JsNum N} (x : list N) : Prop :=
  forall i, S i < length x -> (get x i <? get x (S i))%js = true.

(** What the proofs about clamping and interval location use of [<]
    and [<=].  A number [a] is comparable when [a <= a] (it is not
    NaN); the order is total on comparable numbers only. *)
Class JsNumOrder (N : Type) `{JsNum N} : Prop := {
  ltb_trans : forall a b c : N,
    (a <? b)%js = true -> (b <? c)%js = true -> (a <? c)%js = true;
  ltb_leb_trans : forall a b c : N,
    (a <? b)%js = true -> (b <=? c)%js = true -> (a <? c)%js = true;
  ltb_leb : forall a b : N, (a <? b)%js = true -> (a <=? b)%js = true;
  ltb_not_leb : forall a b : N, (a <? b)%js = true -> (b <=? a)%js = false;
  ltb_comparable_l : forall a b : N, (a <? b)%js = true -> (a <=? a)%js = true;
  ltb_comparable_r : forall a b : N, (a <? b)%js = true -> (b <=? b)%js = true;
  leb_total : forall a b : N,
    (a <=? a)%js = true -> (b <=? b)%js = true ->
    (a <? b)%js = false -> (b <=? a)%js = true
}.

(* ================================================================= *)
(** * 2. The interpolation engine *)
(* ================================================================= *)

(** Code shared, line for line, by the two variants. *)
Section Interpolation.
Context {N : Type} `{JsNum N}.
Local Open Scope js_scope.

(** [h[i] = x[i+1] - x[i]] for [i] in [0 .. n-2]. *)
Definition intervals (x : list N) (n : nat) : list N :=
  map (fun i => get x (i + 1) - get x i) (seq 0 (n - 1)).

(** [delta[i]], with the guard against a zero-length interval. *)
Definition secants (y h : list N) (n : nat) : list N :=
  map (fun i => if get h i === lit 0 then lit 0
                else (get y (i + 1) - get y i) / get h i)
      (seq 0 (n - 1)).

(** [let i = 0; while (i < n - 2 && x[i + 1] < tx) i++;]
    One unit of fuel per iteration; [findInterval] supplies [n],
    more than the loop can use. *)
Fixpoint scan (x : list N) (n : nat) (tx : N) (fuel i : nat) : nat :=
  match fuel with
  | O => i
  | S fuel' =>
      if (i <? n - 2)%nat && (get x (i + 1) <? tx)
      then scan x n tx fuel' (S i)
      else i
  end.

Definition findInterval (x : list N) (n : nat) (tx : N) : nat :=
  scan x n tx n 0.

(** [targetX.map(() => (n === 1 ? y[0] : 0))], the answer for fewer
    than two samples. *)
Definition degenerate (y targetX : list N) (n : nat) : list N :=
  map (fun _ => if (n =? 1)%nat then get y 0 else lit 0) targetX.
End Interpolation.

(** ** Strategy A: monotone cubic Hermite ([src/unnamed/part_000]) *)
Module StrategyA.
Section A.
Context {N : Type} `{JsNum N}.
Local Open Scope js_scope.

(** The tangent the loop stores at an interior index [i]. *)
Definition interiorSlope (h delta : list N) (i : nat) : N :=
  if get delta (i - 1) * get delta i <=? lit 0 then lit 0
  else
    let w1 := lit 2 * get h i + get h (i - 1) in
    let w2 := get h i + lit 2 * get h (i - 1) in
    let denom := w1 / get delta (i - 1) + w2 / get delta i in
    if negb (isFinite denom) || (denom === lit 0) then lit 0
    else (w1 + w2) / denom.

(** [m]: [new Array(n)], filled at [1 .. n-2] by the loop, then at
    [0] and [n-1] by the one-sided boundary conditions. *)
Definition slopes (h delta : list N) (n : nat) : list N :=
  let m := foldl (fun m i => <[i := interiorSlope h delta i]> m)
                 (replicate n undef) (seq 1 (n - 2)) in
  let m := <[0%nat := if isFinite (get delta 0) then get delta 0 else lit 0]> m in
  <[(n - 1)%nat := if isFinite (get delta (n - 2)) then get delta (n - 2)
                   else lit 0]> m.

(** The body of [targetX.map(tx => ...)]. *)
Definition evaluate (x y h m : list N) (n : nat) (tx : N) : N :=
  if tx <=? get x 0 then get y 0
  else if tx >=? get x (n - 1) then get y (n - 1)
  else
    let i := findInterval x n tx in
    if get h i === lit 0 then get y i
    else
      let t := (tx - get x i) / get h i in
      let t2 := t * t in
      let t3 := t2 * t in
      let h00 := lit 2 * t3 - lit 3 * t2 + lit 1 in
      let h10 := t3 - lit 2 * t2 + t in
      let h01 := lit (-2) * t3 + lit 3 * t2 in
      let h11 := t3 - t2 in
      let result := h00 * get y i + h10 * get h i * get m i
                    + h01 * get y (i + 1) + h11 * get h i * get m (i + 1) in
      if isFinite result then result else get y i.

Definition interpolatePCHIP (x y targetX : list N) : list N :=
  let n := length x in
  if (n <? 2)%nat then degenerate y targetX n
  else
    let h := intervals x n in
    let delta := secants y h n in
    let m := slopes h delta n in
    map (evaluate x y h m n) targetX.
End A.
End StrategyA.

(** ** Strategy B: natural cubic spline ([src/utils/interpolation.ts]) *)
Module StrategyB.
Section B.
Context {N : Type} `{JsNum N}.
Local Open Scope js_scope.

(** The two-sample branch: plain linear interpolation. *)
Definition linear (x y : list N) (tx : N) : N :=
  let slope := (get y 1 - get y 0) / (get x 1 - get x 0) in
  if tx <=? get x 0 then get y 0
  else if tx >=? get x 1 then get y 1
  else get y 0 + slope * (tx - get x 0).

(** The arrays [a], [b], [c], [d] of the tridiagonal system. *)
Record system : Type := System {
  sub_diag : list N;   (* a *)
  diag : list N;       (* b *)
  super_diag : list N; (* c *)
  rhs : list N         (* d *)
}.

Definition buildSystem (h delta : list N) (n : nat) : system :=
  let z := replicate n (lit 0) in
  let b := <[(n - 1)%nat := lit 1]> (<[0%nat := lit 1]> z) in
  foldl (fun s i =>
           {| sub_diag := <[i := get h (i - 1)]> (sub_diag s);
              diag := <[i := lit 2 * (get h (i - 1) + get h i)]> (diag s);
              super_diag := <[i := get h i]> (super_diag s);
              rhs := <[i := lit 6 * (get delta i - get delta (i - 1))]> (rhs s) |})
        {| sub_diag := z; diag := b; super_diag := z; rhs := z |}
        (seq 1 (n - 2)).

(** Forward elimination; a zero pivot skips the row ([continue]). *)
Definition forwardElimination (s : system) (n : nat) : system :=
  foldl (fun s i =>
           if get (diag s) (i - 1) === lit 0 then s
           else
             let w := get (sub_diag s) i / get (diag s) (i - 1) in
             {| sub_diag := sub_diag s;
                diag := <[i := get (diag s) i - w * get (super_diag s) (i - 1)]> (diag s);
                super_diag := super_diag s;
                rhs := <[i := get (rhs s) i - w * get (rhs s) (i - 1)]> (rhs s) |})
        s (seq 1 (n - 1)).

(** Back substitution into [m], initialised to zeros. *)
Definition backSubstitution (s : system) (n : nat) : list N :=
  let m := replicate n (lit 0) in
  let m := if get (diag s) (n - 1) !== lit 0
           then <[(n - 1)%nat := get (rhs s) (n - 1) / get (diag s) (n - 1)]> m
           else m in
  foldl (fun m i =>
           if get (diag s) i !== lit 0
           then <[i := (get (rhs s) i - get (super_diag s) i * get m (i + 1))
                       / get (diag s) i]> m
           else m)
        m (rev (seq 0 (n - 1))).

(** The body of [targetX.map(tx => ...)] for three or more samples. *)
Definition evaluate (x y h delta m : list N) (n : nat) (tx : N) : N :=
  if tx <=? get x 0 then get y 0
  else if tx >=? get x (n - 1) then get y (n - 1)
  else
    let i := findInterval x n tx in
    if get h i === lit 0 then get y i
    else
      let t := tx - get x i in
      let hi := get h i in
      let a_coef := (get m (i + 1) - get m i) / (lit 6 * hi) in
      let b_coef := get m i / lit 2 in
      let c_coef := get delta i - hi * (lit 2 * get m i + get m (i + 1)) / lit 6 in
      let d_coef := get y i in
      let result := a_coef * t * t * t + b_coef * t * t + c_coef * t + d_coef in
      if isFinite result then result else get y i.

Definition interpolatePCHIP (x y targetX : list N) : list N :=
  let n := length x in
  if (n <? 2)%nat then degenerate y targetX n
  else if (n =? 2)%nat then map (linear x y) targetX
  else
    let h := intervals x n in
    let delta := secants y h n in
    let m := backSubstitution (forwardElimination (buildSystem h delta n) n) n in
    map (evaluate x y h delta m n) targetX.
End B.
End StrategyB.

(* ================================================================= *)
(** * 3. Strings and JavaScript values *)
(* ================================================================= *)

(** A value read from an object: [None] is [undefined]. *)
Definition truthy (v : option string) : bool :=
  match v with
  | Some s => negb (String.eqb s "")
  | None => false
  end.

(** [v || ''] *)
Definition orEmpty (v : option string) : string :=
  if truthy v then default "" v else "".

(** [`${v}`] for a possibly undefined string. *)
Definition show (v : option string) : string := default "undefined" v.

(** [s.split(sep)] for a one-character separator. *)
Fixpoint split (sep : ascii) (s : string) : list string :=
  match s with
  | EmptyString => [""]
  | String c s' =>
      if Ascii.eqb c sep then "" :: split sep s'
      else match split sep s' with
           | p :: ps => String c p :: ps
           | [] => [String c ""]
           end
  end.

(** [s.includes(c)] for a one-character needle. *)
Fixpoint includes (c : ascii) (s : string) : bool :=
  match s with
  | EmptyString => false
  | String c' s' => Ascii.eqb c' c || includes c s'
  end.

(** White space and line terminators, within one-byte characters. *)
Definition isWhiteSpace (c : ascii) : bool :=
  match nat_of_ascii c with
  | 9 | 10 | 11 | 12 | 13 | 32 | 160 => true
  | _ => false
  end.

Fixpoint trimStart (s : string) : string :=
  match s with
  | String c s' => if isWhiteSpace c then trimStart s' else s
  | EmptyString => EmptyString
  end.

Fixpoint trimEnd (s : string) : string :=
  match s with
  | EmptyString => EmptyString
  | String c s' =>
      match trimEnd s' with
      | EmptyString => if isWhiteSpace c then EmptyString else String c EmptyString
      | r => String c r
      end
  end.

(** [s.trim()] *)
Definition trim (s : string) : string := trimEnd (trimStart s).

Fixpoint repeatChar (c : ascii) (k : nat) : string :=
  match k with
  | O => EmptyString
  | S k' => String c (repeatChar c k')
  end.

(** [s.padStart(targetLength, c)] for a one-character filler. *)
Definition padStart (targetLength : nat) (c : ascii) (s : string) : string :=
  repeatChar c (targetLength - String.length s) +:+ s.

(** *** [parseFloat] *)

Definition isDigit (c : ascii) : bool :=
  (48 <=? nat_of_ascii c)%nat && (nat_of_ascii c <=? 57)%nat.

(** The longest prefix of decimal digits, and what follows it. *)
Fixpoint spanDigits (s : string) : string * string :=
  match s with
  | String c s' =>
      if isDigit c then let '(d, r) := spanDigits s' in (String c d, r)
      else (EmptyString, s)
  | EmptyString => (EmptyString, EmptyString)
  end.

Fixpoint digitsValueFrom (acc : Z) (d : string) : Z :=
  match d with
  | String c d' => digitsValueFrom (10 * acc + (Z.of_nat (nat_of_ascii c) - 48)) d'
  | EmptyString => acc
  end.

Definition digitsValue (d : string) : Z := digitsValueFrom 0 d.

(** The value of an [ExponentPart] at the head of [s], or [0] when
    there is none (an [e] not followed by digits is not part of the
    literal). *)
Definition exponentPart (s : string) : Z :=
  match s with
  | String c r =>
      if Ascii.eqb c "e" || Ascii.eqb c "E" then
        let '(neg, r) :=
          match r with
          | String "-" r' => (true, r')
          | String "+" r' => (false, r')
          | _ => (false, r)
          end in
        let '(d, _) := spanDigits r in
        if String.eqb d "" then 0%Z
        else if neg then (- digitsValue d)%Z else digitsValue d
      else 0%Z
  | EmptyString => 0%Z
  end.

(** The binary64 value nearest to [m * 10^e] (ties to even), with the
    sign [neg]. *)
Definition decimalToFloat (neg : bool) (m e : Z) : float :=
  match m with
  | Zpos p =>
      match e with
      | Zneg k =>
          SF2Prim (SFdiv prec emax (S754_finite neg p 0)
                                   (S754_finite false (Pos.pow 10 k) 0))
      | _ => SF2Prim (binary_normalize prec emax (if neg then - (m * 10 ^ e) else m * 10 ^ e) 0 neg)
      end
  | _ => if neg then PrimFloat.neg_zero else PrimFloat.zero
  end.

(** [parseFloat(s)]: skip leading white space, read the longest prefix
    that is a [StrDecimalLiteral], NaN when there is none. *)
Definition parseFloat (s : string) : float :=
  let s := trimStart s in
  let '(neg, s) :=
    match s with
    | String "-" r => (true, r)
    | String "+" r => (false, r)
    | _ => (false, s)
    end in
  if String.prefix "Infinity" s then
    if neg then PrimFloat.neg_infinity else PrimFloat.infinity
  else
    let '(ip, r1) := spanDigits s in
    let '(fp, r2) :=
      match r1 with
      | String "." r => spanDigits r
      | _ => (EmptyString, r1)
      end in
    if String.eqb ip "" && String.eqb fp "" then PrimFloat.nan
    else decimalToFloat neg (digitsValue (ip +:+ fp))
                        (exponentPart r2 - Z.of_nat (String.length fp)).

(** [isNaN(v)] for a number. *)
Definition isNaN (v : float) : bool := PrimFloat.is_nan v.

(** [s.toLowerCase()], within one-byte characters: the letters
    [A]-[Z] and the accented capitals [192]-[222] (but [215], the
    multiplication sign) move up by 32. *)
Definition toLowerChar (c : ascii) : ascii :=
  let n := nat_of_ascii c in
  if ((65 <=? n)%nat && (n <=? 90)%nat)
     || ((192 <=? n)%nat && (n <=? 222)%nat && negb (n =? 215)%nat)
  then ascii_of_nat (n + 32) else c.

Fixpoint toLowerCase (s : string) : string :=
  match s with
  | EmptyString => EmptyString
  | String c s' => String (toLowerChar c) (toLowerCase s')
  end.

(** [s.includes(needle)] for a string needle. *)
Fixpoint includesString (needle s : string) : bool :=
  String.prefix needle s
  || match s with
     | EmptyString => false
     | String _ s' => includesString needle s'
     end.

(** [parts.join(sep)] *)
Fixpoint join (sep : string) (parts : list string) : string :=
  match parts with
  | [] => EmptyString
  | [p] => p
  | p :: rest => p +:+ sep +:+ join sep rest
  end.

(** [s.endsWith(suffix)] *)
Definition endsWith (suffix s : string) : bool :=
  (String.length suffix <=? String.length s)%nat
  && String.eqb (String.substring (String.length s - String.length suffix)
                                  (String.length suffix) s)
                suffix.

(** [l.findIndex(p)], [None] for [-1]. *)
Fixpoint findIndex {A} (p : A -> bool) (l : list A) : option nat :=
  match l with
  | [] => None
  | a :: l' => if p a then Some 0 else S <$> findIndex p l'
  end.

(** A row of a parsed table: header name to cell text. *)
Abbreviation Row := (gmap string string).

(** Code that can throw returns an [outcome]. *)
Inductive outcome (A : Type) : Type :=
  | Returns (a : A)
  | Throws (error : string).
Arguments Returns {A} a.
Arguments Throws {A} error.

(* ================================================================= *)
(** * 4. Loading a persisted dataset ([services/dataLoader.ts]) *)
(* ================================================================= *)

Module DataLoader.

(** One row: [headers.forEach((header, idx) =>
    { row[header] = values[idx]?.trim() || ''; })].  The row is a plain
    object, so an assignment to [__proto__] goes to the setter the
    object inherits, which ignores a text: that header gives the row
    no key. *)
Definition rowOf (headers values : list string) : Row :=
  foldl (fun (row : Row) '(idx, header) =>
           if String.eqb header "__proto__" then row
           else <[header := orEmpty (trim <$> values !! idx)]> row)
        ∅ (imap (fun idx header => (idx, header)) headers).

Definition parseCSV (text : string) : list Row :=
  let lines := filter (fun line => trim line ≠ "") (split "010" text) in
  if (length lines <? 2)%nat then []
  else
    let firstLine := default "" (head lines) in
    let delimiter := if includes "009" firstLine then "009"%char else ","%char in
    let headers := map trim (split delimiter firstLine) in
    map (fun line => rowOf headers (split delimiter line)) (tail lines).

Record Well : Type := {
  id : string;
  name : string;
  lat : float;
  lng : float;
  gse : float;
  aquiferId : string;
  aquiferName : string;
  regionId : string
}.

Record Measurement : Type := {
  wellId : string;
  wellName : string;
  date : string;
  wte : float;
  measurementAquiferId : string
}.

(** [row[k] || fallback] *)
Definition field (row : Row) (k fallback : string) : string :=
  if truthy (row !! k) then default "" (row !! k) else fallback.

(** The body of the loop of [loadWells]: the wells pushed for one
    row (none or one). *)
Definition wellOfRow (region : string) (row : Row) : list Well :=
  let wellId := field row "well_id" "" in
  let wellName := field row "well_name" wellId in
  let lat := parseFloat (field row "lat" "0") in
  let lng := parseFloat (field row "long" "0") in
  let gse := parseFloat (field row "gse" "0") in
  let aquiferId := field row "aquifer_id" "" in
  let aquiferName := field row "aquifer_name" "" in
  if negb (String.eqb wellId "") && negb (isNaN lat) && negb (isNaN lng)
     && negb (PrimFloat.eqb lat 0) && negb (PrimFloat.eqb lng 0)
  then [ {| id := wellId; name := wellName; lat := lat; lng := lng; gse := gse;
            aquiferId := aquiferId; aquiferName := aquiferName;
            regionId := region |} ]
  else [].

(** [loadWells]; [response] is the body of [wells.csv] when the
    fetch succeeded with an ok status, [None] when it did not (not
    ok, or the fetch threw and the exception was caught). *)
Definition loadWells (response : option string) (region : string) : list Well :=
  match response with
  | None => []
  | Some text => flat_map (wellOfRow region) (parseCSV text)
  end.

(** The body of the loop of [loadMeasurements]. *)
Definition measurementOfRow (row : Row) : list Measurement :=
  let wellId := field row "well_id" "" in
  let wellName := field row "well_name" "" in
  let date := field row "date" "" in
  let wte := parseFloat (field row "wte" "0") in
  let aquiferId := field row "aquifer_id" "" in
  if negb (String.eqb wellId "") && negb (String.eqb date "") && negb (isNaN wte)
  then [ {| wellId := wellId; wellName := wellName; date := date; wte := wte;
            measurementAquiferId := aquiferId |} ]
  else [].

Definition loadMeasurements (response : option string) : list Measurement :=
  match response with
  | None => []
  | Some text => flat_map measurementOfRow (parseCSV text)
  end.

(** ** [calculateBounds] *)

(** A JSON value as the traversal sees it: a number, an array, or
    anything else. *)
Inductive Json : Type :=
  | JsonNumber (v : float)
  | JsonArray (items : list Json)
  | JsonOther.

(** A geometry object: its [coordinates], [None] when absent. *)
Record Geometry : Type := { coordinates : option Json }.

(** The document handed to [calculateBounds]: a feature collection
    (each feature with its [geometry], [None] when it has none), a
    single feature, or any other object, read as a geometry. *)
Inductive GeoJson : Type :=
  | GeoFeatureCollection (features : list (option Geometry))
  | GeoFeature (geometry : option Geometry)
  | GeoGeometry (g : Geometry).

(** The result [[minLat, minLng, maxLat, maxLng]]. *)
Record Bounds : Type := {
  minLat : float;
  minLng : float;
  maxLat : float;
  maxLng : float
}.

(** [Math.min(a, b)]: NaN when an argument is NaN; [-0] is below [+0]. *)
Definition mathMin (a b : float) : float :=
  if PrimFloat.is_nan a || PrimFloat.is_nan b then PrimFloat.nan
  else if PrimFloat.ltb a b then a
  else if PrimFloat.ltb b a then b
  else if PrimFloat.get_sign a then a else b.

(** [Math.max(a, b)] *)
Definition mathMax (a b : float) : float :=
  if PrimFloat.is_nan a || PrimFloat.is_nan b then PrimFloat.nan
  else if PrimFloat.ltb a b then b
  else if PrimFloat.ltb b a then a
  else if PrimFloat.get_sign a then b else a.

(** [let minLat = Infinity, minLng = Infinity, maxLat = -Infinity,
    maxLng = -Infinity] *)
Definition noBounds : Bounds :=
  {| minLat := PrimFloat.infinity; minLng := PrimFloat.infinity;
     maxLat := PrimFloat.neg_infinity; maxLng := PrimFloat.neg_infinity |}.

(** Folding one [[lng, lat]] pair into the running bounds. *)
Definition extend (b : Bounds) (lng lat : float) : Bounds :=
  {| minLat := mathMin (minLat b) lat;
     minLng := mathMin (minLng b) lng;
     maxLat := mathMax (maxLat b) lat;
     maxLng := mathMax (maxLng b) lng |}.

(** [coords.length >= 2 && typeof coords[0] === 'number'
    && typeof coords[1] === 'number'], with [[lng, lat] = coords]. *)
Definition asPair (coords : list Json) : option (float * float) :=
  match coords with
  | JsonNumber lng :: JsonNumber lat :: _ => Some (lng, lat)
  | _ => None
  end.

(** The number of values in a JSON value, itself included: a bound on
    the number of [pop]s its traversal makes. *)
Fixpoint weight (c : Json) : nat :=
  match c with
  | JsonArray items => S (list_sum (map weight items))
  | _ => 1
  end.

(** [while (stack.length > 0) { const coords = stack.pop(); ... }].
    The head of the list is the top of the stack; pushing the children
    in order leaves the last child on top.  One unit of fuel per
    iteration. *)
Fixpoint drain (fuel : nat) (stack : list Json) (b : Bounds) : Bounds :=
  match fuel with
  | O => b
  | S fuel' =>
      match stack with
      | [] => b
      | JsonArray items :: rest =>
          match asPair items with
          | Some (lng, lat) => drain fuel' rest (extend b lng lat)
          | None => drain fuel' (rev items ++ rest) b
          end
      | _ :: rest => drain fuel' rest b
      end
  end.

(** The geometries [calculateBounds] collects from the document. *)
Definition geometriesOf (geojson : GeoJson) : list Geometry :=
  match geojson with
  | GeoFeatureCollection features => omap (fun g => g) features
  | GeoFeature geometry => match geometry with Some g => [g] | None => [] end
  | GeoGeometry g => match coordinates g with Some _ => [g] | None => [] end
  end.

(** The loop over the geometries; each one is traversed with a stack
    of its own, holding its [coordinates] at first. *)
Definition calculateBounds (geojson : GeoJson) : Bounds :=
  foldl (fun b geometry =>
           match coordinates geometry with
           | None => b
           | Some coords => drain (weight coords) [coords] b
           end)
        noBounds (geometriesOf geojson).

End DataLoader.

(* ================================================================= *)
(** * 5. Import wizard: validation and export (the DataManager component) *)
(* ================================================================= *)

Module DataManager.

(** A property value of a GeoJSON feature, as far as the validator
    looks at it; numbers are the integral ones. *)
Inductive JsValue : Type :=
  | JNull
  | JBool (b : bool)
  | JNumber (z : Z)
  | JString (s : string).

(** [if (v)] *)
Definition truthyValue (v : option JsValue) : bool :=
  match v with
  | Some (JBool b) => b
  | Some (JNumber z) => negb (z =? 0)%Z
  | Some (JString s) => negb (String.eqb s "")
  | Some JNull | None => false
  end.

(** [Number.isSafeInteger(z)] *)
Definition isSafeInteger (z : Z) : bool := (Z.abs z <=? 2 ^ 53 - 1)%Z.

(** [String(v)].  A safe integer prints as its decimal expansion;
    beyond that range [String] rounds to the digits of the nearest
    double and, from [1e21] on, writes an exponent, which [pretty]
    does not follow: what is stated about the text of a number asks
    for [printedInFull]. *)
Definition toString (v : JsValue) : string :=
  match v with
  | JNull => "null"
  | JBool b => if b then "true" else "false"
  | JNumber z => pretty z
  | JString s => s
  end.

(** The values that [toString] prints as [String] does. *)
Definition printedInFull (v : option JsValue) : bool :=
  match v with
  | Some (JNumber z) => isSafeInteger z
  | _ => true
  end.

(** A feature: its [properties] object, absent or [null] as [None]. *)
Record Feature : Type := { properties : option (gmap string JsValue) }.

(** The [data] of an uploaded file: a GeoJSON document (a feature
    collection or a single feature) or the rows of a table. *)
Inductive FileData : Type :=
  | FeatureCollection (features : list Feature)
  | SingleFeature (f : Feature)
  | CsvRows (rows : list Row).

Record UploadedFile : Type := {
  name : string;
  data : FileData;
  columns : list string;
  mapping : gmap string string
}.

Record ValidationResult : Type := {
  isValid : bool;
  errors : list string;
  warnings : list string;
  droppedMeasurements : nat
}.

(** ** [parseDate] *)
Definition parseDate (dateStr format : string) : string :=
  if String.eqb dateStr "" then ""
  else if String.eqb format "iso" then
    let parts := split "-" dateStr in
    if (length parts =? 3)%nat then dateStr else dateStr
  else if String.eqb format "us" || String.eqb format "us-short" then
    match split "/" dateStr with
    | [p0; p1; p2] =>
        let month := padStart 2 "0" p0 in
        let day := padStart 2 "0" p1 in
        let year := if (String.length p2 =? 2)%nat then "20" +:+ p2 else p2 in
        year +:+ "-" +:+ month +:+ "-" +:+ day
    | _ => dateStr
    end
  else if String.eqb format "eu" || String.eqb format "eu-short" then
    match split "/" dateStr with
    | [p0; p1; p2] =>
        let day := padStart 2 "0" p0 in
        let month := padStart 2 "0" p1 in
        let year := if (String.length p2 =? 2)%nat then "20" +:+ p2 else p2 in
        year +:+ "-" +:+ month +:+ "-" +:+ day
    | _ => dateStr
    end
  else dateStr.

(** ** [getRequiredColumns] *)
Record Column : Type := { key : string; label : string; required : bool }.

Definition getRequiredColumns (fileType : string) : list Column :=
  if String.eqb fileType "region" then []
  else if String.eqb fileType "aquifer" then
    [ {| key := "aquifer_id"; label := "Aquifer ID"; required := true |};
      {| key := "aquifer_name"; label := "Aquifer Name"; required := true |} ]
  else if String.eqb fileType "wells" then
    [ {| key := "well_id"; label := "Well ID"; required := true |};
      {| key := "lat"; label := "Latitude"; required := true |};
      {| key := "long"; label := "Longitude"; required := true |};
      {| key := "aquifer_id"; label := "Aquifer ID"; required := false |} ]
  else if String.eqb fileType "waterLevels" then
    [ {| key := "well_id"; label := "Well ID"; required := true |};
      {| key := "date"; label := "Date"; required := true |};
      {| key := "wte"; label := "Water Table Elevation"; required := true |};
      {| key := "aquifer_id"; label := "Aquifer ID"; required := false |} ]
  else [].

(** ** [validateData] *)

(** The errors [checkMapping(file, fileType)] pushes. *)
Definition checkMapping (file : UploadedFile) (fileType : string) : list string :=
  flat_map (fun col =>
              if truthy (mapping file !! key col) then []
              else [fileType +:+ ": Missing mapping for " +:+ label col])
           (List.filter required (getRequiredColumns fileType)).

(** [data.type === 'FeatureCollection' ? data.features : [data]].
    A table is not a feature collection, and read as a single feature
    it has no [properties]. *)
Definition featuresOf (d : FileData) : list Feature :=
  match d with
  | FeatureCollection fs => fs
  | SingleFeature f => [f]
  | CsvRows _ => [ {| properties := None |} ]
  end.

(** [for (const row of data)]: only an array can be iterated. *)
Definition rowsOf (d : FileData) : outcome (list Row) :=
  match d with
  | CsvRows rows => Returns rows
  | _ => Throws "TypeError: data is not iterable"
  end.

(** [row[col]]: an undefined [col] names the property ["undefined"]. *)
Definition prop (row : Row) (col : option string) : option string :=
  row !! show col.

(** [ids.has(v)] for a [Set<string>]. *)
Definition has (ids : gset string) (v : option string) : bool :=
  match v with
  | Some s => bool_decide (s ∈ ids)
  | None => false
  end.

(** The set [aquiferIds] after the loop over the aquifer features. *)
Definition collectAquiferIds (features : list Feature) (idCol : option string)
  : gset string :=
  foldl (fun (ids : gset string) feature =>
           let id := properties feature ≫= (fun props => props !! show idCol) in
           if truthyValue id then ids ∪ {[ toString (default JNull id) ]} else ids)
        ∅ features.

(** The loop over the wells: the set [wellIds] and the errors pushed. *)
Definition checkWells (wells : list Row) (wellIdCol wellAqIdCol : option string)
    (aquiferIds : gset string) : gset string * list string :=
  foldl (fun '(wellIds, errs) (well : Row) =>
           let wellId := prop well wellIdCol in
           let wellIds := if truthy wellId then wellIds ∪ {[ default "" wellId ]}
                          else wellIds in
           if truthy wellAqIdCol && truthy (prop well wellAqIdCol) then
             let aqId := prop well wellAqIdCol in
             if has aquiferIds aqId then (wellIds, errs)
             else (wellIds,
                   errs ++ ["Well " +:+ show wellId
                            +:+ " references non-existent aquifer " +:+ show aqId])
           else (wellIds, errs))
        (∅, []) wells.

(** The loop over the water levels: kept rows and the dropped count. *)
Definition checkMeasurements (rows : list Row) (wlWellIdCol : option string)
    (wellIds : gset string) : list Row * nat :=
  foldl (fun '(valid, dropped) (measurement : Row) =>
           let wellId := prop measurement wlWellIdCol in
           if has wellIds wellId
           then (valid ++ [measurement], dropped)
           else (valid, S dropped))
        ([], 0) rows.

(** [if (!file) errors.push(msg)] *)
Definition requireFile (file : option UploadedFile) (msg : string) : list string :=
  match file with
  | Some _ => []
  | None => [msg]
  end.

Definition validateData
    (regionFile aquiferFile wellsFile waterLevelsFile : option UploadedFile)
  : outcome ValidationResult :=
  let errors :=
    requireFile regionFile "Region file is required"
    ++ requireFile aquiferFile "Aquifer file is required"
    ++ requireFile wellsFile "Wells file is required"
    ++ requireFile waterLevelsFile "Water levels file is required" in
  if (0 <? length errors)%nat then
    Returns {| isValid := false; errors := errors; warnings := [];
               droppedMeasurements := 0 |}
  else
    match aquiferFile, wellsFile, waterLevelsFile with
    | Some aquiferFile, Some wellsFile, Some waterLevelsFile =>
        let errors := errors
                      ++ checkMapping aquiferFile "aquifer"
                      ++ checkMapping wellsFile "wells"
                      ++ checkMapping waterLevelsFile "waterLevels" in
        if (0 <? length errors)%nat then
          Returns {| isValid := false; errors := errors; warnings := [];
                     droppedMeasurements := 0 |}
        else
          let aquiferIds :=
            collectAquiferIds (featuresOf (data aquiferFile))
                              (mapping aquiferFile !! "aquifer_id") in
          match rowsOf (data wellsFile) with
          | Throws e => Throws e
          | Returns wellsData =>
              let wellAqIdCol := mapping wellsFile !! "aquifer_id" in
              let '(wellIds, errs) :=
                checkWells wellsData (mapping wellsFile !! "well_id")
                           wellAqIdCol aquiferIds in
              let errors := errors ++ errs in
              let warnings :=
                if truthy wellAqIdCol then []
                else ["Wells file has no aquifer_id column. Point-in-polygon assignment will be attempted."] in
              match rowsOf (data waterLevelsFile) with
              | Throws e => Throws e
              | Returns waterLevelsData =>
                  let '(_, dropped) :=
                    checkMeasurements waterLevelsData
                                      (mapping waterLevelsFile !! "well_id") wellIds in
                  let warnings :=
                    if (0 <? dropped)%nat
                    then warnings ++ [pretty dropped +:+ " measurements reference non-existent wells and will be dropped"]
                    else warnings in
                  Returns {| isValid := (length errors =? 0)%nat;
                             errors := errors;
                             warnings := warnings;
                             droppedMeasurements := dropped |}
              end
          end
    | _, _, _ => Throws "TypeError: cannot read properties of null"
    end.

(** ** [processData]: the two canonical tables *)

Record CanonicalWell : Type := {
  well_id : string;
  lat : string;
  long : string;
  aquifer_id : string
}.

Record CanonicalMeasurement : Type := {
  m_well_id : string;
  m_date : string;
  m_wte : string;
  m_aquifer_id : string
}.

(** [wellsData.map(...).filter(w => w.well_id && w.lat && w.long)] *)
Definition processWells (wellsData : list Row)
    (wellIdCol latCol longCol wellAqIdCol : option string) : list CanonicalWell :=
  List.filter
    (fun w => negb (String.eqb (well_id w) "") && negb (String.eqb (lat w) "")
              && negb (String.eqb (long w) ""))
    (map (fun w => {| well_id := orEmpty (prop w wellIdCol);
                      lat := orEmpty (prop w latCol);
                      long := orEmpty (prop w longCol);
                      aquifer_id := if truthy wellAqIdCol
                                    then orEmpty (prop w wellAqIdCol) else "" |})
         wellsData).

(** [waterLevelsData.filter(m => wellIdSet.has(m[wlWellIdCol])).map(...)] *)
Definition processWaterLevels (waterLevelsData : list Row)
    (wlWellIdCol dateCol wteCol wlAqIdCol : option string)
    (wellIdSet : gset string) (dateFormat : string) : list CanonicalMeasurement :=
  map (fun m => {| m_well_id := orEmpty (prop m wlWellIdCol);
                   m_date := parseDate (orEmpty (prop m dateCol)) dateFormat;
                   m_wte := orEmpty (prop m wteCol);
                   m_aquifer_id := if truthy wlAqIdCol
                                   then orEmpty (prop m wlAqIdCol) else "" |})
      (List.filter (fun m => has wellIdSet (prop m wlWellIdCol)) waterLevelsData).

(** The tabular part of [processData]: [None] when validation fails
    (the function logs the errors and returns), otherwise the
    canonical wells and water-level tables written to the archive. *)
Definition processData
    (regionFile aquiferFile wellsFile waterLevelsFile : option UploadedFile)
    (dateFormat : string)
  : outcome (option (list CanonicalWell * list CanonicalMeasurement)) :=
  match validateData regionFile aquiferFile wellsFile waterLevelsFile with
  | Throws e => Throws e
  | Returns result =>
      if negb (isValid result) then Returns None
      else
        match wellsFile, waterLevelsFile with
        | Some wellsFile, Some waterLevelsFile =>
            match data wellsFile, data waterLevelsFile with
            | CsvRows wellsData, CsvRows waterLevelsData =>
                let processedWells :=
                  processWells wellsData
                    (mapping wellsFile !! "well_id") (mapping wellsFile !! "lat")
                    (mapping wellsFile !! "long") (mapping wellsFile !! "aquifer_id") in
                let wellIdSet : gset string :=
                  list_to_set (map well_id processedWells) in
                let processedWaterLevels :=
                  processWaterLevels waterLevelsData
                    (mapping waterLevelsFile !! "well_id")
                    (mapping waterLevelsFile !! "date")
                    (mapping waterLevelsFile !! "wte")
                    (mapping waterLevelsFile !! "aquifer_id")
                    wellIdSet dateFormat in
                Returns (Some (processedWells, processedWaterLevels))
            | _, _ => Returns None
            end
        | _, _ => Returns None
        end
  end.

(** ** [getFolderName] *)

(** The class [[a-z0-9]]. *)
Definition isSlugChar (c : ascii) : bool :=
  let n := nat_of_ascii c in
  ((97 <=? n)%nat && (n <=? 122)%nat) || ((48 <=? n)%nat && (n <=? 57)%nat).

(** [s.replace(/[^a-z0-9]+/g, '-')]: every maximal run of characters
    outside the class becomes one hyphen.  [inRun] says that the
    previous character belonged to such a run. *)
Fixpoint collapseRuns (inRun : bool) (s : string) : string :=
  match s with
  | EmptyString => EmptyString
  | String c s' =>
      if isSlugChar c then String c (collapseRuns false s')
      else if inRun then collapseRuns true s'
      else String "-" (collapseRuns true s')
  end.

Definition dropLeadingHyphen (s : string) : string :=
  match s with
  | String "-" s' => s'
  | _ => s
  end.

Fixpoint dropTrailingHyphen (s : string) : string :=
  match s with
  | EmptyString => EmptyString
  | String c EmptyString => if Ascii.eqb c "-" then EmptyString else s
  | String c s' => String c (dropTrailingHyphen s')
  end.

(** [s.replace(/^-|-$/g, '')]: a hyphen at the start and a hyphen at
    the end are removed. *)
Definition stripHyphens (s : string) : string :=
  dropTrailingHyphen (dropLeadingHyphen s).

Definition getFolderName (name : string) : string :=
  stripHyphens (collapseRuns false (toLowerCase name)).

(** [validateRegionName], as its return value. *)
Definition validateRegionName (name : string) (existingRegions : list string) : bool :=
  if String.eqb (trim name) "" then false
  else if existsb (String.eqb (getFolderName name)) existingRegions then false
  else true.

(** ** [parseCSV] of the wizard: headers and rows *)
Definition parseCSV (text : string) : list string * list Row :=
  let lines := filter (fun line => trim line ≠ "") (split "010" text) in
  if (length lines <? 1)%nat then ([], [])
  else
    let firstLine := default "" (head lines) in
    let delimiter := if includes "009" firstLine then "009"%char else ","%char in
    let headers := map trim (split delimiter firstLine) in
    let rows := map (fun line => DataLoader.rowOf headers (split delimiter line))
                    (tail lines) in
    (headers, rows).

(** ** [autoMapColumns] *)

(** [if (idx >= 0) mapping[key] = columns[idx]] *)
Definition assign (fieldKey : string) (idx : option nat) (columns : list string)
    (mapping : gmap string string) : gmap string string :=
  match idx with
  | Some i => match columns !! i with
              | Some column => <[fieldKey := column]> mapping
              | None => mapping
              end
  | None => mapping
  end.

Definition autoMapColumns (columns : list string) (fileType : string)
  : gmap string string :=
  let lowerColumns := map toLowerCase columns in
  if String.eqb fileType "region" then ∅
  else if String.eqb fileType "aquifer" then
    let idIdx := findIndex (fun c => includesString "aquifer" c && includesString "id" c
                                     || String.eqb c "aquifer_id" || String.eqb c "id")
                           lowerColumns in
    let nameIdx := findIndex (fun c => (includesString "aquifer" c && includesString "name" c)
                                       || String.eqb c "aquifer_name" || String.eqb c "name"
                                       || String.eqb c "full_name")
                             lowerColumns in
    assign "aquifer_name" nameIdx columns (assign "aquifer_id" idIdx columns ∅)
  else if String.eqb fileType "wells" then
    let wellIdIdx := findIndex (fun c => includesString "well" c && includesString "id" c
                                         || String.eqb c "well_id")
                               lowerColumns in
    let latIdx := findIndex (fun c => String.eqb c "lat" || includesString "latitude" c
                                      || String.eqb c "lat_dec")
                            lowerColumns in
    let longIdx := findIndex (fun c => String.eqb c "long" || String.eqb c "lng"
                                       || includesString "longitude" c
                                       || String.eqb c "long_dec")
                             lowerColumns in
    let aqIdIdx := findIndex (fun c => includesString "aquifer" c && includesString "id" c
                                       || String.eqb c "aquifer_id")
                             lowerColumns in
    assign "aquifer_id" aqIdIdx columns
      (assign "long" longIdx columns
         (assign "lat" latIdx columns (assign "well_id" wellIdIdx columns ∅)))
  else if String.eqb fileType "waterLevels" then
    let wellIdIdx := findIndex (fun c => includesString "well" c && includesString "id" c
                                         || String.eqb c "well_id")
                               lowerColumns in
    let dateIdx := findIndex (fun c => String.eqb c "date" || includesString "date" c)
                             lowerColumns in
    let wteIdx := findIndex (fun c => String.eqb c "wte" || includesString "elevation" c
                                      || includesString "level" c)
                            lowerColumns in
    let aqIdIdx := findIndex (fun c => includesString "aquifer" c && includesString "id" c
                                       || String.eqb c "aquifer_id")
                             lowerColumns in
    assign "aquifer_id" aqIdIdx columns
      (assign "wte" wteIdx columns
         (assign "date" dateIdx columns (assign "well_id" wellIdIdx columns ∅)))
  else ∅.

(** ** [processData]: the exported text and the manifest *)

(** [wellsCsv] *)
Definition wellsCsv (processedWells : list CanonicalWell) : string :=
  "well_id,lat,long,aquifer_id" +:+ String "010" ""
  +:+ join (String "010" "")
        (map (fun w => well_id w +:+ "," +:+ lat w +:+ "," +:+ long w
                       +:+ "," +:+ aquifer_id w)
             processedWells).

(** [waterLevelsCsv] *)
Definition waterLevelsCsv (processedWaterLevels : list CanonicalMeasurement) : string :=
  "well_id,date,wte,aquifer_id" +:+ String "010" ""
  +:+ join (String "010" "")
        (map (fun m => m_well_id m +:+ "," +:+ m_date m +:+ "," +:+ m_wte m
                       +:+ "," +:+ m_aquifer_id m)
             processedWaterLevels).

(** An entry of [regions.json]. *)
Record ManifestEntry : Type := {
  entry_id : string;
  entry_path : string;
  entry_name : string
}.

(** The manifest written to the archive.  [fetched] is the parsed
    [regions.json] when the fetch succeeded with an ok status, [None]
    otherwise (the code then starts from an empty array). *)
Definition mergeManifest (fetched : option (list ManifestEntry))
    (folderName regionName : string) : list ManifestEntry :=
  let regionsManifest := default [] fetched in
  if existsb (fun r => String.eqb (entry_id r) folderName) regionsManifest
  then regionsManifest
  else regionsManifest ++ [ {| entry_id := folderName;
                               entry_path := "/data/" +:+ folderName;
                               entry_name := regionName |} ].

(** ** [handleFileUpload] *)

(** What [handleFileUpload] stores: for a zipped shapefile or a
    GeoJSON document the parsers are libraries, outside this model;
    for a table the uploaded file; nothing for any other name. *)
Inductive Upload : Type :=
  | Geospatial
  | Table (file : UploadedFile)
  | Unsupported.

Definition handleFileUpload (fileName text fileType : string) : Upload :=
  let isZip := endsWith ".zip" fileName in
  let isGeoJSON := endsWith ".geojson" fileName || endsWith ".json" fileName in
  let isCSV := endsWith ".csv" fileName || endsWith ".txt" fileName in
  if isZip then Geospatial
  else if isGeoJSON then Geospatial
  else if isCSV then
    let '(headers, rows) := parseCSV text in
    Table {| name := fileName; data := CsvRows rows; columns := headers;
             mapping := autoMapColumns headers fileType |}
  else Unsupported.
End DataManager.

(** ** The map view: measurements per well *)
Module MapView.

(** [counts.set(m.wellId, (counts.get(m.wellId) || 0) + 1)] over the
    measurements. *)
Definition wellMeasurementCounts (measurements : list DataLoader.Measurement)
  : gmap string nat :=
  foldl (fun (counts : gmap string nat) m =>
           <[DataLoader.wellId m := default 0 (counts !! DataLoader.wellId m) + 1]> counts)
        ∅ measurements.

(** [wellMeasurementCounts.get(w.id) || 0] *)
Definition measurementCount (counts : gmap string nat) (wellId : string) : nat :=
  default 0 (counts !! wellId).

(** [measurementCount >= 2] *)
Definition hasEnoughData (counts : gmap string nat) (wellId : string) : bool :=
  (2 <=? measurementCount counts wellId)%nat.

End MapView.

(** ** [loadAquifers] of [services/dataLoader.ts]

    It reads the properties of GeoJSON features, so it comes after
    the JavaScript values of the wizard. *)
Module AquiferLoader.

(** A feature of [aquifers.geojson]: its [properties] (absent or
    [null] as [None]) and its [geometry]. *)
Record AquiferFeature : Type := {
  feature_properties : option (gmap string DataManager.JsValue);
  feature_geometry : option DataLoader.Geometry
}.

(** The parsed document: a feature collection, or any other object,
    read as a single feature. *)
Inductive AquiferDocument : Type :=
  | Collection (features : list AquiferFeature)
  | Single (feature : AquiferFeature).

(** The outcome of [fetch] and [response.json()]: an exception (which
    the [catch] swallows), a response that is not ok, or the parsed
    document. *)
Inductive Response : Type :=
  | FetchThrows
  | NotOk
  | Ok (geojson : AquiferDocument).

Record Aquifer : Type := {
  id : string;
  name : DataManager.JsValue;
  regionId : string;
  geojson : list AquiferFeature;
  bounds : DataLoader.Bounds
}.

(** [String(props.aquifer_id || 'unknown')] with
    [props = feature.properties || {}]. *)
Definition featureId (feature : AquiferFeature) : string :=
  let props := default ∅ (feature_properties feature) in
  if DataManager.truthyValue (props !! "aquifer_id")
  then DataManager.toString (default DataManager.JNull (props !! "aquifer_id"))
  else "unknown".

(** [props.aquifer_name || `Aquifer ${id}`] *)
Definition featureName (feature : AquiferFeature) : DataManager.JsValue :=
  let props := default ∅ (feature_properties feature) in
  if DataManager.truthyValue (props !! "aquifer_name")
  then default DataManager.JNull (props !! "aquifer_name")
  else DataManager.JString ("Aquifer " +:+ featureId feature).

(** A [Map] in insertion order. *)
Definition mapHas {V} (m : list (string * V)) (k : string) : bool :=
  existsb (fun e => String.eqb (fst e) k) m.

(** [featureCollection.features] *)
Definition featuresOf (doc : AquiferDocument) : list AquiferFeature :=
  match doc with
  | Collection features => features
  | Single feature => [feature]
  end.

(** The body of the loop that groups the features by identifier:
    [if (!aquiferMap.has(id)) aquiferMap.set(id, { features: [], name });
     aquiferMap.get(id)!.features.push(feature)]. *)
Definition groupFeature
    (aquiferMap : list (string * (list AquiferFeature * DataManager.JsValue)))
    (feature : AquiferFeature)
  : list (string * (list AquiferFeature * DataManager.JsValue)) :=
  let id := featureId feature in
  let aquiferMap :=
    if mapHas aquiferMap id then aquiferMap
    else aquiferMap ++ [(id, ([], featureName feature))] in
  map (fun '(k, (features, name)) =>
         if String.eqb k id then (k, (features ++ [feature], name))
         else (k, (features, name)))
      aquiferMap.

(** The aquifers made from the geometry. *)
Definition fromGeometry (regionId : string) (doc : AquiferDocument) : list Aquifer :=
  map (fun '(id, (features, name)) =>
         {| id := id; name := name; regionId := regionId; geojson := features;
            bounds := DataLoader.calculateBounds
                        (DataLoader.GeoFeatureCollection (map feature_geometry features)) |})
      (foldl groupFeature [] (featuresOf doc)).

(** [wellAquifers]: the first name seen for each non-empty aquifer
    identifier of the wells. *)
Definition wellAquifers (wells : list DataLoader.Well) : list (string * string) :=
  foldl (fun m well =>
           if negb (String.eqb (DataLoader.aquiferId well) "")
              && negb (mapHas m (DataLoader.aquiferId well))
           then m ++ [(DataLoader.aquiferId well, DataLoader.aquiferName well)]
           else m)
        [] wells.

(** [Math.min(...values)] and [Math.max(...values)] *)
Definition mathMinAll (values : list float) : float :=
  foldl DataLoader.mathMin PrimFloat.infinity values.

Definition mathMaxAll (values : list float) : float :=
  foldl DataLoader.mathMax PrimFloat.neg_infinity values.

(** The literal [0.1]. *)
Definition tenth : float := 0x1.999999999999ap-4%float.

(** The aquifers made from the wells, when no geometry was loaded. *)
Definition fromWells (regionId : string) (wells : list DataLoader.Well) : list Aquifer :=
  flat_map (fun '(id, name) =>
              let aquiferWells :=
                List.filter (fun w => String.eqb (DataLoader.aquiferId w) id) wells in
              if (0 <? length aquiferWells)%nat then
                let lats := map DataLoader.lat aquiferWells in
                let lngs := map DataLoader.lng aquiferWells in
                [ {| id := id; name := DataManager.JString name; regionId := regionId;
                     geojson := [];
                     bounds := {| DataLoader.minLat := PrimFloat.sub (mathMinAll lats) tenth;
                                  DataLoader.minLng := PrimFloat.sub (mathMinAll lngs) tenth;
                                  DataLoader.maxLat := PrimFloat.add (mathMaxAll lats) tenth;
                                  DataLoader.maxLng := PrimFloat.add (mathMaxAll lngs) tenth |}
                  |} ]
              else [])
           (wellAquifers wells).

Definition loadAquifers (response : Response) (regionId : string)
    (wells : list DataLoader.Well) : list Aquifer :=
  match response with
  | FetchThrows => []
  | NotOk => fromWells regionId wells
  | Ok doc =>
      let aquifers := fromGeometry regionId doc in
      if (length aquifers =? 0)%nat && (0 <? length (wellAquifers wells))%nat
      then fromWells regionId wells
      else aquifers
  end.

End AquiferLoader.

(* ================================================================= *)
(** * 6. The vocabulary of the specification, and sample data *)
(* ================================================================= *)

(** Definitions of this part are not code of the repository: they say
    what the specification's sentences mean, or give concrete inputs. *)

(** The secants on the two sides of the sample [j] disagree in sign,
    or one of them is zero: the test [delta[j-1] * delta[j] <= 0] of
    Strategy A, on the secants the code computes from [x] and [y]. *)
Definition sign_change {N} `{JsNum N} (x y : list N) (j : nat) : Prop :=
  let n := length x in
  let delta := secants y (intervals x n) n in
  (get delta (j - 1) * get delta j <=? lit 0)%js = true.

(** The interval the specification describes for a target [t]: the
    one with [x[i] <= t < x[i+1]]. *)
Definition claimed_interval {N} `{JsNum N} (x : list N) (t : N) (i : nat) : Prop :=
  (get x i <=? t)%js = true /\ (t <? get x (i + 1))%js = true.

(** What the specification asks of one target [t] and its result [r]. *)
Definition clamped {N} `{JsNum N} (x y : list N) (t r : N) : Prop :=
  ((t <=? get x 0)%js = true -> r = get y 0)
  /\ ((t >=? get x (length x - 1))%js = true -> r = get y (length x - 1)).

(** The Hermite combination, associated as the source writes it. *)
Definition hermite (T yi yi1 h mi mi1 : Q) : Q :=
  (let t2 := T * T in
  let t3 := t2 * T in
  (2 * t3 - 3 * t2 + 1) * yi + (t3 - 2 * t2 + T) * h * mi
  + (inject_Z (-2) * t3 + 3 * t2) * yi1 + (t3 - t2) * h * mi1)%Q.

(** Zig-zag samples: every interior secant pair changes sign. *)
Definition zigzag_x : list float := [0; 1; 2; 3; 4]%float.
Definition zigzag_y : list float := [3; 2.5; 3; 2.5; 3]%float.
Definition zigzag_xQ : list Q := [0; 1; 2; 3; 4]%Q.
Definition zigzag_yQ : list Q := [3; 5 # 2; 3; 5 # 2; 3]%Q.

(** [1 + 5 * 2^-30], just right of the sample at [1]. *)
Definition near_one : float := 0x1.00000014p+0%float.

Definition three_x : list float := [0; 1; 2]%float.
Definition three_y : list float := [5; 6; 7]%float.

Definition newline : string := String "010" "".

(** A [wells.csv] whose second well has the latitude text
    ["Infinity"]. *)
Definition wells_csv : string :=
  "well_id,lat,long" +:+ newline
  +:+ "W1,37.5,-113.25" +:+ newline
  +:+ "W2,Infinity,1" +:+ newline
  +:+ "W3,0,5" +:+ newline
  +:+ "W4,n/a,7".

(** A [water_levels.csv] with an empty and a missing [wte] cell, an
    unparsable one, and a row without a date. *)
Definition water_levels_csv : string :=
  "well_id,date,wte" +:+ newline
  +:+ "W1,2020-01-01," +:+ newline
  +:+ "W1,2020-02-01" +:+ newline
  +:+ "W1,2020-03-01,dry" +:+ newline
  +:+ "W1,,12.5" +:+ newline
  +:+ "W2,2020-01-01,12.5".

Section ValidatorVocabulary.
Import DataManager.

(** The four inputs, each with the error reported when it is
    missing. *)
Definition requiredInputs (rf af wf mf : option UploadedFile)
  : list (option UploadedFile * string) :=
  [ (rf, "Region file is required");
    (af, "Aquifer file is required");
    (wf, "Wells file is required");
    (mf, "Water levels file is required") ].

(** One error per missing input. *)
Definition missingInputErrors (rf af wf mf : option UploadedFile) : list string :=
  map snd (List.filter (fun p => match fst p with None => true | Some _ => false end)
                       (requiredInputs rf af wf mf)).

(** The fields marked required in the canonical schema of each kind:
    the file, its kind, the field key and the field label. *)
Definition requiredMappings (af wf mf : UploadedFile)
  : list (UploadedFile * string * string * string) :=
  [ (af, "aquifer", "aquifer_id", "Aquifer ID");
    (af, "aquifer", "aquifer_name", "Aquifer Name");
    (wf, "wells", "well_id", "Well ID");
    (wf, "wells", "lat", "Latitude");
    (wf, "wells", "long", "Longitude");
    (mf, "waterLevels", "well_id", "Well ID");
    (mf, "waterLevels", "date", "Date");
    (mf, "waterLevels", "wte", "Water Table Elevation") ].

(** One error per required field whose mapping is missing or empty. *)
Definition missingMappingErrors (af wf mf : UploadedFile) : list string :=
  map (fun '(_, fileType, _, fieldLabel) =>
         fileType +:+ ": Missing mapping for " +:+ fieldLabel)
      (List.filter (fun '(file, _, fieldKey, _) => negb (truthy (mapping file !! fieldKey)))
                   (requiredMappings af wf mf)).

(** The well reference [v] of a measurement names a well of the
    table: some row carries that identifier, and it is not empty. *)
Definition referencesWell (wells : list Row) (wellIdCol : option string)
    (v : option string) : bool :=
  match v with
  | Some id => negb (String.eqb id "")
               && existsb (fun w => bool_decide (prop w wellIdCol = Some id)) wells
  | None => false
  end.

(** A well row is accepted, in the words of the specification, when
    its identifier is non-empty and its required fields are present:
    every required field of the wells schema has a non-empty value in
    the row. *)
Definition acceptedWell (wf : UploadedFile) (w : Row) : bool :=
  forallb (fun col => truthy (prop w (mapping wf !! key col)))
          (List.filter required (getRequiredColumns "wells")).

Definition referencesAcceptedWell (wf : UploadedFile) (wells : list Row)
    (v : option string) : bool :=
  match v with
  | Some id =>
      existsb (fun w => acceptedWell wf w
                        && bool_decide (prop w (mapping wf !! "well_id") = Some id))
              wells
  | None => false
  end.

Definition noAquiferColumnWarning : string :=
  "Wells file has no aquifer_id column. Point-in-polygon assignment will be attempted.".

Definition droppedWarning (count : nat) : string :=
  pretty count +:+ " measurements reference non-existent wells and will be dropped".

Definition region_file : UploadedFile :=
  {| name := "region.geojson";
     data := SingleFeature {| properties := None |};
     columns := [];
     mapping := ∅ |}.

Definition aquifer_file : UploadedFile :=
  {| name := "aquifers.geojson";
     data := FeatureCollection
               [ {| properties := Some {[ "AQ_ID" := JNumber 7;
                                          "AQ_NAME" := JString "Navajo" ]} |} ];
     columns := ["AQ_ID"; "AQ_NAME"];
     mapping := {[ "aquifer_id" := "AQ_ID"; "aquifer_name" := "AQ_NAME" ]} |}.

(** Two wells; the second has an empty latitude. *)
Definition wells_rows : list Row :=
  [ {[ "id" := "A"; "y" := "37.1"; "x" := "-113.5"; "aq" := "7" ]};
    {[ "id" := "B"; "y" := ""; "x" := "-113.6"; "aq" := "7" ]} ].

Definition wells_file : UploadedFile :=
  {| name := "wells.csv";
     data := CsvRows wells_rows;
     columns := ["id"; "y"; "x"; "aq"];
     mapping := {[ "well_id" := "id"; "lat" := "y"; "long" := "x";
                   "aquifer_id" := "aq" ]} |}.

(** Three measurements: of well [A], of well [B] and of an unknown
    well [C]. *)
Definition levels_rows : list Row :=
  [ {[ "well" := "A"; "when" := "1/5/09"; "level" := "2710.5" ]};
    {[ "well" := "B"; "when" := "2/5/09"; "level" := "2650" ]};
    {[ "well" := "C"; "when" := "3/5/09"; "level" := "2600" ]} ].

Definition levels_file : UploadedFile :=
  {| name := "levels.csv";
     data := CsvRows levels_rows;
     columns := ["well"; "when"; "level"];
     mapping := {[ "well_id" := "well"; "date" := "when"; "wte" := "level" ]} |}.

(** The wells upload with the latitude mapping left empty. *)
Definition wells_file_unmapped : UploadedFile :=
  {| name := "wells.csv";
     data := CsvRows wells_rows;
     columns := ["id"; "y"; "x"; "aq"];
     mapping := {[ "well_id" := "id"; "lat" := ""; "long" := "x" ]} |}.
End ValidatorVocabulary.

(** ** The vocabulary of the further properties *)

(** *** The spline solver *)

(** The body of the forward-elimination loop of Strategy B, and of
    its back-substitution loop, by name. *)
Definition forwardStep {N} `{JsNum N} (s : StrategyB.system) (i : nat)
  : StrategyB.system :=
  (if get (StrategyB.diag s) (i - 1) === lit 0 then s
   else
     let w := get (StrategyB.sub_diag s) i / get (StrategyB.diag s) (i - 1) in
     {| StrategyB.sub_diag := StrategyB.sub_diag s;
        StrategyB.diag :=
          <[i := get (StrategyB.diag s) i - w * get (StrategyB.super_diag s) (i - 1)]>
            (StrategyB.diag s);
        StrategyB.super_diag := StrategyB.super_diag s;
        StrategyB.rhs :=
          <[i := get (StrategyB.rhs s) i - w * get (StrategyB.rhs s) (i - 1)]>
            (StrategyB.rhs s) |})%js.

Definition backStep {N} `{JsNum N} (s : StrategyB.system) (m : list N) (i : nat)
  : list N :=
  (if get (StrategyB.diag s) i !== lit 0
   then <[i := (get (StrategyB.rhs s) i - get (StrategyB.super_diag s) i * get m (i + 1))
               / get (StrategyB.diag s) i]> m
   else m)%js.

(** The cubic of Strategy B on one interval, associated as the source
    writes it. *)
Definition splineCubic (t hi yi delta mi mi1 : Q) : Q :=
  (let a_coef := (mi1 - mi) / (6 * hi) in
   let b_coef := mi / 2 in
   let c_coef := delta - hi * (2 * mi + mi1) / 6 in
   a_coef * t * t * t + b_coef * t * t + c_coef * t + yi)%Q.

(** What [k] rounds of the forward elimination have established, from
    the system [s0] of [n] rows: the rows up to [k] hold the reduced
    coefficients, with positive pivots above the upper diagonal; the
    rows after [k] are still those of [s0]. *)
Definition eliminated (n : nat) (s0 : StrategyB.system (N:=Q)) (k : nat)
    (s : StrategyB.system (N:=Q)) : Prop :=
  (StrategyB.sub_diag s = StrategyB.sub_diag s0
  /\ StrategyB.super_diag s = StrategyB.super_diag s0
  /\ length (StrategyB.diag s) = n /\ length (StrategyB.rhs s) = n
  /\ (forall j, (k < j)%nat ->
        get (StrategyB.diag s) j = get (StrategyB.diag s0) j
        /\ get (StrategyB.rhs s) j = get (StrategyB.rhs s0) j)
  /\ get (StrategyB.diag s) 0 = 1 /\ get (StrategyB.rhs s) 0 = 0
  /\ (forall j, (1 <= j <= k)%nat ->
        get (StrategyB.diag s) j
        = get (StrategyB.diag s0) j
          - get (StrategyB.sub_diag s0) j / get (StrategyB.diag s) (j - 1)
            * get (StrategyB.super_diag s0) (j - 1)
        /\ get (StrategyB.rhs s) j
           = get (StrategyB.rhs s0) j
             - get (StrategyB.sub_diag s0) j / get (StrategyB.diag s) (j - 1)
               * get (StrategyB.rhs s) (j - 1))
  /\ (forall j, (j <= k)%nat ->
        0 < get (StrategyB.diag s) j
        /\ ((j + 1 < n)%nat -> get (StrategyB.super_diag s0) j < get (StrategyB.diag s) j)))%Q.

(** What the back substitution has established once it has filled the
    entries from [j] on. *)
Definition substituted (n : nat) (s : StrategyB.system (N:=Q)) (j : nat) (m : list Q)
  : Prop :=
  (length m = n
  /\ get m (n - 1) = get (StrategyB.rhs s) (n - 1) / get (StrategyB.diag s) (n - 1)
  /\ (forall i, (j <= i)%nat -> (i + 1 < n)%nat ->
        get m i = (get (StrategyB.rhs s) i - get (StrategyB.super_diag s) i * get m (i + 1))
                  / get (StrategyB.diag s) i))%Q.

(** *** Shape preservation *)

(** The tangent [m], scaled like the secant [d], lies between zero
    and three times the secant: the condition under which a cubic
    Hermite piece is monotone. *)
Definition limited (d m : Q) : Prop :=
  (0 <= m /\ m <= 3 * d)%Q \/ (3 * d <= m /\ m <= 0)%Q.

(** The samples lie on the line [a + s * x]. *)
Definition collinear (x y : list Q) (a s : Q) : Prop :=
  forall i, (i < length x)%nat -> (get y i == a + s * get x i)%Q.

(** Samples with rising values, and samples on the line [1 + 2 x]
    over the abscissae [zigzag_xQ]. *)
Definition rising_xQ : list Q := [0; 1; 2; 3]%Q.
Definition rising_yQ : list Q := [0; 1; 4; 9]%Q.
Definition line_yQ : list Q := [1; 3; 5; 7; 9]%Q.

(** Interval lengths and secants of four samples. *)
Definition four_h : list Q := [1; 2; 1]%Q.
Definition four_delta : list Q := [1; -1 # 1; 2]%Q.

(** *** Bounding boxes *)

(** The coordinate pairs of a JSON value, read recursively: an array
    that starts with two numbers is one pair; any other array gives
    the pairs of its items, the last item first (the order in which a
    stack hands them out); anything else gives none. *)
Fixpoint visit (c : DataLoader.Json) : list (float * float) :=
  match c with
  | DataLoader.JsonArray items =>
      match DataLoader.asPair items with
      | Some p => [p]
      | None => concat (rev (map visit items))
      end
  | _ => []
  end.

(** The coordinate pairs of a document, geometry by geometry. *)
Definition positions (geojson : DataLoader.GeoJson) : list (float * float) :=
  flat_map (fun g => match DataLoader.coordinates g with
                     | Some coords => visit coords
                     | None => []
                     end)
           (DataLoader.geometriesOf geojson).

(** [extend] over a list of pairs [(lng, lat)]. *)
Definition extendAll (b : DataLoader.Bounds) (l : list (float * float))
  : DataLoader.Bounds :=
  foldl (fun b '(lng, lat) => DataLoader.extend b lng lat) b l.

(** Neither coordinate of the pair is NaN. *)
Definition numbers (p : float * float) : Prop :=
  PrimFloat.is_nan (fst p) = false /\ PrimFloat.is_nan (snd p) = false.

Definition boundsAreNumbers (b : DataLoader.Bounds) : Prop :=
  PrimFloat.is_nan (DataLoader.minLat b) = false
  /\ PrimFloat.is_nan (DataLoader.minLng b) = false
  /\ PrimFloat.is_nan (DataLoader.maxLat b) = false
  /\ PrimFloat.is_nan (DataLoader.maxLng b) = false.

(** The pair [(lng, lat)] lies in the box. *)
Definition inside (b : DataLoader.Bounds) (p : float * float) : Prop :=
  PrimFloat.leb (DataLoader.minLat b) (snd p) = true
  /\ PrimFloat.leb (snd p) (DataLoader.maxLat b) = true
  /\ PrimFloat.leb (DataLoader.minLng b) (fst p) = true
  /\ PrimFloat.leb (fst p) (DataLoader.maxLng b) = true.

(** [b'] is at least as wide as [b]. *)
Definition widens (b b' : DataLoader.Bounds) : Prop :=
  PrimFloat.leb (DataLoader.minLat b') (DataLoader.minLat b) = true
  /\ PrimFloat.leb (DataLoader.maxLat b) (DataLoader.maxLat b') = true
  /\ PrimFloat.leb (DataLoader.minLng b') (DataLoader.minLng b) = true
  /\ PrimFloat.leb (DataLoader.maxLng b) (DataLoader.maxLng b') = true.

(** A feature collection with one triangle and one feature without
    geometry. *)
Definition triangle : DataLoader.GeoJson :=
  DataLoader.GeoFeatureCollection
    [ Some {| DataLoader.coordinates :=
                Some (DataLoader.JsonArray
                        [ DataLoader.JsonArray
                            [ DataLoader.JsonArray
                                [ DataLoader.JsonNumber (-114)%float;
                                  DataLoader.JsonNumber 36.5%float ];
                              DataLoader.JsonArray
                                [ DataLoader.JsonNumber (-113.25)%float;
                                  DataLoader.JsonNumber 37.5%float ];
                              DataLoader.JsonArray
                                [ DataLoader.JsonNumber (-113.5)%float;
                                  DataLoader.JsonNumber 37%float ] ] ]) |};
      None ].

(** *** Exported tables *)

(** A four-cell line of an exported table. *)
Definition csvLine (a b c d : string) : string :=
  a +:+ "," +:+ b +:+ "," +:+ c +:+ "," +:+ d.

(** The text holds neither a comma nor a line feed. *)
Definition plainCell (s : string) : Prop :=
  includes "," s = false /\ includes "010" s = false.

Definition plainWell (w : DataManager.CanonicalWell) : Prop :=
  plainCell (DataManager.well_id w) /\ plainCell (DataManager.lat w)
  /\ plainCell (DataManager.long w) /\ plainCell (DataManager.aquifer_id w).

Definition plainMeasurement (m : DataManager.CanonicalMeasurement) : Prop :=
  plainCell (DataManager.m_well_id m) /\ plainCell (DataManager.m_date m)
  /\ plainCell (DataManager.m_wte m) /\ plainCell (DataManager.m_aquifer_id m).

(** The row read back from a four-cell line under four headers. *)
Definition rowOfCells (k1 k2 k3 k4 a b c d : string) : Row :=
  <[k4 := trim d]> (<[k3 := trim c]> (<[k2 := trim b]> (<[k1 := trim a]> ∅))).

(** One exported well and one exported measurement. *)
Definition exported_wells : list DataManager.CanonicalWell :=
  [ {| DataManager.well_id := "A"; DataManager.lat := "37.1";
       DataManager.long := "-113.5"; DataManager.aquifer_id := "7" |} ].

Definition exported_levels : list DataManager.CanonicalMeasurement :=
  [ {| DataManager.m_well_id := "A"; DataManager.m_date := "2009-01-05";
       DataManager.m_wte := "2710.5"; DataManager.m_aquifer_id := "" |} ].

(** *** Folder names *)

(** Only letters, digits and single hyphens; with [afterHyphen] the
    text may not start with a hyphen. *)
Fixpoint tidy (afterHyphen : bool) (s : string) : bool :=
  match s with
  | EmptyString => true
  | String c s' =>
      if DataManager.isSlugChar c then tidy false s'
      else Ascii.eqb c "-" && negb afterHyphen && tidy true s'
  end.

Fixpoint endsWithHyphen (s : string) : bool :=
  match s with
  | EmptyString => false
  | String c EmptyString => Ascii.eqb c "-"
  | String _ s' => endsWithHyphen s'
  end.

(** *** Column mappings and references *)



(** Headers a user may have given to a wells table, and an upload
    whose headers are the canonical names, mapped automatically. *)
Definition wells_headers : list string := ["Well ID"; "Latitude"; "Longitude"].

Definition canonical_wells_file : DataManager.UploadedFile :=
  {| DataManager.name := "wells.csv";
     DataManager.data := DataManager.CsvRows [];
     DataManager.columns := ["well_id"; "lat"; "long"];
     DataManager.mapping :=
       DataManager.autoMapColumns ["well_id"; "lat"; "long"] "wells" |}.

(** *** Finite results *)

(** Every entry of the array is finite. *)
Definition allFinite {N} `{JsNum N} (l : list N) : Prop :=
  Forall (fun v => isFinite v = true) l.

(** *** Aquifers *)

(** What the grouping loop of [loadAquifers] has established after
    the features [seen]: the keys are distinct, each entry holds the
    features seen with its key, in order, and the name of the first
    one, and every feature seen has its key in the map. *)
Definition grouped (seen : list AquiferLoader.AquiferFeature)
    (m : list (string * (list AquiferLoader.AquiferFeature * DataManager.JsValue)))
  : Prop :=
  List.NoDup (map fst m)
  /\ (forall k features name, In (k, (features, name)) m ->
        (exists first rest,
            features = first :: rest /\ name = AquiferLoader.featureName first)
        /\ features
           = List.filter (fun f => String.eqb (AquiferLoader.featureId f) k) seen)
  /\ (forall f, In f seen -> In (AquiferLoader.featureId f) (map fst m)).

(** Every [aquifer_id] of the document is one that [toString]
    prints as [String] does. *)
Definition aquiferIdsPrintedInFull (doc : AquiferLoader.AquiferDocument) : bool :=
  forallb (fun f => DataManager.printedInFull
                      (default ∅ (AquiferLoader.feature_properties f) !! "aquifer_id"))
          (AquiferLoader.featuresOf doc).

(** Three features of two aquifers; the second has no name and no
    geometry. *)
Definition aquifers_document : AquiferLoader.AquiferDocument :=
  AquiferLoader.Collection
    [ {| AquiferLoader.feature_properties :=
           Some {[ "aquifer_id" := DataManager.JNumber 7;
                   "aquifer_name" := DataManager.JString "Navajo" ]};
         AquiferLoader.feature_geometry :=
           Some {| DataLoader.coordinates :=
                     Some (DataLoader.JsonArray
                             [ DataLoader.JsonNumber (-114)%float;
                               DataLoader.JsonNumber 36.5%float ]) |} |};
      {| AquiferLoader.feature_properties :=
           Some {[ "aquifer_id" := DataManager.JNumber 8 ]};
         AquiferLoader.feature_geometry := None |};
      {| AquiferLoader.feature_properties :=
           Some {[ "aquifer_id" := DataManager.JNumber 7 ]};
         AquiferLoader.feature_geometry := None |} ].


(** The text of an uploaded wells table. *)
Definition uploaded_wells_text : string :=
  "Well ID,Latitude,Longitude" +:+ newline +:+ "A,37.1,-113.5".

(* ================================================================= *)
(** * 7. Order laws of the two number models *)
(* ================================================================= *)

(** ** binary64 *)

Ltac sf_cases :=
  repeat match goal with
         | x : spec_float |- _ => destruct x
         | b : bool |- _ => destruct b
         end;
  simpl in *; try congruence.

Ltac sf_compare :=
  repeat match goal with
         | H : context [Z.compare ?a ?b] |- _ =>
             destruct (Z.compare_spec a b); simpl in H; try congruence
         | |- context [Z.compare ?a ?b] =>
             destruct (Z.compare_spec a b); simpl; try congruence
         | H : context [Pos.compare_cont Eq ?a ?b] |- _ =>
             change (Pos.compare_cont Eq a b) with (Pos.compare a b) in H;
             destruct (Pos.compare_spec a b); simpl in H; try congruence
         | |- context [Pos.compare_cont Eq ?a ?b] =>
             change (Pos.compare_cont Eq a b) with (Pos.compare a b);
             destruct (Pos.compare_spec a b); simpl; try congruence
         end;
  try lia.

Lemma SFltb_trans a b c :
  SFltb a b = true -> SFltb b c = true -> SFltb a c = true.
Proof. unfold SFltb, SFcompare. sf_cases; sf_compare. Qed.

Lemma SFltb_SFleb_trans a b c :
  SFltb a b = true -> SFleb b c = true -> SFltb a c = true.
Proof. unfold SFltb, SFleb, SFcompare. sf_cases; sf_compare. Qed.

Lemma SFltb_SFleb a b : SFltb a b = true -> SFleb a b = true.
Proof. unfold SFltb, SFleb. destruct (SFcompare a b) as [[]|]; congruence. Qed.

Lemma SFltb_not_SFleb a b : SFltb a b = true -> SFleb b a = false.
Proof. unfold SFltb, SFleb, SFcompare. sf_cases; sf_compare. Qed.

Lemma SFltb_comparable_l a b : SFltb a b = true -> SFleb a a = true.
Proof. unfold SFltb, SFleb, SFcompare. sf_cases; sf_compare. Qed.

Lemma SFltb_comparable_r a b : SFltb a b = true -> SFleb b b = true.
Proof. unfold SFltb, SFleb, SFcompare. sf_cases; sf_compare. Qed.

Lemma SFleb_total a b :
  SFleb a a = true -> SFleb b b = true -> SFltb a b = false -> SFleb b a = true.
Proof. unfold SFltb, SFleb, SFcompare. sf_cases; sf_compare. Qed.

#[export] Instance float_JsNumOrder : JsNumOrder float.
Proof.
  split; simpl; intros *; rewrite ?ltb_spec, ?leb_spec.
  - apply SFltb_trans.
  - apply SFltb_SFleb_trans.
  - apply SFltb_SFleb.
  - apply SFltb_not_SFleb.
  - apply SFltb_comparable_l.
  - apply SFltb_comparable_r.
  - apply SFleb_total.
Qed.

(** ** Exact rationals *)

Lemma Q_ltb_lt (a b : Q) : (a <? b)%js = true <-> (a < b)%Q.
Proof.
  simpl. rewrite negb_true_iff. split.
  - intros E. apply Qnot_le_lt. intros L. apply Qle_bool_iff in L. congruence.
  - intros L. destruct (Qle_bool b a) eqn:E; [|reflexivity].
    apply Qle_bool_iff in E. exfalso. apply (Qlt_not_le _ _ L E).
Qed.

Lemma Q_leb_le (a b : Q) : (a <=? b)%js = true <-> (a <= b)%Q.
Proof. simpl. apply Qle_bool_iff. Qed.

Lemma Q_ltb_ge (a b : Q) : (a <? b)%js = false <-> (b <= a)%Q.
Proof.
  simpl. rewrite negb_false_iff. apply Qle_bool_iff.
Qed.

Lemma Q_leb_gt (a b : Q) : (a <=? b)%js = false <-> (b < a)%Q.
Proof.
  rewrite <- Q_ltb_lt. simpl. destruct (Qle_bool a b); simpl; split; congruence.
Qed.

Lemma Q_eqb_eq (a b : Q) : (a === b)%js = true <-> (a == b)%Q.
Proof. simpl. apply Qeq_bool_iff. Qed.

#[export] Instance Q_JsNumOrder : JsNumOrder Q.
Proof.
  split; intros *; rewrite ?Q_ltb_lt, ?Q_leb_le, ?Q_ltb_ge, ?Q_leb_gt.
  - apply Qlt_trans.
  - apply Qlt_le_trans.
  - apply Qlt_le_weak.
  - auto.
  - intros _. apply Qle_refl.
  - intros _. apply Qle_refl.
  - auto.
Qed.

(* ================================================================= *)
(** * 8. Properties of the interpolation engine *)
(* ================================================================= *)

(** ** Evaluations on binary64 *)

(** The two samples of the specification, on binary64. *)
Example strategyB_two_points_float :
  StrategyB.interpolatePCHIP [0; 10]%float [0; 100]%float [5]%float = [50]%float.
Proof. vm_compute. reflexivity. Qed.

Example strategyA_flat_float :
  StrategyA.interpolatePCHIP [0; 1; 2; 3]%float [10; 10; 10; 10]%float
    [0; 0.5; 1; 1.5; 3]%float = [10; 10; 10; 10; 10]%float.
Proof. vm_compute. reflexivity. Qed.

Example parseFloat_samples :
  map parseFloat ["0"; "37.1"; "-113.5"; " 1e3x"; "5."; ".5"; "1e-2"; "-0"]
  = [0; 0x1.28ccccccccccdp+5; -113.5; 1000; 5; 0.5; 0x1.47ae147ae147bp-7; -0]%float.
Proof. vm_compute. reflexivity. Qed.

Example parseFloat_not_a_number :
  map (fun s => PrimFloat.is_nan (parseFloat s)) [""; "abc"; "."; "-"; "e5"; "N/A"]
  = [true; true; true; true; true; true].
Proof. vm_compute. reflexivity. Qed.

Example parseFloat_infinite :
  map parseFloat ["Infinity"; "-Infinity"; "1e999"]
  = [PrimFloat.infinity; PrimFloat.neg_infinity; PrimFloat.infinity].
Proof. vm_compute. reflexivity. Qed.

Lemma Forall2_map_intro {A B} (P : A -> B -> Prop) (f : A -> B) (l : list A) :
  (forall a, P a (f a)) -> Forall2 P l (map f l).
Proof. intros Hf. induction l; simpl; constructor; auto. Qed.

Section OrderFacts.
Context {N : Type} `{JsNumOrder N}.
Local Open Scope js_scope.

(** Along a strictly increasing array, a smaller index holds a
    smaller abscissa. *)
Lemma strictly_increasing_lt (x : list N) (i j : nat) :
  strictly_increasing x -> i < j -> j < length x ->
  (get x i <? get x j) = true.
Proof.
  intros Hx Hij Hj. induction j as [|j IH]; [lia|].
  destruct (decide (i = j)) as [->|Hne].
  - apply Hx. lia.
  - apply ltb_trans with (get x j); [apply IH; lia | apply Hx; lia].
Qed.

Lemma strictly_increasing_comparable (x : list N) (i : nat) :
  strictly_increasing x -> 2 <= length x -> i < length x ->
  (get x i <=? get x i) = true.
Proof.
  intros Hx Hn Hi. destruct i as [|i].
  - apply ltb_comparable_l with (get x 1). apply Hx. lia.
  - apply ltb_comparable_r with (get x i). apply Hx. lia.
Qed.

(** A target at or above the last abscissa is not at or below the
    first one. *)
Lemma above_last_not_below_first (x : list N) (t : N) :
  strictly_increasing x -> 2 <= length x ->
  (t >=? get x (length x - 1)) = true -> (t <=? get x 0) = false.
Proof.
  intros Hx Hn Ht. apply ltb_not_leb.
  apply ltb_leb_trans with (get x (length x - 1)); [|exact Ht].
  apply strictly_increasing_lt; [exact Hx | lia | lia].
Qed.

(** What the [while] loop of the scan guarantees on exit. *)
Lemma scan_exit (x : list N) (n : nat) (tx : N) (fuel i : nat) :
  i <= n - 2 -> n - 2 - i <= fuel ->
  let r := scan x n tx fuel i in
  i <= r <= n - 2
  /\ (forall j, i <= j < r -> (get x (j + 1) <? tx) = true)
  /\ (r < n - 2 -> (get x (r + 1) <? tx) = false).
Proof.
  revert i. induction fuel as [|fuel IH]; intros i Hi Hfuel; simpl.
  - split; [lia | split; intros; lia].
  - destruct (Nat.ltb_spec i (n - 2)) as [Hlt|Hge]; simpl.
    + destruct (get x (i + 1) <? tx) eqn:E.
      * destruct (IH (S i)) as (Hr & Hpassed & Hstop); [lia | lia |].
        split; [lia | split; [|exact Hstop]].
        intros j Hj. destruct (decide (j = i)) as [->|Hne]; [exact E|].
        apply Hpassed. lia.
      * split; [lia | split; [intros; lia | intros _; exact E]].
    + split; [lia | split; intros; lia].
Qed.
End OrderFacts.

(** ** Clamping at the ends of the sample range *)

Section Clamping.
Context {N : Type} `{JsNumOrder N}.
Local Open Scope js_scope.

Lemma strategyA_evaluate_clamped (x y h m : list N) (t : N) :
  2 <= length x -> strictly_increasing x ->
  clamped x y t (StrategyA.evaluate x y h m (length x) t).
Proof.
  intros Hn Hx. unfold clamped, StrategyA.evaluate. split; intros Ht.
  - rewrite Ht. reflexivity.
  - rewrite (above_last_not_below_first x t Hx Hn Ht), Ht. reflexivity.
Qed.

Lemma strategyB_evaluate_clamped (x y h delta m : list N) (t : N) :
  2 <= length x -> strictly_increasing x ->
  clamped x y t (StrategyB.evaluate x y h delta m (length x) t).
Proof.
  intros Hn Hx. unfold clamped, StrategyB.evaluate. split; intros Ht.
  - rewrite Ht. reflexivity.
  - rewrite (above_last_not_below_first x t Hx Hn Ht), Ht. reflexivity.
Qed.

Lemma strategyB_linear_clamped (x y : list N) (t : N) :
  length x = 2 -> strictly_increasing x ->
  clamped x y t (StrategyB.linear x y t).
Proof.
  intros Hn Hx. unfold clamped, StrategyB.linear. rewrite Hn. simpl.
  split; intros Ht.
  - rewrite Ht. reflexivity.
  - assert (Hlow : (t <=? get x 0) = false).
    { apply (above_last_not_below_first x t Hx); [lia|]. rewrite Hn. exact Ht. }
    rewrite Hlow, Ht. reflexivity.
Qed.

(** C2.  For both strategies, with at least two samples at strictly
    increasing abscissas, every target at or below [x[0]] is answered
    by [y[0]] itself, and every target at or above [x[n-1]] by
    [y[n-1]] itself: the sample value is returned, not a computed
    one, so nothing can drift.  The statement holds for any number
    model obeying the order laws, binary64 included. *)
Theorem interpolation_clamps_at_boundaries (x y targetX : list N) :
  2 <= length x -> strictly_increasing x ->
  Forall2 (clamped x y) targetX (StrategyA.interpolatePCHIP x y targetX)
  /\ Forall2 (clamped x y) targetX (StrategyB.interpolatePCHIP x y targetX).
Proof.
  intros Hn Hx. split.
  - unfold StrategyA.interpolatePCHIP.
    destruct (Nat.ltb_spec (length x) 2) as [Hlt|_]; [lia|].
    apply Forall2_map_intro. intros t.
    apply strategyA_evaluate_clamped; assumption.
  - unfold StrategyB.interpolatePCHIP.
    destruct (Nat.ltb_spec (length x) 2) as [Hlt|_]; [lia|].
    destruct (Nat.eqb_spec (length x) 2) as [Heq|Hne].
    + apply Forall2_map_intro. intros t.
      apply strategyB_linear_clamped; assumption.
    + apply Forall2_map_intro. intros t.
      apply strategyB_evaluate_clamped; assumption.
Qed.

(** ** Two samples: Strategy B is linear interpolation *)

(** C5, general part.  With exactly two samples [x0 < x1], Strategy B
    answers every target strictly between them with
    [y0 + ((y1 - y0) / (x1 - x0)) * (t - x0)], evaluated with the
    very operations of the number model. *)
Lemma strategyB_two_samples_between (x0 x1 y0 y1 : N) (targetX : list N) :
  Forall2 (fun t r => (x0 <? t) = true -> (t <? x1) = true ->
                      r = y0 + ((y1 - y0) / (x1 - x0)) * (t - x0))
          targetX (StrategyB.interpolatePCHIP [x0; x1] [y0; y1] targetX).
Proof.
  unfold StrategyB.interpolatePCHIP. simpl.
  apply Forall2_map_intro. intros t Hlo Hhi.
  unfold StrategyB.linear, get. simpl.
  rewrite (ltb_not_leb _ _ Hlo), (ltb_not_leb _ _ Hhi). reflexivity.
Qed.

(** ** Interval location *)

(** The interval the scan selects for a target strictly inside the
    sample range: the one whose left end is below the target and
    whose right end is at or above it. *)
Lemma findInterval_spec (x : list N) (t : N) :
  let n := length x in
  let i := findInterval x n t in
  2 <= n -> strictly_increasing x ->
  (get x 0 <? t) = true -> (t <? get x (n - 1)) = true ->
  (i + 1 < n)%nat
  /\ (get x i <? t) = true
  /\ (t <=? get x (i + 1)) = true
  /\ (forall j, (j < i)%nat -> (get x (j + 1) <? t) = true).
Proof.
  intros n i Hn Hx Hlo Hhi.
  destruct (scan_exit x n t n 0) as (Hr & Hpassed & Hstop); [lia | lia |].
  fold (findInterval x n t) in Hr, Hpassed, Hstop. fold i in Hr, Hpassed, Hstop.
  split; [lia|]. split; [|split].
  - destruct i as [|i']; [exact Hlo|].
    replace (S i') with (i' + 1)%nat by lia. apply Hpassed. lia.
  - destruct (decide (i = (n - 2)%nat)) as [Heq|Hne].
    + replace (i + 1)%nat with (n - 1)%nat by lia. apply ltb_leb. exact Hhi.
    + apply leb_total; [| |apply Hstop; lia].
      * apply strictly_increasing_comparable; [exact Hx | exact Hn | unfold n in *; lia].
      * apply ltb_comparable_r with (get x 0). exact Hlo.
  - intros j Hj. apply Hpassed. lia.
Qed.
End Clamping.

(** ** Reading the arrays the loops fill *)

Section Arrays.
Context {N : Type} `{JsNum N}.
Local Open Scope js_scope.

Lemma get_map_seq (f : nat -> N) (k i : nat) :
  (i < k)%nat -> get (map f (seq 0 k)) i = f i.
Proof.
  intros Hi. unfold get.
  rewrite (nth_indep _ undef (f 0%nat)) by (rewrite length_map, length_seq; exact Hi).
  rewrite (map_nth f). rewrite seq_nth by exact Hi. reflexivity.
Qed.

Lemma get_intervals (x : list N) (n i : nat) :
  (i + 1 < n)%nat -> get (intervals x n) i = get x (i + 1) - get x i.
Proof. intros Hi. unfold intervals. rewrite get_map_seq by lia. reflexivity. Qed.

Lemma get_secants (y h : list N) (n i : nat) :
  (i + 1 < n)%nat ->
  get (secants y h n) i
  = if get h i === lit 0 then lit 0 else (get y (i + 1) - get y i) / get h i.
Proof. intros Hi. unfold secants. rewrite get_map_seq by lia. reflexivity. Qed.

Lemma get_insert (l : list N) (i j : nat) (v : N) :
  get (<[i := v]> l) j
  = if decide (i = j /\ (i < length l)%nat) then v else get l j.
Proof.
  unfold get. rewrite !nth_lookup.
  destruct (decide (i = j /\ (i < length l)%nat)) as [[-> Hlt]|Hno].
  - rewrite list_lookup_insert_eq by exact Hlt. reflexivity.
  - destruct (decide (i = j)) as [->|Hne].
    + rewrite list_insert_ge by lia. reflexivity.
    + rewrite list_lookup_insert_ne by exact Hne. reflexivity.
Qed.

(** A loop [for (i = a; i < a + k; i++) m[i] = f(i)]. *)
Lemma get_fill (f : nat -> N) (m0 : list N) (a k j : nat) :
  (a + k <= length m0)%nat ->
  get (foldl (fun m i => <[i := f i]> m) m0 (seq a k)) j
  = if decide (a <= j < a + k)%nat then f j else get m0 j.
Proof.
  intros Hlen. induction k as [|k IH].
  - simpl. destruct (decide _); [lia | reflexivity].
  - rewrite seq_S, foldl_app. simpl. rewrite get_insert.
    assert (Hsame : length (foldl (fun m i => <[i := f i]> m) m0 (seq a k))
                    = length m0).
    { clear. generalize (seq a k). intros l. revert m0.
      induction l as [|i l IHl]; intros m0; simpl; [reflexivity|].
      rewrite IHl. apply length_insert. }
    rewrite Hsame, IH by lia.
    repeat destruct (decide _); try lia; try reflexivity.
    f_equal. lia.
Qed.

(** The tangents of Strategy A, entry by entry. *)
Lemma get_slopes_interior (h delta : list N) (n i : nat) :
  (1 <= i)%nat -> (i + 1 < n)%nat ->
  get (StrategyA.slopes h delta n) i = StrategyA.interiorSlope h delta i.
Proof.
  intros Hlo Hhi. unfold StrategyA.slopes.
  rewrite !get_insert.
  destruct (decide _) as [[Heq _]|_]; [lia|].
  destruct (decide _) as [[Heq _]|_]; [lia|].
  rewrite get_fill by (rewrite length_replicate; lia).
  destruct (decide _); [reflexivity | lia].
Qed.

Lemma get_slopes_first (h delta : list N) (n : nat) :
  (2 <= n)%nat ->
  get (StrategyA.slopes h delta n) 0
  = if isFinite (get delta 0) then get delta 0 else lit 0.
Proof.
  intros Hn. unfold StrategyA.slopes.
  assert (Hlen : forall (f : nat -> N) l (m0 : list N),
             length (foldl (fun m i => <[i := f i]> m) m0 l) = length m0).
  { intros f l. induction l as [|i l IHl]; intros m0; simpl; [reflexivity|].
    rewrite IHl. apply length_insert. }
  rewrite !get_insert.
  destruct (decide _) as [[Heq _]|_]; [lia|].
  destruct (decide _) as [_|Hno]; [reflexivity|].
  exfalso. apply Hno. split; [reflexivity|].
  rewrite Hlen, length_replicate. lia.
Qed.

Lemma get_slopes_last (h delta : list N) (n : nat) :
  (2 <= n)%nat ->
  get (StrategyA.slopes h delta n) (n - 1)
  = if isFinite (get delta (n - 2)) then get delta (n - 2) else lit 0.
Proof.
  intros Hn. unfold StrategyA.slopes.
  assert (Hlen : forall (f : nat -> N) l (m0 : list N),
             length (foldl (fun m i => <[i := f i]> m) m0 l) = length m0).
  { intros f l. induction l as [|i l IHl]; intros m0; simpl; [reflexivity|].
    rewrite IHl. apply length_insert. }
  rewrite get_insert.
  destruct (decide _) as [_|Hno]; [reflexivity|].
  exfalso. apply Hno. split; [reflexivity|].
  rewrite length_insert, Hlen, length_replicate. lia.
Qed.

(** Where the adjacent secants disagree in sign, or one of them is
    zero, the tangent is zero.  (Any number model.) *)
Lemma interiorSlope_forced_zero (h delta : list N) (i : nat) :
  (get delta (i - 1) * get delta i <=? lit 0) = true ->
  StrategyA.interiorSlope h delta i = lit 0.
Proof. intros Hs. unfold StrategyA.interiorSlope. rewrite Hs. reflexivity. Qed.
End Arrays.

(** ** Strategy A in exact arithmetic: no overshoot *)

Section ExactArithmetic.
Local Open Scope Q_scope.

Lemma convex_between (a b s : Q) :
  0 <= s -> s <= 1 -> Qmin a b <= a + (b - a) * s /\ a + (b - a) * s <= Qmax a b.
Proof.
  intros H0 H1. destruct (Qlt_le_dec b a) as [Hba|Hab].
  - rewrite (Q.min_r a b), (Q.max_l a b) by (apply Qlt_le_weak; exact Hba).
    split; nra.
  - rewrite (Q.min_l a b), (Q.max_r a b) by exact Hab.
    split; nra.
Qed.

Lemma hermite_at_one (T yi yi1 h mi mi1 : Q) :
  T == 1 -> hermite T yi yi1 h mi mi1 == yi1.
Proof.
  intros HT. unfold hermite. cbv zeta. rewrite HT.
  change (inject_Z (-2)) with (-2 # 1). ring.
Qed.

Lemma hermite_bounds (T yi yi1 h mi mi1 : Q) :
  0 <= T -> T <= 1 ->
  (mi == 0 \/ h * mi == yi1 - yi) -> (mi1 == 0 \/ h * mi1 == yi1 - yi) ->
  Qmin yi yi1 <= hermite T yi yi1 h mi mi1 /\ hermite T yi yi1 h mi mi1 <= Qmax yi yi1.
Proof.
  intros H0 H1 Hmi Hmi1.
  assert (A : 0 <= T * T) by nra.
  assert (B : 0 <= (1 - T) * (1 - T)) by nra.
  assert (C : 0 <= T * (1 - T)) by nra.
  assert (Hsplit : forall s, 0 <= s -> s <= 1 ->
             hermite T yi yi1 h mi mi1 == yi + (yi1 - yi) * s ->
             Qmin yi yi1 <= hermite T yi yi1 h mi mi1
             /\ hermite T yi yi1 h mi mi1 <= Qmax yi yi1).
  { intros s Hs0 Hs1 E. rewrite E. apply convex_between; assumption. }
  unfold hermite in *. cbv zeta in *. change (inject_Z (-2)) with (-2 # 1) in *.
  destruct Hmi as [Hmi|Hmi], Hmi1 as [Hmi1|Hmi1].
  - apply (Hsplit (3 * (T * T) - 2 * (T * T * T))).
    + assert (0 <= (T * T) * (3 - 2 * T)) by (apply Qmult_le_0_compat; [exact A | lra]). lra.
    + assert (0 <= ((1 - T) * (1 - T)) * (1 + 2 * T)) by (apply Qmult_le_0_compat; [exact B | lra]). lra.
    + rewrite Hmi, Hmi1. ring.
  - apply (Hsplit (2 * (T * T) - T * T * T)).
    + assert (0 <= (T * T) * (2 - T)) by (apply Qmult_le_0_compat; [exact A | lra]). lra.
    + assert (0 <= (1 - T) * (1 + T * (1 - T))) by (apply Qmult_le_0_compat; lra). lra.
    + rewrite Hmi.
      setoid_replace ((T * T * T - T * T) * h * mi1) with ((T * T * T - T * T) * (h * mi1)) using relation Qeq by ring.
      rewrite Hmi1. ring.
  - apply (Hsplit (T + T * T - T * T * T)).
    + assert (0 <= T * (1 + T * (1 - T))) by (apply Qmult_le_0_compat; lra). lra.
    + assert (0 <= ((1 - T) * (1 - T)) * (1 + T)) by (apply Qmult_le_0_compat; [exact B | lra]). lra.
    + rewrite Hmi1.
      setoid_replace ((T * T * T - 2 * (T * T) + T) * h * mi) with ((T * T * T - 2 * (T * T) + T) * (h * mi)) using relation Qeq by ring.
      rewrite Hmi. ring.
  - apply (Hsplit T); [exact H0 | exact H1 |].
    setoid_replace ((T * T * T - 2 * (T * T) + T) * h * mi) with ((T * T * T - 2 * (T * T) + T) * (h * mi)) using relation Qeq by ring.
    setoid_replace ((T * T * T - T * T) * h * mi1) with ((T * T * T - T * T) * (h * mi1)) using relation Qeq by ring.
    rewrite Hmi, Hmi1. ring.
Qed.

Lemma Q_increasing_lt (x : list Q) (i j : nat) :
  strictly_increasing x -> (i < j)%nat -> (j < length x)%nat -> get x i < get x j.
Proof. intros Hx Hij Hj. apply Q_ltb_lt. apply strictly_increasing_lt; assumption. Qed.

Lemma Q_increasing_le (x : list Q) (i j : nat) :
  strictly_increasing x -> (i <= j)%nat -> (j < length x)%nat -> get x i <= get x j.
Proof.
  intros Hx Hij Hj. destruct (decide (i = j)) as [->|Hne]; [apply Qle_refl|].
  apply Qlt_le_weak, Q_increasing_lt; [exact Hx | lia | exact Hj].
Qed.

Lemma Q_interval_positive (x : list Q) (k : nat) :
  strictly_increasing x -> (k + 1 < length x)%nat ->
  0 < get (intervals x (length x)) k.
Proof.
  intros Hx Hk. rewrite get_intervals by exact Hk. simpl.
  assert (get x k < get x (k + 1)) by (apply Q_increasing_lt; [exact Hx | lia | lia]).
  lra.
Qed.

Lemma Q_secant_times_interval (x y : list Q) (k : nat) :
  strictly_increasing x -> (k + 1 < length x)%nat ->
  let h := intervals x (length x) in
  get h k * get (secants y h (length x)) k == get y (k + 1) - get y k.
Proof.
  intros Hx Hk h. pose proof (Q_interval_positive x k Hx Hk) as Hpos. fold h in Hpos.
  rewrite get_secants by exact Hk.
  destruct (get h k === lit 0)%js eqn:E.
  - apply Q_eqb_eq in E. change (get h k == 0) in E. lra.
  - simpl. field. lra.
Qed.

Lemma strategyA_evaluate_bounds (x y : list Q) (i : nat) (t : Q) :
  let n := length x in
  let h := intervals x n in
  let delta := secants y h n in
  let m := StrategyA.slopes h delta n in
  (2 <= n)%nat -> strictly_increasing x -> (i + 1 < n)%nat ->
  ((1 <= i)%nat -> sign_change x y i) ->
  ((i + 2 < n)%nat -> sign_change x y (i + 1)) ->
  get x i <= t -> t <= get x (i + 1) ->
  Qmin (get y i) (get y (i + 1)) <= StrategyA.evaluate x y h m n t
  /\ StrategyA.evaluate x y h m n t <= Qmax (get y i) (get y (i + 1)).
Proof.
  intros n h delta m Hn Hx Hi Hleft Hright Hlo Hhi.
  unfold StrategyA.evaluate.
  destruct (t <=? get x 0)%js eqn:E0.
  { apply Q_leb_le in E0.
    assert (i = 0)%nat as ->.
    { destruct i as [|i']; [reflexivity|]. exfalso.
      assert (get x 0 < get x (S i')) by (apply Q_increasing_lt; [exact Hx | lia | unfold n in *; lia]).
      lra. }
    split; [apply Q.le_min_l | apply Q.le_max_l]. }
  apply Q_leb_gt in E0.
  destruct (get x (n - 1) <=? t)%js eqn:E1.
  { apply Q_leb_le in E1.
    assert (i + 1 = n - 1)%nat as Heq.
    { destruct (decide (i + 1 = n - 1)%nat) as [e|ne]; [exact e|]. exfalso.
      assert (get x (i + 1) < get x (n - 1)) by (apply Q_increasing_lt; [exact Hx | lia | unfold n in *; lia]).
      lra. }
    rewrite <- Heq.
    split; [apply Q.le_min_r | apply Q.le_max_r]. }
  apply Q_leb_gt in E1.
  destruct (findInterval_spec x t Hn Hx) as (Hk & Hklo & Hkhi & _);
    [apply Q_ltb_lt; exact E0 | apply Q_ltb_lt; exact E1 |].
  fold n in Hk, Hklo, Hkhi.
  set (k := findInterval x n t) in *.
  apply Q_ltb_lt in Hklo. apply Q_leb_le in Hkhi.
  pose proof (Q_interval_positive x k Hx Hk) as Hpos. fold n h in Hpos.
  destruct (get h k === lit 0)%js eqn:Ez.
  { apply Q_eqb_eq in Ez. change (get h k == 0) in Ez. lra. }
  change (isFinite ?r) with true. cbv iota.
  change (Qmin (get y i) (get y (i + 1))
          <= hermite ((t - get x k) / get h k) (get y k) (get y (k + 1))
                     (get h k) (get m k) (get m (k + 1))
          <= Qmax (get y i) (get y (i + 1))).
  assert (Hh : get h k = get x (k + 1) - get x k)
    by (unfold h; rewrite get_intervals by exact Hk; reflexivity).
  assert (HT0 : 0 <= (t - get x k) / get h k).
  { apply Qle_shift_div_l; [exact Hpos | lra]. }
  assert (HT1 : (t - get x k) / get h k <= 1).
  { apply Qle_shift_div_r; [exact Hpos | rewrite Hh; lra]. }
  destruct (lt_eq_lt_dec k i) as [[Hlt|Heq]|Hgt].
  - (* the target is the sample [x[i]], reached from the interval on its left *)
    assert (Hki : (k + 1 = i)%nat).
    { destruct (decide (k + 1 = i)%nat) as [e|ne]; [exact e|]. exfalso.
      assert (get x (k + 1) < get x i)
        by (apply Q_increasing_lt; [exact Hx | lia | unfold n in *; lia]).
      lra. }
    assert (Ht : t == get x (k + 1)).
    { apply Qle_antisym; [exact Hkhi | rewrite Hki; exact Hlo]. }
    rewrite hermite_at_one.
    + rewrite Hki. split; [apply Q.le_min_l | apply Q.le_max_l].
    + rewrite Hh, Ht. field. rewrite <- Hh. lra.
  - subst i. apply hermite_bounds; [exact HT0 | exact HT1 | |].
    + destruct (decide (k = 0)%nat) as [Hz|Hnz].
      * right. clearbody k. subst k. unfold m.
        rewrite get_slopes_first by exact Hn.
        change (isFinite ?r) with true. cbv iota.
        apply Q_secant_times_interval; [exact Hx | exact Hk].
      * left. unfold m. rewrite get_slopes_interior by lia.
        rewrite interiorSlope_forced_zero; [reflexivity|].
        apply Hleft. lia.
    + destruct (decide (k + 2 < n)%nat) as [Hin|Hout].
      * left. unfold m. rewrite get_slopes_interior by lia.
        rewrite interiorSlope_forced_zero; [reflexivity|].
        apply Hright. exact Hin.
      * right. unfold m. replace (k + 1)%nat with (n - 1)%nat by lia.
        rewrite get_slopes_last by exact Hn.
        change (isFinite ?r) with true. cbv iota.
        replace (n - 2)%nat with k by lia. replace (n - 1)%nat with (k + 1)%nat by lia.
        apply Q_secant_times_interval; [exact Hx | exact Hk].
  - exfalso.
    assert (get x (i + 1) <= get x k)
      by (apply Q_increasing_le; [exact Hx | lia | unfold n in *; lia]).
    lra.
Qed.
End ExactArithmetic.

Ltac increasing_by_cases :=
  let i := fresh "i" in
  let Hi := fresh "Hi" in
  intros i Hi; simpl in Hi;
  do 6 (try (destruct i as [|i]; [vm_compute; reflexivity|]));
  lia.

Lemma zigzag_x_increasing : strictly_increasing zigzag_x.
Proof. increasing_by_cases. Qed.

Lemma zigzag_xQ_increasing : strictly_increasing zigzag_xQ.
Proof. increasing_by_cases. Qed.

Lemma three_x_increasing : strictly_increasing three_x.
Proof. increasing_by_cases. Qed.

Lemma Forall2_singleton_inv {A B} (P : A -> B -> Prop) (a : A) (l : list B) :
  Forall2 P [a] l -> exists b, l = [b] /\ P a b.
Proof.
  intros HF. inversion HF as [|? b ? l' HP HF']; subst.
  inversion HF'; subst. exists b. split; [reflexivity | exact HP].
Qed.

(** ** The claims about the interpolation engine *)

Lemma interpolation_clamps_at_boundaries_witness :
  Forall2 (clamped three_x three_y) [-1; 0; 2; 9]%float
          (StrategyA.interpolatePCHIP three_x three_y [-1; 0; 2; 9]%float)
  /\ Forall2 (clamped three_x three_y) [-1; 0; 2; 9]%float
             (StrategyB.interpolatePCHIP three_x three_y [-1; 0; 2; 9]%float).
Proof.
  apply interpolation_clamps_at_boundaries.
  - simpl. lia.
  - exact three_x_increasing.
Defined.

(** C3, as stated, fails on binary64: on zig-zag data, where both
    tangents of the interval [[x[1], x[2]]] are forced to zero, the
    target [near_one] is answered by a value below
    [min(y[1], y[2]) = 2.5].  There [t = 5 * 2^-30]; the weight [h00]
    rounds to [1 - 2^-53], [h00 * y[1]] rounds to [2.5 - 2^-51], and
    adding [h01 * y[2]], about [1.95e-16] and less than half a unit in
    the last place, rounds back to [2.5 - 2^-51]: the result is
    [2.4999999999999996], which the code returns as it is. *)
Lemma strategyA_overshoot_binary64 :
  strictly_increasing zigzag_x
  /\ sign_change zigzag_x zigzag_y 1 /\ sign_change zigzag_x zigzag_y 2
  /\ (get zigzag_x 1 <=? near_one)%js = true
  /\ (near_one <=? get zigzag_x 2)%js = true
  /\ StrategyA.interpolatePCHIP zigzag_x zigzag_y [near_one]
     = [0x1.3ffffffffffffp+1%float]
  /\ (0x1.3ffffffffffffp+1 <? get zigzag_y 1)%float = true
  /\ (0x1.3ffffffffffffp+1 <? get zigzag_y 2)%float = true.
Proof.
  split; [exact zigzag_x_increasing|].
  repeat split; vm_compute; reflexivity.
Qed.

(** C3, amended.  In exact (rational) arithmetic, for strictly
    increasing [x] with at least three samples and a target in
    [[x[i], x[i+1]]]: if at each end of the interval that is an
    interior sample the adjacent secants disagree in sign or are zero
    (so the tangent there is zero; an end that is the first or the
    last sample keeps its one-sided tangent), the value returned by
    Strategy A lies within [[min(y[i], y[i+1]), max(y[i], y[i+1])]]. *)
Theorem strategyA_no_overshoot_exact (x y targetX : list Q) (i : nat) :
  (3 <= length x)%nat -> strictly_increasing x -> (i + 1 < length x)%nat ->
  ((1 <= i)%nat -> sign_change x y i) ->
  ((i + 2 < length x)%nat -> sign_change x y (i + 1)) ->
  Forall2 (fun t r =>
             (get x i <= t)%Q -> (t <= get x (i + 1))%Q ->
             (Qmin (get y i) (get y (i + 1)) <= r)%Q
             /\ (r <= Qmax (get y i) (get y (i + 1)))%Q)
          targetX (StrategyA.interpolatePCHIP x y targetX).
Proof.
  intros Hn Hx Hi Hleft Hright. unfold StrategyA.interpolatePCHIP.
  destruct (Nat.ltb_spec (length x) 2) as [Hlt|_]; [lia|].
  apply Forall2_map_intro. intros t Hlo Hhi.
  apply strategyA_evaluate_bounds; try assumption. lia.
Qed.

Lemma strategyA_no_overshoot_exact_witness :
  exists r : Q,
    StrategyA.interpolatePCHIP zigzag_xQ zigzag_yQ [3 # 2]%Q = [r]
    /\ (Qmin (5 # 2) 3 <= r)%Q /\ (r <= Qmax (5 # 2) 3)%Q.
Proof.
  destruct (Forall2_singleton_inv _ _ _
              (strategyA_no_overshoot_exact zigzag_xQ zigzag_yQ [3 # 2]%Q 1
                 ltac:(simpl; lia) zigzag_xQ_increasing ltac:(simpl; lia)
                 (fun _ => eq_refl) (fun _ => eq_refl)))
    as (r & Hr & Hbounds).
  exists r. split; [exact Hr|].
  apply Hbounds; vm_compute; discriminate.
Defined.

(** C5.  With exactly two samples Strategy B returns, for every target
    strictly between them, [y0 + ((y1 - y0) / (x1 - x0)) * (t - x0)]
    computed with the operations of the number model, in any model
    obeying the order laws; on binary64, the samples [(0, 0)],
    [(10, 100)] and the target [5] give exactly [50]. *)
Theorem strategyB_two_samples_linear :
  (forall (N : Type) (num : JsNum N) (ord : JsNumOrder N)
          (x0 x1 y0 y1 : N) (targetX : list N),
      Forall2 (fun t r => (x0 <? t)%js = true -> (t <? x1)%js = true ->
                          r = (y0 + ((y1 - y0) / (x1 - x0)) * (t - x0))%js)
              targetX (StrategyB.interpolatePCHIP [x0; x1] [y0; y1] targetX))
  /\ StrategyB.interpolatePCHIP [0; 10]%float [0; 100]%float [5]%float = [50]%float.
Proof.
  split.
  - intros N num ord x0 x1 y0 y1 targetX. apply strategyB_two_samples_between.
  - vm_compute. reflexivity.
Qed.

Lemma strategyB_two_samples_linear_witness :
  exists r : float,
    StrategyB.interpolatePCHIP [1; 3]%float [2; 8]%float [2.5]%float = [r]
    /\ r = (2 + ((8 - 2) / (3 - 1)) * (2.5 - 1))%float.
Proof.
  destruct (Forall2_singleton_inv _ _ _
              (proj1 strategyB_two_samples_linear float _ _
                     1 3 2 8 [2.5])%float) as (r & Hr & Hlin).
  exists r. split; [exact Hr|].
  apply Hlin; vm_compute; reflexivity.
Defined.

(** C6, as stated, fails for a target equal to an interior sample: for
    [x = [0, 1, 2]] and the target [1] the scan (shared by the two
    strategies) stops at interval [0], while the interval with
    [x[i] <= 1 < x[i+1]] is interval [1]. *)
Lemma findInterval_at_interior_sample :
  strictly_increasing three_x
  /\ (get three_x 0 <? 1)%float = true /\ (1 <? get three_x 2)%float = true
  /\ findInterval three_x 3 1%float = 0%nat
  /\ ~ claimed_interval three_x 1%float 0
  /\ claimed_interval three_x 1%float 1.
Proof.
  split; [exact three_x_increasing|].
  repeat split; try (vm_compute; reflexivity).
  intros [_ Hlt]. vm_compute in Hlt. discriminate.
Qed.

(** C6, amended.  For both strategies (they share the scan), for
    strictly increasing [x] with [n >= 3] and a target [t] with
    [x[0] < t < x[n-1]], the selected index [i] is the only one with
    [x[i] < t <= x[i+1]]; when moreover [t < x[i+1]] (the target is not
    the right end of its interval), [i] is the largest index with
    [x[i] <= t < x[i+1]]. *)
Theorem findInterval_selects_left_open_interval
    {N : Type} `{JsNumOrder N} (x : list N) (t : N) :
  let n := length x in
  let i := findInterval x n t in
  (3 <= n)%nat -> strictly_increasing x ->
  (get x 0 <? t)%js = true -> (t <? get x (n - 1))%js = true ->
  (i + 1 < n)%nat
  /\ (get x i <? t)%js = true /\ (t <=? get x (i + 1))%js = true
  /\ (forall j, (j + 1 < n)%nat ->
                (get x j <? t)%js = true -> (t <=? get x (j + 1))%js = true -> j = i)
  /\ ((t <? get x (i + 1))%js = true ->
      claimed_interval x t i
      /\ forall j, (j + 1 < n)%nat -> claimed_interval x t j -> (j <= i)%nat).
Proof.
  intros n i Hn Hx Hlo Hhi.
  destruct (findInterval_spec x t) as (Hi & Hilo & Hihi & Hpassed);
    [fold n; lia | exact Hx | exact Hlo | exact Hhi |].
  fold n in Hi, Hilo, Hihi, Hpassed. fold i in Hi, Hilo, Hihi, Hpassed.
  split; [exact Hi|]. split; [exact Hilo|]. split; [exact Hihi|]. split.
  - intros j Hj Hjlo Hjhi.
    destruct (lt_eq_lt_dec j i) as [[Hlt|Heq]|Hgt]; [|exact Heq|].
    + pose proof (ltb_not_leb _ _ (Hpassed j Hlt)) as Hno. congruence.
    + exfalso.
      assert (Hbelow : (get x (i + 1) <? t)%js = true).
      { destruct (decide (j = (i + 1)%nat)) as [->|Hne]; [exact Hjlo|].
        apply ltb_trans with (get x j); [|exact Hjlo].
        apply strictly_increasing_lt; [exact Hx | lia | unfold n in *; lia]. }
      pose proof (ltb_not_leb _ _ Hbelow) as Hno. congruence.
  - intros Hstrict. split.
    + split; [apply ltb_leb; exact Hilo | exact Hstrict].
    + intros j Hj [Hjlo Hjhi].
      destruct (le_lt_dec j i) as [Hle|Hgt]; [exact Hle|]. exfalso.
      destruct (decide (j = (i + 1)%nat)) as [->|Hne].
      * pose proof (ltb_not_leb _ _ Hstrict) as Hno. congruence.
      * assert (Hbelow : (get x (i + 1) <? t)%js = true).
        { apply ltb_leb_trans with (get x j); [|exact Hjlo].
          apply strictly_increasing_lt; [exact Hx | lia | unfold n in *; lia]. }
        pose proof (ltb_not_leb _ _ Hbelow) as Hno. congruence.
Qed.

Lemma findInterval_selects_left_open_interval_witness :
  findInterval three_x 3 1.5%float = 1%nat
  /\ (get three_x 1 <? 1.5)%float = true
  /\ (1.5 <=? get three_x 2)%float = true
  /\ claimed_interval three_x 1.5%float 1.
Proof.
  destruct (findInterval_selects_left_open_interval three_x 1.5%float
              ltac:(simpl; lia) three_x_increasing eq_refl eq_refl)
    as (_ & Hlo & Hhi & _ & Hclaimed).
  split; [vm_compute; reflexivity|].
  split; [exact Hlo|]. split; [exact Hhi|].
  apply Hclaimed. vm_compute. reflexivity.
Defined.

(* ================================================================= *)
(** * 9. Properties of the date normaliser *)
(* ================================================================= *)

Section DateNormaliser.
Import DataManager.

Lemma split_not_nil (sep : ascii) (s : string) : split sep s <> [].
Proof.
  destruct s as [|c s]; simpl; [discriminate|].
  destruct (Ascii.eqb c sep); [discriminate|].
  destruct (split sep s); discriminate.
Qed.

Lemma split_three_nonempty (sep : ascii) (s p0 p1 p2 : string) :
  split sep s = [p0; p1; p2] -> String.eqb s "" = false.
Proof. destruct s; [discriminate | reflexivity]. Qed.

(** What [padStart(2, '0')] does, by the length of its argument. *)
Lemma padStart_two (p : string) :
  (String.length p = 0 -> padStart 2 "0" p = "00")
  /\ (String.length p = 1 -> padStart 2 "0" p = "0" +:+ p)
  /\ (2 <= String.length p -> padStart 2 "0" p = p).
Proof.
  unfold padStart. repeat split; intros Hlen.
  - destruct p; [reflexivity | discriminate].
  - rewrite Hlen. reflexivity.
  - replace (2 - String.length p) with 0 by lia. reflexivity.
Qed.

(** C4.  The Date Normalizer ([parseDate]):
    - for an input that splits on ['/'] into exactly three parts,
      the formats [us] and [us-short] return [year-month-day]
      reading the parts as month/day/year, and [eu], [eu-short]
      reading them as day/month/year; month and day are left-padded
      with ['0'] to two characters and a two-character year gets the
      prefix [20];
    - the format [iso] returns its input unchanged (so in particular
      every three-part hyphen-separated input);
    - an input that does not split on ['/'] into exactly three parts
      is returned unchanged, whatever the format;
    - [parseDate("1/5/09", 'us-short') = "2009-01-05"] and
      [parseDate("15/1/09", 'eu-short') = "2009-01-15"]. *)
Theorem parseDate_normalises :
  (forall s p0 p1 p2 format,
      split "/" s = [p0; p1; p2] -> format = "us" \/ format = "us-short" ->
      parseDate s format
      = (if (String.length p2 =? 2)%nat then "20" +:+ p2 else p2)
        +:+ "-" +:+ padStart 2 "0" p0 +:+ "-" +:+ padStart 2 "0" p1)
  /\ (forall s p0 p1 p2 format,
         split "/" s = [p0; p1; p2] -> format = "eu" \/ format = "eu-short" ->
         parseDate s format
         = (if (String.length p2 =? 2)%nat then "20" +:+ p2 else p2)
           +:+ "-" +:+ padStart 2 "0" p1 +:+ "-" +:+ padStart 2 "0" p0)
  /\ (forall p, (String.length p = 1 -> padStart 2 "0" p = "0" +:+ p)
                /\ (2 <= String.length p -> padStart 2 "0" p = p))
  /\ (forall s, parseDate s "iso" = s)
  /\ (forall s format, length (split "/" s) <> 3 -> parseDate s format = s)
  /\ parseDate "1/5/09" "us-short" = "2009-01-05"
  /\ parseDate "15/1/09" "eu-short" = "2009-01-15".
Proof.
  split; [|split; [|split; [|split; [|split; [|split]]]]].
  - intros s p0 p1 p2 format Hs Hf. unfold parseDate.
    rewrite (split_three_nonempty _ _ _ _ _ Hs), Hs.
    destruct Hf as [-> | ->]; reflexivity.
  - intros s p0 p1 p2 format Hs Hf. unfold parseDate.
    rewrite (split_three_nonempty _ _ _ _ _ Hs), Hs.
    destruct Hf as [-> | ->]; reflexivity.
  - intros p. pose proof (padStart_two p) as (_ & H1 & H2). split; assumption.
  - intros s. unfold parseDate.
    destruct (String.eqb_spec s "") as [->|_]; [reflexivity|]. simpl.
    destruct (length (split "-" s) =? 3)%nat; reflexivity.
  - intros s format Hlen. unfold parseDate.
    destruct (String.eqb_spec s "") as [->|_]; [reflexivity|].
    destruct (String.eqb format "iso").
    { destruct (length (split "-" s) =? 3)%nat; reflexivity. }
    destruct (split "/" s) as [|a [|b [|c [|d l]]]]; simpl in Hlen;
      try lia;
      destruct (String.eqb format "us" || String.eqb format "us-short");
      destruct (String.eqb format "eu" || String.eqb format "eu-short");
      reflexivity.
  - vm_compute. reflexivity.
  - vm_compute. reflexivity.
Qed.

Lemma parseDate_normalises_witness :
  parseDate "12/25/2023" "us" = "2023-12-25"
  /\ parseDate "3/4/21" "eu" = "2021-04-03"
  /\ parseDate "2024/01" "us" = "2024/01".
Proof.
  destruct parseDate_normalises as (Hus & Heu & _ & _ & Hother & _).
  split; [|split].
  - apply (Hus "12/25/2023" "12" "25" "2023" "us"); [reflexivity | left; reflexivity].
  - apply (Heu "3/4/21" "3" "4" "21" "eu"); [reflexivity | left; reflexivity].
  - apply Hother. simpl. lia.
Defined.
End DateNormaliser.

(* ================================================================= *)
(** * 10. Properties of the dataset loader *)
(* ================================================================= *)

Section Loader.
Import DataLoader.

Lemma in_loadWells (response : option string) (region : string) (w : Well) :
  In w (loadWells response region) ->
  exists text row, response = Some text /\ In row (parseCSV text)
                   /\ wellOfRow region row = [w].
Proof.
  destruct response as [text|]; simpl; [|tauto].
  intros Hin. apply in_flat_map in Hin as (row & Hrow & Hw).
  exists text, row. split; [reflexivity|]. split; [exact Hrow|].
  unfold wellOfRow in *.
  destruct (_ && _); simpl in Hw; [|tauto].
  destruct Hw as [<-|[]]. reflexivity.
Qed.

(** C9, as stated, fails: the loader accepts a well whose latitude is
    infinite ([isNaN(Infinity)] is false and [Infinity !== 0]). *)
Lemma loadWells_accepts_infinite_latitude :
  exists w, In w (loadWells (Some wells_csv) "utah")
            /\ id w = "W2" /\ lat w = PrimFloat.infinity
            /\ PrimFloat.is_finite (lat w) = false.
Proof.
  eexists. split; [vm_compute; right; left; reflexivity|].
  vm_compute. repeat split; reflexivity.
Qed.

(** C9, amended.  Every well returned by [loadWells] has a non-empty
    identifier and a latitude and a longitude that are numbers (not
    NaN) different from zero; they may be infinite. *)
Theorem loadWells_coordinates_nonzero_numbers
    (response : option string) (region : string) (w : Well) :
  In w (loadWells response region) ->
  id w <> ""
  /\ isNaN (lat w) = false /\ isNaN (lng w) = false
  /\ PrimFloat.eqb (lat w) 0 = false /\ PrimFloat.eqb (lng w) 0 = false.
Proof.
  intros Hin. apply in_loadWells in Hin as (text & row & _ & _ & Hw).
  unfold wellOfRow in Hw.
  destruct (String.eqb_spec (field row "well_id" "") "") as [|Hid];
    simpl in Hw; [discriminate|].
  destruct (isNaN (parseFloat (field row "lat" "0"))) eqn:Hlat;
    simpl in Hw; [discriminate|].
  destruct (isNaN (parseFloat (field row "long" "0"))) eqn:Hlng;
    simpl in Hw; [discriminate|].
  destruct (PrimFloat.eqb (parseFloat (field row "lat" "0")) 0) eqn:Hlat0;
    simpl in Hw; [discriminate|].
  destruct (PrimFloat.eqb (parseFloat (field row "long" "0")) 0) eqn:Hlng0;
    simpl in Hw; [discriminate|].
  injection Hw as <-. simpl. repeat split; assumption.
Qed.

Lemma loadWells_coordinates_nonzero_numbers_witness :
  exists w, In w (loadWells (Some wells_csv) "utah")
            /\ id w = "W1"
            /\ isNaN (lat w) = false /\ PrimFloat.eqb (lat w) 0 = false.
Proof.
  assert (Hin : In {| id := "W1"; name := "W1"; lat := 37.5; lng := -113.25;
                      gse := 0; aquiferId := ""; aquiferName := "";
                      regionId := "utah" |}
                   (loadWells (Some wells_csv) "utah")).
  { vm_compute. left. reflexivity. }
  eexists. split; [exact Hin|]. split; [reflexivity|].
  destruct (loadWells_coordinates_nonzero_numbers _ _ _ Hin)
    as (_ & Hlat & _ & Hlat0 & _).
  split; assumption.
Defined.

(** C10.  In [loadMeasurements], for every row of the parsed file:
    - if its [wte] cell is absent or empty while its well identifier
      and date are not, the row is stored, with [wte = 0];
    - the row is excluded exactly when its well identifier is empty,
      its date is empty, or its [wte] text parses to NaN. *)
Theorem loadMeasurements_keeps_rows_without_wte (text : string) (row : Row) :
  In row (parseCSV text) ->
  (truthy (row !! "well_id") = true -> truthy (row !! "date") = true ->
   truthy (row !! "wte") = false ->
   In {| wellId := field row "well_id" "";
         wellName := field row "well_name" "";
         date := field row "date" "";
         wte := 0;
         measurementAquiferId := field row "aquifer_id" "" |}
      (loadMeasurements (Some text)))
  /\ (measurementOfRow row = []
      <-> truthy (row !! "well_id") = false
          \/ truthy (row !! "date") = false
          \/ isNaN (parseFloat (field row "wte" "0")) = true).
Proof.
  intros Hrow.
  assert (Hfield : forall k, String.eqb (field row k "") "" = negb (truthy (row !! k))).
  { intros k. unfold field. destruct (truthy (row !! k)) eqn:E; [|reflexivity].
    unfold truthy in E. destruct (row !! k) as [v|]; [|discriminate]. simpl.
    destruct (String.eqb v ""); [discriminate | reflexivity]. }
  split.
  - intros Hid Hdate Hwte. simpl. apply in_flat_map. exists row.
    split; [exact Hrow|]. unfold measurementOfRow.
    assert (Hzero : field row "wte" "0" = "0")
      by (unfold field; rewrite Hwte; reflexivity).
    rewrite !Hfield, Hid, Hdate, Hzero.
    left. reflexivity.
  - unfold measurementOfRow. rewrite !Hfield.
    destruct (truthy (row !! "well_id")), (truthy (row !! "date")),
      (isNaN (parseFloat (field row "wte" "0"))); simpl;
      split; intros Hx; try discriminate; try reflexivity;
      try (destruct Hx as [Hx|[Hx|Hx]]; discriminate); auto.
Qed.

Lemma loadMeasurements_keeps_rows_without_wte_witness :
  In {| wellId := "W1"; wellName := ""; date := "2020-01-01"; wte := 0;
        measurementAquiferId := "" |}
     (loadMeasurements (Some water_levels_csv))
  /\ length (loadMeasurements (Some water_levels_csv)) = 3.
Proof.
  split; [|vm_compute; reflexivity].
  pose (row := ({[ "well_id" := "W1"; "date" := "2020-01-01"; "wte" := "" ]} : Row)).
  assert (Hrow : In row (parseCSV water_levels_csv)).
  { vm_compute. left. reflexivity. }
  exact (proj1 (loadMeasurements_keeps_rows_without_wte water_levels_csv row Hrow)
               eq_refl eq_refl eq_refl).
Defined.
End Loader.

(* ================================================================= *)
(** * 11. Properties of the cross-reference validator and the exporter *)
(* ================================================================= *)

Section Validator.
Import DataManager.

(** ** The loops of the validator *)

Lemma checkMapping_errors (af wf mf : UploadedFile) :
  checkMapping af "aquifer" ++ checkMapping wf "wells" ++ checkMapping mf "waterLevels"
  = missingMappingErrors af wf mf.
Proof.
  unfold checkMapping, missingMappingErrors, requiredMappings. simpl.
  destruct (truthy (mapping af !! "aquifer_id")),
    (truthy (mapping af !! "aquifer_name")),
    (truthy (mapping wf !! "well_id")), (truthy (mapping wf !! "lat")),
    (truthy (mapping wf !! "long")),
    (truthy (mapping mf !! "well_id")), (truthy (mapping mf !! "date")),
    (truthy (mapping mf !! "wte")); reflexivity.
Qed.

Lemma nonempty_length {A} (l : list A) : l <> [] -> (0 <? length l)%nat = true.
Proof. destruct l; [congruence | reflexivity]. Qed.

Lemma checkWells_ids_from (wells : list Row) (c1 c2 : option string)
    (aquiferIds ids0 : gset string) (errs0 : list string) (id : string) :
  id ∈ (foldl (fun '(wellIds, errs) (well : Row) =>
                 let wellId := prop well c1 in
                 let wellIds := if truthy wellId then wellIds ∪ {[ default "" wellId ]}
                                else wellIds in
                 if truthy c2 && truthy (prop well c2) then
                   let aqId := prop well c2 in
                   if has aquiferIds aqId then (wellIds, errs)
                   else (wellIds,
                         errs ++ ["Well " +:+ show wellId
                                  +:+ " references non-existent aquifer " +:+ show aqId])
                 else (wellIds, errs))
              (ids0, errs0) wells).1
  <-> id ∈ ids0 \/ (id <> "" /\ exists w, In w wells /\ prop w c1 = Some id).
Proof.
  revert ids0 errs0. induction wells as [|w wells IH]; intros ids0 errs0; simpl.
  - split; [auto | intros [Hin | (_ & w & [] & _)]; exact Hin].
  - match goal with
    | |- context [foldl ?f ?acc wells] =>
        assert (Hacc : exists errs1, acc = ((if truthy (prop w c1)
                                             then ids0 ∪ {[ default "" (prop w c1) ]}
                                             else ids0), errs1))
    end.
    { destruct (truthy c2 && truthy (prop w c2)); [|eexists; reflexivity].
      destruct (has aquiferIds (prop w c2)); eexists; reflexivity. }
    destruct Hacc as (errs1 & ->). rewrite IH. clear IH.
    unfold truthy at 1. destruct (prop w c1) as [v|] eqn:Hv; simpl.
    + destruct (String.eqb_spec v "") as [->|Hne]; simpl.
      * split.
        -- intros [Hin | (Hid & w' & Hw' & Hp)]; [left; exact Hin|].
           right. split; [exact Hid|]. exists w'. split; [right; exact Hw' | exact Hp].
        -- intros [Hin | (Hid & w' & [<- | Hw'] & Hp)]; [left; exact Hin | |].
           ++ congruence.
           ++ right. split; [exact Hid|]. exists w'. split; assumption.
      * rewrite elem_of_union, elem_of_singleton. split.
        -- intros [[Hin | ->] | (Hid & w' & Hw' & Hp)].
           ++ left; exact Hin.
           ++ right. split; [exact Hne|]. exists w. split; [left; reflexivity | exact Hv].
           ++ right. split; [exact Hid|]. exists w'. split; [right; exact Hw' | exact Hp].
        -- intros [Hin | (Hid & w' & [<- | Hw'] & Hp)].
           ++ left; left; exact Hin.
           ++ left; right. congruence.
           ++ right. split; [exact Hid|]. exists w'. split; assumption.
    + split.
      * intros [Hin | (Hid & w' & Hw' & Hp)]; [left; exact Hin|].
        right. split; [exact Hid|]. exists w'. split; [right; exact Hw' | exact Hp].
      * intros [Hin | (Hid & w' & [<- | Hw'] & Hp)]; [left; exact Hin | |].
        -- congruence.
        -- right. split; [exact Hid|]. exists w'. split; assumption.
Qed.

(** The set [wellIds] the validator collects: the non-empty
    identifiers found in the wells table. *)
Lemma checkWells_ids (wells : list Row) (c1 c2 : option string)
    (aquiferIds : gset string) (id : string) :
  id ∈ (checkWells wells c1 c2 aquiferIds).1
  <-> id <> "" /\ exists w, In w wells /\ prop w c1 = Some id.
Proof.
  unfold checkWells. rewrite checkWells_ids_from. split; [|auto].
  intros [Hin|H]; [|exact H]. exfalso. set_solver.
Qed.

Lemma has_referencesWell (wells : list Row) (c : option string)
    (ids : gset string) (v : option string) :
  (forall id, id ∈ ids <-> id <> "" /\ exists w, In w wells /\ prop w c = Some id) ->
  has ids v = referencesWell wells c v.
Proof.
  intros Hids. destruct v as [id|]; [|reflexivity]. simpl.
  apply eq_true_iff_eq. rewrite bool_decide_eq_true, andb_true_iff, negb_true_iff, Hids.
  rewrite existsb_exists.
  split.
  - intros (Hne & w & Hw & Hp). split.
    + destruct (String.eqb_spec id ""); congruence.
    + exists w. split; [exact Hw|]. apply bool_decide_eq_true. exact Hp.
  - intros (Hne & w & Hw & Hp). split.
    + destruct (String.eqb_spec id ""); congruence.
    + exists w. split; [exact Hw|]. apply bool_decide_eq_true in Hp. exact Hp.
Qed.

Lemma checkMeasurements_count_from (rows valid0 : list Row) (c : option string)
    (ids : gset string) (d0 : nat) :
  (foldl (fun '(valid, dropped) (measurement : Row) =>
            let wellId := prop measurement c in
            if has ids wellId
            then (valid ++ [measurement], dropped)
            else (valid, S dropped))
         (valid0, d0) rows).2
  = d0 + length (List.filter (fun m => negb (has ids (prop m c))) rows).
Proof.
  revert valid0 d0. induction rows as [|m rows IH]; intros valid0 d0; simpl; [lia|].
  destruct (has ids (prop m c)); simpl; rewrite IH; lia.
Qed.

(** The count the validator returns: the rows its loop did not keep. *)
Lemma checkMeasurements_count (rows : list Row) (c : option string) (ids : gset string) :
  (checkMeasurements rows c ids).2
  = length (List.filter (fun m => negb (has ids (prop m c))) rows).
Proof. unfold checkMeasurements. rewrite checkMeasurements_count_from. lia. Qed.
End Validator.

Section ValidatorClaims.
Import DataManager.

(** ** Stage order of the validator *)

(** C7.  [validateData] stops at the first stage that reports an
    error and reports every error of that stage:
    - when an input is absent, the result is invalid, its errors are
      the errors of all the missing inputs, one each, in order, and
      nothing else was checked (no warning, no dropped measurement);
    - when the four inputs are present and some required mapping is
      missing or empty, the result is invalid, its errors are those
      of all the missing required mappings of the three mapped files,
      one each, and no referential check was made. *)
Theorem validateData_short_circuits :
  (forall rf af wf mf : option UploadedFile,
      rf = None \/ af = None \/ wf = None \/ mf = None ->
      validateData rf af wf mf
      = Returns {| isValid := false;
                   errors := missingInputErrors rf af wf mf;
                   warnings := [];
                   droppedMeasurements := 0 |}
      /\ missingInputErrors rf af wf mf <> [])
  /\ (forall rf af wf mf : UploadedFile,
         missingMappingErrors af wf mf <> [] ->
         validateData (Some rf) (Some af) (Some wf) (Some mf)
         = Returns {| isValid := false;
                      errors := missingMappingErrors af wf mf;
                      warnings := [];
                      droppedMeasurements := 0 |}).
Proof.
  split.
  - intros rf af wf mf Hmissing.
    destruct rf, af, wf, mf; simpl;
      try (split; [reflexivity | discriminate]).
    destruct Hmissing as [H|[H|[H|H]]]; discriminate.
  - intros rf af wf mf Hmissing. unfold validateData. simpl.
    rewrite checkMapping_errors, (nonempty_length _ Hmissing). reflexivity.
Qed.

Lemma validateData_short_circuits_witness :
  validateData None (Some aquifer_file) None (Some levels_file)
  = Returns {| isValid := false;
               errors := ["Region file is required"; "Wells file is required"];
               warnings := [];
               droppedMeasurements := 0 |}
  /\ validateData (Some region_file) (Some aquifer_file)
                  (Some wells_file_unmapped) (Some levels_file)
     = Returns {| isValid := false;
                  errors := ["wells: Missing mapping for Latitude"];
                  warnings := [];
                  droppedMeasurements := 0 |}.
Proof.
  split.
  - exact (proj1 (proj1 validateData_short_circuits
                        None (Some aquifer_file) None (Some levels_file)
                        (or_introl eq_refl))).
  - apply (proj2 validateData_short_circuits
                 region_file aquifer_file wells_file_unmapped levels_file).
    vm_compute. discriminate.
Defined.

(** ** The dropped-measurement count *)

(** C1: the validator announces fewer dropped measurements than
    the exporter drops.  Well [B] has an empty latitude, so the
    measurements of [B] and of the unknown well [C] both reference no
    accepted well (an identifier with its required fields), and
    [processData], which keeps a well only when its identifier,
    latitude and longitude are all present, exports one measurement of
    the three; [validateData], which collects a well on its identifier
    alone, returns [droppedMeasurements = 1] and warns that one
    measurement will be dropped. *)
Lemma validateData_counts_wells_without_coordinates :
  (exists res,
      validateData (Some region_file) (Some aquifer_file)
                   (Some wells_file) (Some levels_file) = Returns res
      /\ droppedMeasurements res = 1
      /\ warnings res = [droppedWarning 1])
  /\ length (List.filter
               (fun m => negb (referencesAcceptedWell wells_file wells_rows
                                 (prop m (mapping levels_file !! "well_id"))))
               levels_rows) = 2
  /\ (exists ws ms,
         processData (Some region_file) (Some aquifer_file)
                     (Some wells_file) (Some levels_file) "us-short"
         = Returns (Some (ws, ms))
         /\ length ms = 1).
Proof.
  split; [|split].
  - eexists. split; [vm_compute; reflexivity | split; reflexivity].
  - vm_compute. reflexivity.
  - eexists. eexists. split; [vm_compute; reflexivity | reflexivity].
Qed.

(** What the validator counts instead.  With the four inputs present,
    every required mapping non-empty, and the wells and water-level
    uploads tabular: [droppedMeasurements] is the number of
    measurement rows whose well reference is not a non-empty
    identifier of some row of the wells table, whatever the other
    fields of that row hold; the warnings end with one summary warning
    carrying that count when it is positive and contain none when it
    is zero; and the result is invalid if and only if an error was
    accumulated. *)
Theorem validateData_counts_dropped_measurements
    (rf af wf mf : UploadedFile) (wells rows : list Row) :
  data wf = CsvRows wells -> data mf = CsvRows rows ->
  missingMappingErrors af wf mf = [] ->
  exists res,
    validateData (Some rf) (Some af) (Some wf) (Some mf) = Returns res
    /\ droppedMeasurements res
       = length (List.filter
                   (fun m => negb (referencesWell wells (mapping wf !! "well_id")
                                     (prop m (mapping mf !! "well_id"))))
                   rows)
    /\ warnings res
       = (if truthy (mapping wf !! "aquifer_id") then [] else [noAquiferColumnWarning])
         ++ (if (0 <? droppedMeasurements res)%nat
             then [droppedWarning (droppedMeasurements res)] else [])
    /\ (isValid res = false <-> errors res <> []).
Proof.
  intros Hwells Hrows Hmapped. unfold validateData. simpl.
  rewrite checkMapping_errors, Hmapped, Hwells, Hrows. simpl.
  destruct (checkWells wells (mapping wf !! "well_id") (mapping wf !! "aquifer_id")
              (collectAquiferIds (featuresOf (data af)) (mapping af !! "aquifer_id")))
    as [wellIds errs] eqn:Ewells.
  pose proof (checkMeasurements_count rows (mapping mf !! "well_id") wellIds) as Hcount.
  destruct (checkMeasurements rows (mapping mf !! "well_id") wellIds)
    as [valid dropped] eqn:Emeas.
  simpl in Hcount.
  eexists. split; [reflexivity|]. simpl. split; [|split].
  - rewrite Hcount. f_equal. apply filter_ext. intros m. f_equal.
    apply has_referencesWell. intros id.
    rewrite <- (checkWells_ids wells (mapping wf !! "well_id")
                  (mapping wf !! "aquifer_id")
                  (collectAquiferIds (featuresOf (data af)) (mapping af !! "aquifer_id"))).
    rewrite Ewells. reflexivity.
  - unfold noAquiferColumnWarning, droppedWarning.
    destruct (0 <? dropped)%nat; [reflexivity|]. rewrite app_nil_r. reflexivity.
  - destruct errs; simpl; split; congruence.
Qed.

Lemma validateData_counts_dropped_measurements_witness :
  exists res,
    validateData (Some region_file) (Some aquifer_file)
                 (Some wells_file) (Some levels_file) = Returns res
    /\ droppedMeasurements res = 1
    /\ warnings res = [droppedWarning 1]
    /\ isValid res = true.
Proof.
  destruct (validateData_counts_dropped_measurements
              region_file aquifer_file wells_file levels_file
              wells_rows levels_rows eq_refl eq_refl eq_refl)
    as (res & Hres & Hdropped & Hwarnings & Hvalid).
  exists res. split; [exact Hres|].
  assert (Hone : droppedMeasurements res = 1).
  { rewrite Hdropped. vm_compute. reflexivity. }
  split; [exact Hone|]. split.
  - rewrite Hwarnings, Hone. reflexivity.
  - clear - Hres. vm_compute in Hres. injection Hres as <-. reflexivity.
Defined.
End ValidatorClaims.

(** ** The canonical tables of the exporter *)

Section Exporter.
Import DataManager.

Lemma orEmpty_truthy (v : option string) (s : string) :
  v = Some s -> s <> "" -> orEmpty v = s.
Proof.
  intros -> Hne. unfold orEmpty, truthy.
  destruct (String.eqb_spec s ""); [congruence | reflexivity].
Qed.

(** The wells table keeps only the rows with an identifier, a
    latitude and a longitude. *)
Lemma processWells_complete (wellsData : list Row)
    (wellIdCol latCol longCol wellAqIdCol : option string) (w : CanonicalWell) :
  In w (processWells wellsData wellIdCol latCol longCol wellAqIdCol) ->
  well_id w <> "" /\ lat w <> "" /\ long w <> "".
Proof.
  unfold processWells. intros Hin. apply filter_In in Hin as [_ Hkeep].
  apply andb_true_iff in Hkeep as [Hkeep Hlong].
  apply andb_true_iff in Hkeep as [Hid Hlat].
  repeat split; intros Heq; rewrite Heq in *; discriminate.
Qed.

(** C8.  Whenever [processData] produces the canonical tables:
    every well of the wells table has a non-empty identifier,
    latitude and longitude, and every row of the measurements table
    comes from a row [m] of the water-levels upload, carries the well
    identifier of [m], which is the identifier of a well of the
    produced wells table, and as its date the Date Normalizer's
    output on the date value of [m]. *)
Theorem processData_measurements_reference_accepted_wells
    (rf af wf mf : option UploadedFile) (dateFormat : string)
    (ws : list CanonicalWell) (ms : list CanonicalMeasurement) :
  processData rf af wf mf dateFormat = Returns (Some (ws, ms)) ->
  (forall w, In w ws -> well_id w <> "" /\ lat w <> "" /\ long w <> "")
  /\ (forall r, In r ms ->
        In (m_well_id r) (map well_id ws)
        /\ exists levels rows m,
             mf = Some levels /\ data levels = CsvRows rows /\ In m rows
             /\ prop m (mapping levels !! "well_id") = Some (m_well_id r)
             /\ m_date r
                = parseDate (orEmpty (prop m (mapping levels !! "date"))) dateFormat).
Proof.
  unfold processData.
  destruct (validateData rf af wf mf) as [result|]; [|discriminate].
  destruct (isValid result); simpl; [|discriminate].
  destruct wf as [wellsFile|]; [|discriminate].
  destruct mf as [levels|]; [|discriminate].
  destruct (data wellsFile) as [| |wellsData] eqn:Hwells; try discriminate.
  destruct (data levels) as [| |rows] eqn:Hrows; try discriminate.
  intros Hout. injection Hout as <- <-.
  split; [intros w; apply processWells_complete|].
  intros r Hr. unfold processWaterLevels in Hr.
  apply in_map_iff in Hr as (m & <- & Hm).
  apply filter_In in Hm as [Hm Hhas]. simpl.
  unfold has in Hhas.
  destruct (prop m (mapping levels !! "well_id")) as [wid|] eqn:Hwid; [|discriminate].
  apply bool_decide_eq_true in Hhas.
  apply elem_of_list_to_set, list_elem_of_In in Hhas.
  assert (Hne : wid <> "").
  { apply in_map_iff in Hhas as (w & <- & Hw).
    apply processWells_complete in Hw. tauto. }
  rewrite (orEmpty_truthy _ wid eq_refl Hne).
  split; [exact Hhas|].
  exists levels, rows, m. repeat split; auto.
Qed.

Lemma processData_measurements_reference_accepted_wells_witness :
  exists ws ms,
    processData (Some region_file) (Some aquifer_file)
                (Some wells_file) (Some levels_file) "us-short"
    = Returns (Some (ws, ms))
    /\ map well_id ws = ["A"]
    /\ map m_well_id ms = ["A"] /\ map m_date ms = ["2009-01-05"]
    /\ (forall r, In r ms -> In (m_well_id r) (map well_id ws)).
Proof.
  eexists. eexists. split; [vm_compute; reflexivity|].
  split; [reflexivity|]. split; [reflexivity|]. split; [reflexivity|].
  intros r Hr.
  exact (proj1 (proj2 (processData_measurements_reference_accepted_wells
                         (Some region_file) (Some aquifer_file)
                         (Some wells_file) (Some levels_file) "us-short" _ _
                         ltac:(vm_compute; reflexivity)) r Hr)).
Defined.
End Exporter.

(* ================================================================= *)
(** * 12. Further properties of the interpolation engine *)
(* ================================================================= *)

Section Scan.
Context {N : Type} `{JsNum N}.
Local Open Scope js_scope.

(** Once the loop has left, more fuel changes nothing. *)
Lemma scan_enough_fuel (x : list N) (n : nat) (tx : N) (fuel extra i : nat) :
  (n - 2 - i <= fuel)%nat ->
  scan x n tx (fuel + extra) i = scan x n tx fuel i.
Proof.
  revert i. induction fuel as [|fuel IH]; intros i Hfuel.
  - simpl. destruct extra as [|extra]; [reflexivity|]. simpl.
    destruct (Nat.ltb_spec i (n - 2)) as [Hlt|_]; [lia | reflexivity].
  - simpl. destruct ((i <? n - 2)%nat && (get x (i + 1) <? tx)) eqn:E; [|reflexivity].
    apply IH. lia.
Qed.

(** X1.  For any array, any length [n] and any target (sorted or
    not, NaN included), in any number model: the index the scan
    returns is at most [n - 2]; every interval it passed has its right
    end below the target; if it stopped before the last interval, the
    right end of the selected interval is not below the target; and
    the loop has really left, for more iterations change nothing. *)
Theorem findInterval_stays_in_range (x : list N) (n : nat) (tx : N) :
  let i := findInterval x n tx in
  (i <= n - 2)%nat
  /\ (forall j, (j < i)%nat -> (get x (j + 1) <? tx) = true)
  /\ ((i < n - 2)%nat -> (get x (i + 1) <? tx) = false)
  /\ (forall extra, scan x n tx (n + extra) 0 = i).
Proof.
  intros i.
  destruct (scan_exit x n tx n 0) as (Hr & Hpassed & Hstop); [lia | lia |].
  fold (findInterval x n tx) in Hr, Hpassed, Hstop. fold i in Hr, Hpassed, Hstop.
  split; [lia|]. split; [intros j Hj; apply Hpassed; lia|].
  split; [exact Hstop|].
  intros extra. unfold i, findInterval. apply scan_enough_fuel. lia.
Qed.
End Scan.

Section Finite.
Context {N : Type} `{JsNum N}.
Local Open Scope js_scope.

Lemma get_finite (y : list N) (i : nat) :
  allFinite y -> (i < length y)%nat -> isFinite (get y i) = true.
Proof.
  intros Hy Hi. unfold get.
  destruct (nth_lookup_or_length y i undef) as [E|E]; [|lia].
  rewrite nth_lookup. destruct (y !! i) as [v|] eqn:Ev.
  - simpl. exact (proj1 (Forall_lookup _ _) Hy i v Ev).
  - apply lookup_ge_None in Ev. lia.
Qed.

Lemma findInterval_in_range (x : list N) (n : nat) (tx : N) :
  (2 <= n)%nat -> (findInterval x n tx + 1 < n)%nat.
Proof.
  intros Hn. destruct (scan_exit x n tx n 0) as (Hr & _); [lia | lia |].
  unfold findInterval. lia.
Qed.

Lemma strategyA_evaluate_finite (x y h m : list N) (n : nat) (tx : N) :
  (2 <= n)%nat -> (n <= length y)%nat -> allFinite y ->
  isFinite (StrategyA.evaluate x y h m n tx) = true.
Proof.
  intros Hn Hlen Hy. unfold StrategyA.evaluate.
  pose proof (findInterval_in_range x n tx Hn) as Hi.
  destruct (tx <=? get x 0); [apply get_finite; [exact Hy | lia]|].
  destruct (tx >=? get x (n - 1)); [apply get_finite; [exact Hy | lia]|].
  destruct (get h (findInterval x n tx) === lit 0); [apply get_finite; [exact Hy | lia]|].
  cbv zeta.
  match goal with |- isFinite (if isFinite ?r then _ else _) = true =>
    destruct (isFinite r) eqn:E; [exact E | apply get_finite; [exact Hy | lia]]
  end.
Qed.

Lemma strategyB_evaluate_finite (x y h delta m : list N) (n : nat) (tx : N) :
  (2 <= n)%nat -> (n <= length y)%nat -> allFinite y ->
  isFinite (StrategyB.evaluate x y h delta m n tx) = true.
Proof.
  intros Hn Hlen Hy. unfold StrategyB.evaluate.
  pose proof (findInterval_in_range x n tx Hn) as Hi.
  destruct (tx <=? get x 0); [apply get_finite; [exact Hy | lia]|].
  destruct (tx >=? get x (n - 1)); [apply get_finite; [exact Hy | lia]|].
  destruct (get h (findInterval x n tx) === lit 0); [apply get_finite; [exact Hy | lia]|].
  cbv zeta.
  match goal with |- isFinite (if isFinite ?r then _ else _) = true =>
    destruct (isFinite r) eqn:E; [exact E | apply get_finite; [exact Hy | lia]]
  end.
Qed.

Lemma degenerate_finite (y targetX : list N) (n : nat) :
  isFinite (lit 0) = true -> (n <= length y)%nat -> allFinite y ->
  allFinite (degenerate y targetX n).
Proof.
  intros Hzero Hlen Hy. unfold degenerate. apply Forall_map, Forall_forall. intros t _.
  destruct (Nat.eqb_spec n 1) as [->|_]; [apply get_finite; [exact Hy | lia] | exact Hzero].
Qed.

(** X22.  Neither NaN nor an infinity is ever returned for finite
    sample values: in any number model whose zero is finite (binary64
    is one), when [y] has at least as many entries as [x] and all of
    them finite, every value Strategy A returns is finite, whatever
    [x] and the targets hold (unsorted, repeated, NaN); and so is
    every value Strategy B returns unless there are exactly two
    samples, where the linear branch has no such guard. *)
Theorem interpolation_results_are_finite (x y targetX : list N) :
  isFinite (lit 0) = true -> (length x <= length y)%nat -> allFinite y ->
  allFinite (StrategyA.interpolatePCHIP x y targetX)
  /\ (length x <> 2%nat -> allFinite (StrategyB.interpolatePCHIP x y targetX)).
Proof.
  intros Hzero Hlen Hy. split.
  - unfold StrategyA.interpolatePCHIP.
    destruct (Nat.ltb_spec (length x) 2) as [Hlt|Hge].
    + apply degenerate_finite; assumption.
    + apply Forall_map, Forall_forall. intros t _.
      apply strategyA_evaluate_finite; assumption.
  - intros Hne. unfold StrategyB.interpolatePCHIP.
    destruct (Nat.ltb_spec (length x) 2) as [Hlt|Hge].
    + apply degenerate_finite; assumption.
    + destruct (Nat.eqb_spec (length x) 2) as [Heq|_]; [lia|].
      apply Forall_map, Forall_forall. intros t _.
      apply strategyB_evaluate_finite; assumption.
Qed.
End Finite.

(** With exactly two samples Strategy B has no such guard. *)
Example strategyB_two_samples_not_a_number :
  StrategyB.interpolatePCHIP [0; 1]%float [0; 1]%float [PrimFloat.nan]
  = [PrimFloat.nan].
Proof. vm_compute. reflexivity. Qed.

Lemma interpolation_results_are_finite_witness :
  allFinite (StrategyA.interpolatePCHIP zigzag_x zigzag_y [near_one; PrimFloat.nan])
  /\ (length zigzag_x <> 2%nat ->
      allFinite (StrategyB.interpolatePCHIP zigzag_x zigzag_y [near_one; PrimFloat.nan])).
Proof.
  apply (interpolation_results_are_finite zigzag_x zigzag_y [near_one; PrimFloat.nan]);
    [reflexivity | simpl; lia | repeat constructor].
Defined.

Section SamplesExact.
Local Open Scope Q_scope.

Lemma splineCubic_at_right_end (t hi yi yi1 delta mi mi1 : Q) :
  ~ hi == 0 -> t == hi -> hi * delta == yi1 - yi ->
  splineCubic t hi yi delta mi mi1 == yi1.
Proof.
  intros Hh Ht Hd. unfold splineCubic. cbv zeta. rewrite Ht.
  setoid_replace yi1 with (hi * delta + yi) using relation Qeq by (rewrite Hd; ring).
  field. exact Hh.
Qed.

(** The interval the scan selects for a target equal to an interior
    sample [x[k]]: the one on its left. *)
Lemma findInterval_at_sample (x : list Q) (k : nat) (t : Q) :
  strictly_increasing x -> (1 <= k)%nat -> (k + 1 < length x)%nat ->
  t == get x k ->
  (findInterval x (length x) t + 1)%nat = k.
Proof.
  intros Hx Hk1 Hk2 Ht.
  destruct (findInterval_spec x t) as (Hi & Hlo & Hhi & _).
  - lia.
  - exact Hx.
  - apply Q_ltb_lt. rewrite Ht. apply Q_increasing_lt; [exact Hx | lia | lia].
  - apply Q_ltb_lt. rewrite Ht. apply Q_increasing_lt; [exact Hx | lia | lia].
  - set (i := findInterval x (length x) t) in *.
    apply Q_ltb_lt in Hlo. apply Q_leb_le in Hhi.
    destruct (lt_eq_lt_dec (i + 1) k) as [[Hlt|Heq]|Hgt]; [|exact Heq|].
    + exfalso.
      assert (get x (i + 1) < get x k) by (apply Q_increasing_lt; [exact Hx | lia | lia]).
      lra.
    + exfalso.
      assert (get x k <= get x i) by (apply Q_increasing_le; [exact Hx | lia | lia]).
      lra.
Qed.

Lemma strategyA_evaluate_at_sample (x y : list Q) (k : nat) (t : Q) :
  let n := length x in
  let h := intervals x n in
  let m := StrategyA.slopes h (secants y h n) n in
  (2 <= n)%nat -> strictly_increasing x -> (k < n)%nat -> t == get x k ->
  StrategyA.evaluate x y h m n t == get y k.
Proof.
  intros n h m Hn Hx Hk Ht. unfold StrategyA.evaluate.
  destruct (t <=? get x 0)%js eqn:E0.
  { apply Q_leb_le in E0.
    assert (k = 0)%nat as ->; [|reflexivity].
    destruct k as [|k']; [reflexivity|]. exfalso.
    assert (get x 0 < get x (S k')) by (apply Q_increasing_lt; [exact Hx | lia | exact Hk]).
    lra. }
  apply Q_leb_gt in E0.
  destruct (get x (n - 1) <=? t)%js eqn:E1.
  { apply Q_leb_le in E1.
    assert (k = n - 1)%nat as ->; [|reflexivity].
    destruct (decide (k = n - 1)%nat) as [e|ne]; [exact e|]. exfalso.
    assert (get x k < get x (n - 1)) by (apply Q_increasing_lt; [exact Hx | lia | unfold n; lia]).
    lra. }
  apply Q_leb_gt in E1.
  assert (Hk1 : (1 <= k)%nat).
  { destruct k; [exfalso; lra | lia]. }
  assert (Hk2 : (k + 1 < n)%nat).
  { destruct (decide (k = n - 1)%nat) as [e|ne]; [exfalso; rewrite e in Ht; lra | lia]. }
  pose proof (findInterval_at_sample x k t Hx Hk1 Hk2 Ht) as Hi. fold n in Hi.
  set (i := findInterval x n t) in *.
  assert (Hpos : 0 < get h i) by (apply Q_interval_positive; [exact Hx | fold n; lia]).
  destruct (get h i === lit 0)%js eqn:Ez.
  { apply Q_eqb_eq in Ez. change (get h i == 0) in Ez. lra. }
  change (isFinite ?r) with true. cbv iota.
  change (hermite ((t - get x i) / get h i) (get y i) (get y (i + 1))
                  (get h i) (get m i) (get m (i + 1)) == get y k).
  rewrite hermite_at_one; [rewrite Hi; reflexivity|].
  unfold h. rewrite get_intervals by (fold n; lia). simpl. rewrite Hi, Ht.
  field.
  assert (get x i < get x k) by (apply Q_increasing_lt; [exact Hx | lia | exact Hk]).
  lra.
Qed.

Lemma strategyB_evaluate_at_sample (x y m : list Q) (k : nat) (t : Q) :
  let n := length x in
  let h := intervals x n in
  let delta := secants y h n in
  (2 <= n)%nat -> strictly_increasing x -> (k < n)%nat -> t == get x k ->
  StrategyB.evaluate x y h delta m n t == get y k.
Proof.
  intros n h delta Hn Hx Hk Ht. unfold StrategyB.evaluate.
  destruct (t <=? get x 0)%js eqn:E0.
  { apply Q_leb_le in E0.
    assert (k = 0)%nat as ->; [|reflexivity].
    destruct k as [|k']; [reflexivity|]. exfalso.
    assert (get x 0 < get x (S k')) by (apply Q_increasing_lt; [exact Hx | lia | exact Hk]).
    lra. }
  apply Q_leb_gt in E0.
  destruct (get x (n - 1) <=? t)%js eqn:E1.
  { apply Q_leb_le in E1.
    assert (k = n - 1)%nat as ->; [|reflexivity].
    destruct (decide (k = n - 1)%nat) as [e|ne]; [exact e|]. exfalso.
    assert (get x k < get x (n - 1)) by (apply Q_increasing_lt; [exact Hx | lia | unfold n; lia]).
    lra. }
  apply Q_leb_gt in E1.
  assert (Hk1 : (1 <= k)%nat).
  { destruct k; [exfalso; lra | lia]. }
  assert (Hk2 : (k + 1 < n)%nat).
  { destruct (decide (k = n - 1)%nat) as [e|ne]; [exfalso; rewrite e in Ht; lra | lia]. }
  pose proof (findInterval_at_sample x k t Hx Hk1 Hk2 Ht) as Hi. fold n in Hi.
  set (i := findInterval x n t) in *.
  assert (Hpos : 0 < get h i) by (apply Q_interval_positive; [exact Hx | fold n; lia]).
  destruct (get h i === lit 0)%js eqn:Ez.
  { apply Q_eqb_eq in Ez. change (get h i == 0) in Ez. lra. }
  change (isFinite ?r) with true. cbv iota.
  change (splineCubic (t - get x i) (get h i) (get y i) (get delta i)
                      (get m i) (get m (i + 1)) == get y k).
  rewrite <- Hi.
  apply splineCubic_at_right_end.
  - lra.
  - unfold h. rewrite get_intervals by (fold n; lia). simpl. rewrite Ht, Hi. reflexivity.
  - apply Q_secant_times_interval; [exact Hx | fold n; lia].
Qed.

Lemma strategyB_linear_at_sample (x y : list Q) (k : nat) (t : Q) :
  length x = 2%nat -> strictly_increasing x -> (k < 2)%nat -> t == get x k ->
  StrategyB.linear x y t == get y k.
Proof.
  intros Hn Hx Hk Ht. unfold StrategyB.linear.
  assert (H01 : get x 0 < get x 1) by (apply Q_increasing_lt; [exact Hx | lia | lia]).
  destruct k as [|[|k]]; [| |lia].
  - assert (E : (t <=? get x 0)%js = true) by (apply Q_leb_le; lra).
    rewrite E. reflexivity.
  - assert (E0 : (t <=? get x 0)%js = false) by (apply Q_leb_gt; lra).
    assert (E1 : (get x 1 <=? t)%js = true) by (apply Q_leb_le; lra).
    rewrite E0, E1. reflexivity.
Qed.

(** X2.  In exact arithmetic, for strictly increasing [x] with at
    least two samples, both strategies pass through the samples: a
    target equal to [x[k]] is answered with [y[k]]. *)
Theorem interpolation_reproduces_samples (x y targetX : list Q) (k : nat) :
  (2 <= length x)%nat -> strictly_increasing x -> (k < length x)%nat ->
  Forall2 (fun t r => t == get x k -> r == get y k)
          targetX (StrategyA.interpolatePCHIP x y targetX)
  /\ Forall2 (fun t r => t == get x k -> r == get y k)
             targetX (StrategyB.interpolatePCHIP x y targetX).
Proof.
  intros Hn Hx Hk. split.
  - unfold StrategyA.interpolatePCHIP.
    destruct (Nat.ltb_spec (length x) 2) as [Hlt|_]; [lia|].
    apply Forall2_map_intro. intros t Ht.
    apply strategyA_evaluate_at_sample; assumption.
  - unfold StrategyB.interpolatePCHIP.
    destruct (Nat.ltb_spec (length x) 2) as [Hlt|_]; [lia|].
    destruct (Nat.eqb_spec (length x) 2) as [Heq|Hne].
    + apply Forall2_map_intro. intros t Ht.
      apply strategyB_linear_at_sample; [exact Heq | exact Hx | lia | exact Ht].
    + apply Forall2_map_intro. intros t Ht.
      apply strategyB_evaluate_at_sample; assumption.
Qed.

Lemma interpolation_reproduces_samples_witness :
  Forall2 (fun t r => (t == get zigzag_xQ 2 -> r == get zigzag_yQ 2)%Q)
          [2%Q] (StrategyA.interpolatePCHIP zigzag_xQ zigzag_yQ [2%Q])
  /\ Forall2 (fun t r => (t == get zigzag_xQ 2 -> r == get zigzag_yQ 2)%Q)
             [2%Q] (StrategyB.interpolatePCHIP zigzag_xQ zigzag_yQ [2%Q]).
Proof.
  apply (interpolation_reproduces_samples zigzag_xQ zigzag_yQ [2%Q] 2);
    [simpl; lia | exact zigzag_xQ_increasing | simpl; lia].
Defined.

End SamplesExact.

Section Monotone.
Local Open Scope Q_scope.

Lemma hermite_limited_bounds (T yi yi1 h mi mi1 : Q) :
  0 <= T -> T <= 1 ->
  limited (yi1 - yi) (h * mi) -> limited (yi1 - yi) (h * mi1) ->
  Qmin yi yi1 <= hermite T yi yi1 h mi mi1 /\ hermite T yi yi1 h mi mi1 <= Qmax yi yi1.
Proof.
  intros H0 H1 Ha Hb.
  set (D := yi1 - yi) in *. set (a := h * mi) in *. set (b := h * mi1) in *.
  set (U := T * T * (1 - T)). set (V := T * ((1 - T) * (1 - T))).
  set (T3 := T * T * T). set (S3 := (1 - T) * ((1 - T) * (1 - T))).
  assert (HU : 0 <= U) by (unfold U; apply Qmult_le_0_compat; [nra | lra]).
  assert (HV : 0 <= V) by (unfold V; apply Qmult_le_0_compat; [lra | nra]).
  assert (HT3 : 0 <= T3) by (unfold T3; apply Qmult_le_0_compat; [nra | lra]).
  assert (HS3 : 0 <= S3) by (unfold S3; apply Qmult_le_0_compat; [lra | nra]).
  assert (Elow : hermite T yi yi1 h mi mi1 == yi + (D * T3 + (3 * D - b) * U + a * V)).
  { unfold hermite, D, a, b, U, V, T3. cbv zeta.
    change (inject_Z (-2)) with (-2 # 1). ring. }
  assert (Ehigh : hermite T yi yi1 h mi mi1
                  == yi1 - (D * S3 + (3 * D - a) * V + b * U)).
  { unfold hermite, D, a, b, U, V, S3. cbv zeta.
    change (inject_Z (-2)) with (-2 # 1). ring. }
  assert (Hcase : (0 <= D /\ 0 <= a /\ a <= 3 * D /\ 0 <= b /\ b <= 3 * D)
                  \/ (D <= 0 /\ 3 * D <= a /\ a <= 0 /\ 3 * D <= b /\ b <= 0)).
  { destruct Ha as [[A1 A2]|[A1 A2]], Hb as [[B1 B2]|[B1 B2]].
    - left. repeat split; try assumption. lra.
    - assert (D == 0) by lra. left. repeat split; lra.
    - assert (D == 0) by lra. left. repeat split; lra.
    - right. repeat split; try assumption. lra. }
  destruct Hcase as [(HD & A1 & A2 & B1 & B2)|(HD & A1 & A2 & B1 & B2)].
  - rewrite (Q.min_l yi yi1), (Q.max_r yi yi1) by (unfold D in HD; lra).
    assert (0 <= D * T3) by (apply Qmult_le_0_compat; assumption).
    assert (0 <= (3 * D - b) * U) by (apply Qmult_le_0_compat; [lra | assumption]).
    assert (0 <= a * V) by (apply Qmult_le_0_compat; assumption).
    assert (0 <= D * S3) by (apply Qmult_le_0_compat; assumption).
    assert (0 <= (3 * D - a) * V) by (apply Qmult_le_0_compat; [lra | assumption]).
    assert (0 <= b * U) by (apply Qmult_le_0_compat; assumption).
    split; [rewrite Elow | rewrite Ehigh]; lra.
  - rewrite (Q.min_r yi yi1), (Q.max_l yi yi1) by (unfold D in HD; lra).
    assert (0 <= (- D) * T3) by (apply Qmult_le_0_compat; [lra | assumption]).
    assert (0 <= (b - 3 * D) * U) by (apply Qmult_le_0_compat; [lra | assumption]).
    assert (0 <= (- a) * V) by (apply Qmult_le_0_compat; [lra | assumption]).
    assert (0 <= (- D) * S3) by (apply Qmult_le_0_compat; [lra | assumption]).
    assert (0 <= (a - 3 * D) * V) by (apply Qmult_le_0_compat; [lra | assumption]).
    assert (0 <= (- b) * U) by (apply Qmult_le_0_compat; [lra | assumption]).
    split; [rewrite Ehigh | rewrite Elow]; lra.
Qed.

Lemma limited_scale (h d m : Q) : 0 < h -> limited d m -> limited (h * d) (h * m).
Proof.
  intros Hh [[A B]|[A B]]; [left | right]; split; nra.
Qed.

Lemma limited_self (d : Q) : limited d d.
Proof. destruct (Qlt_le_dec d 0); [right | left]; split; lra. Qed.

Lemma limited_zero (d : Q) : limited d 0.
Proof. destruct (Qlt_le_dec d 0); [right | left]; split; lra. Qed.

Lemma Qmult_pos_cancel (a p : Q) : 0 < p -> 0 <= a * p -> 0 <= a.
Proof. intros Hp Hap. destruct (Qlt_le_dec a 0) as [Hneg|]; [nra | assumption]. Qed.

(** The weighted harmonic mean of two secants of one sign stays
    within three times either of them. *)
Lemma harmonic_limited (w1 w2 d1 d2 m : Q) :
  0 < w1 -> 0 < w2 -> w1 <= 2 * w2 -> w2 <= 2 * w1 ->
  0 < d1 * d2 ->
  m * (w1 * d2 + w2 * d1) == (w1 + w2) * (d1 * d2) ->
  limited d1 m /\ limited d2 m.
Proof.
  intros Hw1 Hw2 H12 H21 Hd Em.
  destruct (Qlt_le_dec 0 d1) as [Hp1|Hn1].
  - assert (Hp2 : 0 < d2) by nra.
    set (P := w1 * d2 + w2 * d1) in *.
    assert (HP : 0 < P) by (unfold P; nra).
    assert (Hm : 0 <= m).
    { apply (Qmult_pos_cancel m P HP). rewrite Em. nra. }
    assert (H1 : 0 <= 3 * d1 - m).
    { apply (Qmult_pos_cancel _ P HP).
      setoid_replace ((3 * d1 - m) * P) with (3 * d1 * P - m * P) using relation Qeq by ring.
      rewrite Em. unfold P.
      setoid_replace (3 * d1 * (w1 * d2 + w2 * d1) - (w1 + w2) * (d1 * d2))
        with (d1 * d2 * (2 * w1 - w2) + 3 * (w2 * (d1 * d1)))
        using relation Qeq by ring.
      assert (0 <= d1 * d2 * (2 * w1 - w2)) by (apply Qmult_le_0_compat; lra).
      assert (0 <= w2 * (d1 * d1)) by (apply Qmult_le_0_compat; nra).
      lra. }
    assert (H2 : 0 <= 3 * d2 - m).
    { apply (Qmult_pos_cancel _ P HP).
      setoid_replace ((3 * d2 - m) * P) with (3 * d2 * P - m * P) using relation Qeq by ring.
      rewrite Em. unfold P.
      setoid_replace (3 * d2 * (w1 * d2 + w2 * d1) - (w1 + w2) * (d1 * d2))
        with (d1 * d2 * (2 * w2 - w1) + 3 * (w1 * (d2 * d2)))
        using relation Qeq by ring.
      assert (0 <= d1 * d2 * (2 * w2 - w1)) by (apply Qmult_le_0_compat; lra).
      assert (0 <= w1 * (d2 * d2)) by (apply Qmult_le_0_compat; nra).
      lra. }
    split; left; split; lra.
  - assert (Hn1' : d1 < 0).
    { apply Qle_lt_or_eq in Hn1 as [Hlt|Heq]; [exact Hlt|].
      rewrite Heq in Hd. lra. }
    assert (Hn2 : d2 < 0) by nra.
    set (P := w1 * d2 + w2 * d1) in *.
    assert (HP : 0 < - P) by (unfold P; nra).
    assert (Hm : 0 <= - m).
    { apply (Qmult_pos_cancel _ (- P) HP).
      setoid_replace (- m * - P) with (m * P) using relation Qeq by ring.
      rewrite Em. nra. }
    assert (H1 : 0 <= m - 3 * d1).
    { apply (Qmult_pos_cancel _ (- P) HP).
      setoid_replace ((m - 3 * d1) * - P) with (3 * d1 * P - m * P) using relation Qeq by ring.
      rewrite Em. unfold P.
      setoid_replace (3 * d1 * (w1 * d2 + w2 * d1) - (w1 + w2) * (d1 * d2))
        with (d1 * d2 * (2 * w1 - w2) + 3 * (w2 * (d1 * d1)))
        using relation Qeq by ring.
      assert (0 <= d1 * d2 * (2 * w1 - w2)) by (apply Qmult_le_0_compat; lra).
      assert (0 <= w2 * (d1 * d1)) by (apply Qmult_le_0_compat; nra).
      lra. }
    assert (H2 : 0 <= m - 3 * d2).
    { apply (Qmult_pos_cancel _ (- P) HP).
      setoid_replace ((m - 3 * d2) * - P) with (3 * d2 * P - m * P) using relation Qeq by ring.
      rewrite Em. unfold P.
      setoid_replace (3 * d2 * (w1 * d2 + w2 * d1) - (w1 + w2) * (d1 * d2))
        with (d1 * d2 * (2 * w2 - w1) + 3 * (w1 * (d2 * d2)))
        using relation Qeq by ring.
      assert (0 <= d1 * d2 * (2 * w2 - w1)) by (apply Qmult_le_0_compat; lra).
      assert (0 <= w1 * (d2 * d2)) by (apply Qmult_le_0_compat; nra).
      lra. }
    split; right; split; lra.
Qed.

(** The tangent Strategy A stores at an interior sample is limited by
    the secants on both sides. *)
Lemma interiorSlope_limited (h delta : list Q) (i : nat) :
  0 < get h (i - 1) -> 0 < get h i ->
  limited (get delta (i - 1)) (StrategyA.interiorSlope h delta i)
  /\ limited (get delta i) (StrategyA.interiorSlope h delta i).
Proof.
  intros Hh1 Hh2. unfold StrategyA.interiorSlope.
  set (d1 := get delta (i - 1)). set (d2 := get delta i).
  set (h1 := get h (i - 1)) in *. set (h2 := get h i) in *.
  destruct (d1 * d2 <=? lit 0)%js eqn:Es.
  { split; apply limited_zero. }
  apply Q_leb_gt in Es. change (0 < d1 * d2) in Es.
  cbv zeta. change (isFinite ?r) with true. cbn [negb orb].
  set (w1 := (lit 2 * h2 + h1)%js). set (w2 := (h2 + lit 2 * h1)%js).
  destruct ((w1 / d1 + w2 / d2)%js === lit 0)%js eqn:Ez.
  { split; apply limited_zero. }
  assert (Hne : ~ (w1 / d1 + w2 / d2)%js == 0).
  { intros E. apply Q_eqb_eq in E. exact (eq_true_false_abs _ E Ez). }
  assert (Hd1 : ~ d1 == 0) by nra.
  assert (Hd2 : ~ d2 == 0) by nra.
  assert (Ew1 : w1 == 2 * h2 + h1) by reflexivity.
  assert (Ew2 : w2 == h2 + 2 * h1) by reflexivity.
  set (denom := (w1 / d1 + w2 / d2)%js) in *.
  assert (Ed : w1 * d2 + w2 * d1 == denom * (d1 * d2)).
  { unfold denom. simpl. field. split; assumption. }
  apply (harmonic_limited w1 w2 d1 d2); try lra.
  rewrite Ed. simpl. field. exact Hne.
Qed.
End Monotone.

Section NoOvershoot.
Local Open Scope Q_scope.

Lemma limited_eq (d d' m m' : Q) : d == d' -> m == m' -> limited d m -> limited d' m'.
Proof.
  intros Ed Em [[A B]|[A B]]; [left | right]; split; lra.
Qed.

(** Every tangent of Strategy A, scaled by the length of an adjacent
    interval, is limited by the rise of the samples over it. *)
Lemma slopes_limited (x y : list Q) (k : nat) :
  let n := length x in
  let h := intervals x n in
  let delta := secants y h n in
  let m := StrategyA.slopes h delta n in
  (2 <= n)%nat -> strictly_increasing x -> (k + 1 < n)%nat ->
  limited (get y (k + 1) - get y k) (get h k * get m k)
  /\ limited (get y (k + 1) - get y k) (get h k * get m (k + 1)).
Proof.
  intros n h delta m Hn Hx Hk.
  pose proof (Q_interval_positive x k Hx Hk) as Hpos. fold n h in Hpos.
  pose proof (Q_secant_times_interval x y k Hx Hk) as Hrise. fold n h delta in Hrise.
  assert (Hself : limited (get y (k + 1) - get y k) (get h k * get delta k)).
  { apply (limited_eq (get h k * get delta k) _ (get h k * get delta k) _);
      [exact Hrise | reflexivity | apply limited_self]. }
  split.
  - destruct (decide (k = 0)%nat) as [Hz|Hnz].
    + subst k. unfold m. rewrite get_slopes_first by exact Hn.
      change (isFinite ?r) with true. cbv iota. exact Hself.
    + unfold m. rewrite get_slopes_interior by lia.
      assert (Hprev : 0 < get h (k - 1)).
      { pose proof (Q_interval_positive x (k - 1) Hx) as Hp. fold n h in Hp.
        apply Hp. unfold n in *. lia. }
      destruct (interiorSlope_limited h delta k Hprev Hpos) as [_ Hlim].
      apply (limited_eq (get h k * get delta k) _ _ _ Hrise (Qeq_refl _)).
      apply limited_scale; assumption.
  - destruct (decide (k + 2 < n)%nat) as [Hin|Hout].
    + unfold m. rewrite get_slopes_interior by lia.
      assert (Hnext : 0 < get h (k + 1)).
      { pose proof (Q_interval_positive x (k + 1) Hx) as Hp. fold n h in Hp.
        apply Hp. unfold n in *. lia. }
      assert (Hpos' : 0 < get h (k + 1 - 1))
        by (replace (k + 1 - 1)%nat with k by lia; exact Hpos).
      destruct (interiorSlope_limited h delta (k + 1) Hpos' Hnext) as [Hlim _].
      replace (k + 1 - 1)%nat with k in Hlim by lia.
      apply (limited_eq (get h k * get delta k) _ _ _ Hrise (Qeq_refl _)).
      apply limited_scale; assumption.
    + unfold m. replace (k + 1)%nat with (n - 1)%nat by lia.
      rewrite get_slopes_last by exact Hn.
      change (isFinite ?r) with true. cbv iota.
      replace (n - 2)%nat with k by lia. replace (n - 1)%nat with (k + 1)%nat by lia.
      exact Hself.
Qed.

Lemma strategyA_evaluate_between (x y : list Q) (i : nat) (t : Q) :
  let n := length x in
  let h := intervals x n in
  let delta := secants y h n in
  let m := StrategyA.slopes h delta n in
  (2 <= n)%nat -> strictly_increasing x -> (i + 1 < n)%nat ->
  get x i <= t -> t <= get x (i + 1) ->
  Qmin (get y i) (get y (i + 1)) <= StrategyA.evaluate x y h m n t
  /\ StrategyA.evaluate x y h m n t <= Qmax (get y i) (get y (i + 1)).
Proof.
  intros n h delta m Hn Hx Hi Hlo Hhi.
  unfold StrategyA.evaluate.
  destruct (t <=? get x 0)%js eqn:E0.
  { apply Q_leb_le in E0.
    assert (i = 0)%nat as ->.
    { destruct i as [|i']; [reflexivity|]. exfalso.
      assert (get x 0 < get x (S i'))
        by (apply Q_increasing_lt; [exact Hx | lia | unfold n in *; lia]).
      lra. }
    split; [apply Q.le_min_l | apply Q.le_max_l]. }
  apply Q_leb_gt in E0.
  destruct (get x (n - 1) <=? t)%js eqn:E1.
  { apply Q_leb_le in E1.
    assert (i + 1 = n - 1)%nat as Heq.
    { destruct (decide (i + 1 = n - 1)%nat) as [e|ne]; [exact e|]. exfalso.
      assert (get x (i + 1) < get x (n - 1))
        by (apply Q_increasing_lt; [exact Hx | lia | unfold n in *; lia]).
      lra. }
    rewrite <- Heq.
    split; [apply Q.le_min_r | apply Q.le_max_r]. }
  apply Q_leb_gt in E1.
  destruct (findInterval_spec x t Hn Hx) as (Hk & Hklo & Hkhi & _);
    [apply Q_ltb_lt; exact E0 | apply Q_ltb_lt; exact E1 |].
  fold n in Hk, Hklo, Hkhi.
  set (k := findInterval x n t) in *.
  apply Q_ltb_lt in Hklo. apply Q_leb_le in Hkhi.
  pose proof (Q_interval_positive x k Hx Hk) as Hpos. fold n h in Hpos.
  destruct (get h k === lit 0)%js eqn:Ez.
  { apply Q_eqb_eq in Ez. change (get h k == 0) in Ez. lra. }
  change (isFinite ?r) with true. cbv iota.
  change (Qmin (get y i) (get y (i + 1))
          <= hermite ((t - get x k) / get h k) (get y k) (get y (k + 1))
                     (get h k) (get m k) (get m (k + 1))
          <= Qmax (get y i) (get y (i + 1))).
  assert (Hh : get h k = get x (k + 1) - get x k)
    by (unfold h; rewrite get_intervals by exact Hk; reflexivity).
  assert (HT0 : 0 <= (t - get x k) / get h k).
  { apply Qle_shift_div_l; [exact Hpos | lra]. }
  assert (HT1 : (t - get x k) / get h k <= 1).
  { apply Qle_shift_div_r; [exact Hpos | rewrite Hh; lra]. }
  destruct (lt_eq_lt_dec k i) as [[Hlt|Heq]|Hgt].
  - assert (Hki : (k + 1 = i)%nat).
    { destruct (decide (k + 1 = i)%nat) as [e|ne]; [exact e|]. exfalso.
      assert (get x (k + 1) < get x i)
        by (apply Q_increasing_lt; [exact Hx | lia | unfold n in *; lia]).
      lra. }
    assert (Ht : t == get x (k + 1)).
    { apply Qle_antisym; [exact Hkhi | rewrite Hki; exact Hlo]. }
    rewrite hermite_at_one.
    + rewrite Hki. split; [apply Q.le_min_l | apply Q.le_max_l].
    + rewrite Hh, Ht. field. rewrite <- Hh. lra.
  - subst i.
    destruct (slopes_limited x y k Hn Hx Hk) as [Hleft Hright].
    apply hermite_limited_bounds; assumption.
  - exfalso.
    assert (get x (i + 1) <= get x k)
      by (apply Q_increasing_le; [exact Hx | lia | unfold n in *; lia]).
    lra.
Qed.

(** X3.  In exact arithmetic Strategy A never overshoots, whatever
    the values: for strictly increasing [x] with at least two samples
    and any [y], a target in [[x[i], x[i+1]]] is answered with a value
    within [[min(y[i], y[i+1]), max(y[i], y[i+1])]]. *)
Theorem strategyA_never_overshoots (x y targetX : list Q) :
  (2 <= length x)%nat -> strictly_increasing x ->
  Forall2 (fun t r =>
             forall i, (i + 1 < length x)%nat ->
               get x i <= t -> t <= get x (i + 1) ->
               Qmin (get y i) (get y (i + 1)) <= r
               /\ r <= Qmax (get y i) (get y (i + 1)))
          targetX (StrategyA.interpolatePCHIP x y targetX).
Proof.
  intros Hn Hx. unfold StrategyA.interpolatePCHIP.
  destruct (Nat.ltb_spec (length x) 2) as [Hlt|_]; [lia|].
  apply Forall2_map_intro. intros t i Hi Hlo Hhi.
  apply strategyA_evaluate_between; assumption.
Qed.

Lemma rising_xQ_increasing : strictly_increasing rising_xQ.
Proof. increasing_by_cases. Qed.

Lemma strategyA_never_overshoots_witness :
  exists r : Q,
    StrategyA.interpolatePCHIP rising_xQ rising_yQ [3 # 2]%Q = [r]
    /\ (Qmin 1 4 <= r)%Q /\ (r <= Qmax 1 4)%Q.
Proof.
  destruct (Forall2_singleton_inv _ _ _
              (strategyA_never_overshoots rising_xQ rising_yQ [3 # 2]%Q
                 ltac:(simpl; lia) rising_xQ_increasing))
    as (r & Hr & Hbounds).
  exists r. split; [exact Hr|].
  apply (Hbounds 1%nat); [simpl; lia | vm_compute; discriminate | vm_compute; discriminate].
Defined.

End NoOvershoot.

Section Folds.
Context {N : Type} `{JsNum N} {S : Type}.

Lemma foldl_untouched (proj : S -> list N) (step : S -> nat -> S)
    (l : list nat) (j : nat) (s : S) :
  (forall s i, i <> j -> get (proj (step s i)) j = get (proj s) j) ->
  ~ In j l -> get (proj (foldl step s l)) j = get (proj s) j.
Proof.
  intros Hstep. revert s. induction l as [|i l IH]; intros s Hj; simpl; [reflexivity|].
  rewrite IH by (intros Hin; apply Hj; right; exact Hin).
  apply Hstep. intros ->. apply Hj. left. reflexivity.
Qed.

Lemma foldl_length (proj : S -> list N) (step : S -> nat -> S) (l : list nat) (s : S) :
  (forall s i, length (proj (step s i)) = length (proj s)) ->
  length (proj (foldl step s l)) = length (proj s).
Proof.
  intros Hstep. revert s. induction l as [|i l IH]; intros s; simpl; [reflexivity|].
  rewrite IH. apply Hstep.
Qed.

Lemma foldl_kept {A} (proj : S -> A) (step : S -> nat -> S) (l : list nat) (s : S) :
  (forall s i, proj (step s i) = proj s) -> proj (foldl step s l) = proj s.
Proof.
  intros Hstep. revert s. induction l as [|i l IH]; intros s; simpl; [reflexivity|].
  rewrite IH. apply Hstep.
Qed.
End Folds.

Section SystemShape.
Context {N : Type} `{JsNum N}.
Local Open Scope js_scope.

Lemma get_replicate (n j : nat) (v : N) : (j < n)%nat -> get (replicate n v) j = v.
Proof.
  intros Hj. unfold get. rewrite nth_lookup, lookup_replicate_2 by exact Hj. reflexivity.
Qed.

Lemma get_insert_other (l : list N) (i j : nat) (v : N) :
  i <> j -> get (<[i := v]> l) j = get l j.
Proof. intros Hne. rewrite get_insert. destruct (decide _) as [[e _]|_]; [congruence | reflexivity]. Qed.

Lemma get_insert_same (l : list N) (i : nat) (v : N) :
  (i < length l)%nat -> get (<[i := v]> l) i = v.
Proof. intros Hi. rewrite get_insert. destruct (decide _) as [_|Hno]; [reflexivity | tauto]. Qed.

(** The first and the last row of the system that [buildSystem]
    leaves: the diagonal is [1], everything else [0]. *)
Lemma buildSystem_boundary_rows (h delta : list N) (n : nat) :
  (3 <= n)%nat ->
  let s := StrategyB.buildSystem h delta n in
  get (StrategyB.diag s) 0 = lit 1 /\ get (StrategyB.diag s) (n - 1) = lit 1
  /\ get (StrategyB.super_diag s) 0 = lit 0
  /\ get (StrategyB.sub_diag s) (n - 1) = lit 0
  /\ get (StrategyB.rhs s) 0 = lit 0 /\ get (StrategyB.rhs s) (n - 1) = lit 0
  /\ length (StrategyB.diag s) = n /\ length (StrategyB.rhs s) = n.
Proof.
  intros Hn s. unfold s, StrategyB.buildSystem.
  assert (H0 : ~ In 0%nat (seq 1 (n - 2))) by (rewrite in_seq; lia).
  assert (Hl : ~ In (n - 1)%nat (seq 1 (n - 2))) by (rewrite in_seq; lia).
  repeat split.
  - rewrite (foldl_untouched StrategyB.diag) by
      (try exact H0; intros; simpl; apply get_insert_other; assumption).
    simpl. rewrite get_insert_other by lia.
    apply get_insert_same. rewrite length_replicate. lia.
  - rewrite (foldl_untouched StrategyB.diag) by
      (try exact Hl; intros; simpl; apply get_insert_other; assumption).
    simpl. apply get_insert_same. rewrite length_insert, length_replicate. lia.
  - rewrite (foldl_untouched StrategyB.super_diag) by
      (try exact H0; intros; simpl; apply get_insert_other; assumption).
    simpl. apply get_replicate. lia.
  - rewrite (foldl_untouched StrategyB.sub_diag) by
      (try exact Hl; intros; simpl; apply get_insert_other; assumption).
    simpl. apply get_replicate. lia.
  - rewrite (foldl_untouched StrategyB.rhs) by
      (try exact H0; intros; simpl; apply get_insert_other; assumption).
    simpl. apply get_replicate. lia.
  - rewrite (foldl_untouched StrategyB.rhs) by
      (try exact Hl; intros; simpl; apply get_insert_other; assumption).
    simpl. apply get_replicate. lia.
  - rewrite (foldl_length StrategyB.diag) by (intros; simpl; apply length_insert).
    simpl. rewrite !length_insert, length_replicate. reflexivity.
  - rewrite (foldl_length StrategyB.rhs) by (intros; simpl; apply length_insert).
    simpl. rewrite length_replicate. reflexivity.
Qed.
End SystemShape.

Section NaturalBoundary.
Local Open Scope Q_scope.

Lemma forwardElimination_unfold (s : StrategyB.system (N:=Q)) (n : nat) :
  StrategyB.forwardElimination s n = foldl forwardStep s (seq 1 (n - 1)).
Proof. reflexivity. Qed.

Lemma forwardStep_other (s : StrategyB.system (N:=Q)) (i j : nat) :
  i <> j ->
  get (StrategyB.diag (forwardStep s i)) j = get (StrategyB.diag s) j
  /\ get (StrategyB.rhs (forwardStep s i)) j = get (StrategyB.rhs s) j.
Proof.
  intros Hne. unfold forwardStep. destruct (_ === _)%js; simpl; [split; reflexivity|].
  split; apply get_insert_other; exact Hne.
Qed.

Lemma forwardStep_shape (s : StrategyB.system (N:=Q)) (i : nat) :
  StrategyB.sub_diag (forwardStep s i) = StrategyB.sub_diag s
  /\ StrategyB.super_diag (forwardStep s i) = StrategyB.super_diag s
  /\ length (StrategyB.diag (forwardStep s i)) = length (StrategyB.diag s)
  /\ length (StrategyB.rhs (forwardStep s i)) = length (StrategyB.rhs s).
Proof.
  unfold forwardStep. destruct (_ === _)%js; simpl; repeat split;
    try reflexivity; apply length_insert.
Qed.

(** After forward elimination the first row is as built, and the last
    row still stands for [m[n-1] = 0]. *)
Lemma forwardElimination_boundary_rows (h delta : list Q) (n : nat) :
  (3 <= n)%nat ->
  let s := StrategyB.forwardElimination (StrategyB.buildSystem h delta n) n in
  get (StrategyB.diag s) 0 = 1 /\ get (StrategyB.super_diag s) 0 = 0
  /\ get (StrategyB.rhs s) 0 = 0
  /\ get (StrategyB.diag s) (n - 1) == 1 /\ get (StrategyB.rhs s) (n - 1) == 0.
Proof.
  intros Hn s.
  destruct (buildSystem_boundary_rows h delta n Hn)
    as (Hb0 & Hbl & Hc0 & Hal & Hd0 & Hdl & Hlenb & Hlend).
  set (s0 := StrategyB.buildSystem h delta n) in *.
  assert (H0 : ~ In 0%nat (seq 1 (n - 1))) by (rewrite in_seq; lia).
  assert (Hl : ~ In (n - 1)%nat (seq 1 (n - 2))) by (rewrite in_seq; lia).
  unfold s. rewrite forwardElimination_unfold.
  split; [|split; [|split]].
  - rewrite (foldl_untouched StrategyB.diag); [exact Hb0 | | exact H0].
    intros t i Hne. apply (forwardStep_other t i 0 Hne).
  - rewrite (foldl_kept StrategyB.super_diag); [exact Hc0|].
    intros t i. apply forwardStep_shape.
  - rewrite (foldl_untouched StrategyB.rhs); [exact Hd0 | | exact H0].
    intros t i Hne. apply (forwardStep_other t i 0 Hne).
  - replace (seq 1 (n - 1)) with (seq 1 (n - 2) ++ [(n - 1)%nat]).
    2:{ replace (n - 1)%nat with (Datatypes.S (n - 2)) at 2 by lia. rewrite seq_S.
        do 2 f_equal. lia. }
    rewrite foldl_app.
    set (s1 := foldl forwardStep s0 (seq 1 (n - 2))).
    assert (Hb1 : get (StrategyB.diag s1) (n - 1) = 1).
    { unfold s1. rewrite (foldl_untouched StrategyB.diag); [exact Hbl | | exact Hl].
      intros t i Hne. apply (forwardStep_other t i (n - 1) Hne). }
    assert (Hd1 : get (StrategyB.rhs s1) (n - 1) = 0).
    { unfold s1. rewrite (foldl_untouched StrategyB.rhs); [exact Hdl | | exact Hl].
      intros t i Hne. apply (forwardStep_other t i (n - 1) Hne). }
    assert (Ha1 : get (StrategyB.sub_diag s1) (n - 1) = 0).
    { unfold s1. rewrite (foldl_kept StrategyB.sub_diag); [exact Hal|].
      intros t i. apply forwardStep_shape. }
    assert (Hlenb1 : length (StrategyB.diag s1) = n).
    { unfold s1. rewrite (foldl_length StrategyB.diag); [exact Hlenb|].
      intros t i. apply forwardStep_shape. }
    assert (Hlend1 : length (StrategyB.rhs s1) = n).
    { unfold s1. rewrite (foldl_length StrategyB.rhs); [exact Hlend|].
      intros t i. apply forwardStep_shape. }
    simpl. unfold forwardStep.
    destruct (_ === _)%js; simpl.
    + rewrite Hb1, Hd1. split; reflexivity.
    + rewrite !get_insert_same by lia. rewrite Hb1, Hd1, Ha1.
      split; unfold Qdiv; ring.
Qed.

Lemma backSubstitution_unfold (s : StrategyB.system (N:=Q)) (n : nat) :
  StrategyB.backSubstitution s n
  = foldl (backStep s)
          (if (get (StrategyB.diag s) (n - 1) !== lit 0)%js
           then <[(n - 1)%nat := (get (StrategyB.rhs s) (n - 1)
                                  / get (StrategyB.diag s) (n - 1))%js]>
                  (replicate n (lit 0))
           else replicate n (lit 0))
          (rev (seq 0 (n - 1))).
Proof. reflexivity. Qed.

Lemma backStep_length (s : StrategyB.system (N:=Q)) (m : list Q) (i : nat) :
  length (backStep s m i) = length m.
Proof. unfold backStep. destruct (negb _); [apply length_insert | reflexivity]. Qed.

Lemma backStep_other (s : StrategyB.system (N:=Q)) (m : list Q) (i j : nat) :
  i <> j -> get (backStep s m i) j = get m j.
Proof.
  intros Hne. unfold backStep. destruct (negb _); [|reflexivity].
  apply get_insert_other. exact Hne.
Qed.

(** X5.  In exact arithmetic, for three or more rows and any interval
    lengths and secants, the second derivatives Strategy B solves for
    satisfy the natural boundary conditions: the first and the last
    one are zero. *)
Theorem strategyB_natural_boundary (h delta : list Q) (n : nat) :
  (3 <= n)%nat ->
  let m := StrategyB.backSubstitution
             (StrategyB.forwardElimination (StrategyB.buildSystem h delta n) n) n in
  get m 0 == 0 /\ get m (n - 1) == 0.
Proof.
  intros Hn m.
  destruct (forwardElimination_boundary_rows h delta n Hn) as (Hb0 & Hc0 & Hd0 & Hbl & Hdl).
  set (s := StrategyB.forwardElimination (StrategyB.buildSystem h delta n) n) in *.
  unfold m. rewrite backSubstitution_unfold.
  set (m1 := if (get (StrategyB.diag s) (n - 1) !== lit 0)%js then _ else _).
  assert (Hlen1 : length m1 = n).
  { unfold m1. destruct (negb _); [rewrite length_insert|]; apply length_replicate. }
  assert (Hlast1 : get m1 (n - 1) == 0).
  { unfold m1. destruct (negb _).
    - rewrite get_insert_same by (rewrite length_replicate; lia).
      simpl. rewrite Hdl. unfold Qdiv. ring.
    - rewrite get_replicate by lia. reflexivity. }
  split.
  - replace (rev (seq 0 (n - 1))) with (rev (seq 1 (n - 2)) ++ [0%nat]).
    2:{ replace (n - 1)%nat with (Datatypes.S (n - 2)) by lia. simpl. reflexivity. }
    rewrite foldl_app. simpl.
    set (m2 := foldl (backStep s) m1 (rev (seq 1 (n - 2)))).
    assert (Hlen2 : length m2 = n).
    { unfold m2. rewrite (foldl_length (fun l : list Q => l) (backStep s)); [exact Hlen1|].
      intros t i. apply backStep_length. }
    unfold backStep. rewrite Hb0, Hc0, Hd0.
    change ((1 !== lit 0)%js) with true. cbv iota.
    rewrite get_insert_same by lia. simpl. field.
  - rewrite (foldl_untouched (fun l : list Q => l) (backStep s)).
    + exact Hlast1.
    + intros t i Hne. apply backStep_other. exact Hne.
    + rewrite <- in_rev, in_seq. lia.
Qed.

Lemma strategyB_natural_boundary_witness :
  (get (StrategyB.backSubstitution
          (StrategyB.forwardElimination (StrategyB.buildSystem four_h four_delta 4) 4) 4)
       0 == 0)%Q
  /\ (get (StrategyB.backSubstitution
             (StrategyB.forwardElimination (StrategyB.buildSystem four_h four_delta 4) 4) 4)
          (4 - 1) == 0)%Q.
Proof. apply (strategyB_natural_boundary four_h four_delta 4). lia. Defined.

End NaturalBoundary.

Section Lines.
Local Open Scope Q_scope.

Lemma foldl_invariant {S} (P : S -> Prop) (step : S -> nat -> S) (l : list nat) (s0 : S) :
  (forall s i, In i l -> P s -> P (step s i)) -> P s0 -> P (foldl step s0 l).
Proof.
  revert s0. induction l as [|i l IH]; intros s0 Hstep H0; simpl; [exact H0|].
  apply IH.
  - intros s j Hj. apply Hstep. right. exact Hj.
  - apply Hstep; [left; reflexivity | exact H0].
Qed.

Lemma get_zeros (n j : nat) : get (replicate n (lit 0 : Q)) j = 0.
Proof.
  destruct (Nat.lt_ge_cases j n) as [Hlt|Hge].
  - apply get_replicate. exact Hlt.
  - unfold get. apply nth_overflow. rewrite length_replicate. exact Hge.
Qed.

Lemma get_insert_zero (l : list Q) (i j : nat) (v : Q) :
  v == 0 -> get l j == 0 -> get (<[i := v]> l) j == 0.
Proof.
  intros Hv Hl. rewrite get_insert. destruct (decide _); assumption.
Qed.

Lemma collinear_secant (x y : list Q) (a s : Q) (i : nat) :
  strictly_increasing x -> collinear x y a s -> (i + 1 < length x)%nat ->
  get (secants y (intervals x (length x)) (length x)) i == s.
Proof.
  intros Hx Hy Hi.
  pose proof (Q_interval_positive x i Hx Hi) as Hpos.
  pose proof (Q_secant_times_interval x y i Hx Hi) as Hrise. cbv zeta in Hrise.
  set (h := get (intervals x (length x)) i) in *.
  set (d := get (secants y (intervals x (length x)) (length x)) i) in *.
  assert (Eh : h == get x (i + 1) - get x i).
  { unfold h. rewrite get_intervals by exact Hi. reflexivity. }
  rewrite (Hy i), (Hy (i + 1)%nat) in Hrise by lia.
  assert (E : h * (d - s) == 0).
  { setoid_replace (h * (d - s)) with (h * d - s * h) using relation Qeq by ring.
    rewrite Hrise, Eh. ring. }
  apply Qmult_integral in E as [E|E]; lra.
Qed.

(** *** Strategy B: the second derivatives vanish *)

Lemma buildSystem_rhs_zero (h delta : list Q) (n : nat) :
  (forall i, (1 <= i)%nat -> (i + 1 < n)%nat -> get delta i == get delta (i - 1)) ->
  forall j, get (StrategyB.rhs (StrategyB.buildSystem h delta n)) j == 0.
Proof.
  intros Hd. unfold StrategyB.buildSystem.
  apply (foldl_invariant (fun s : StrategyB.system => forall j, get (StrategyB.rhs s) j == 0)).
  - intros s i Hi Hs j. simpl. apply in_seq in Hi.
    apply get_insert_zero; [|apply Hs].
    simpl. rewrite Hd by lia. ring.
  - intros j. simpl. rewrite get_zeros. reflexivity.
Qed.

Lemma forwardElimination_rhs_zero (s : StrategyB.system) (n : nat) :
  (forall j, get (StrategyB.rhs s) j == 0) ->
  forall j, get (StrategyB.rhs (StrategyB.forwardElimination s n)) j == 0.
Proof.
  intros Hs. rewrite forwardElimination_unfold.
  apply (foldl_invariant (fun s : StrategyB.system => forall j, get (StrategyB.rhs s) j == 0));
    [|exact Hs].
  intros t i _ Ht j. unfold forwardStep. destruct (_ === _)%js; [apply Ht|].
  simpl. apply get_insert_zero; [|apply Ht].
  rewrite (Ht i), (Ht (i - 1)%nat). ring.
Qed.

Lemma backSubstitution_zero (s : StrategyB.system) (n : nat) :
  (forall j, get (StrategyB.rhs s) j == 0) ->
  forall j, get (StrategyB.backSubstitution s n) j == 0.
Proof.
  intros Hs. rewrite backSubstitution_unfold.
  apply (foldl_invariant (fun m : list Q => forall j, get m j == 0)).
  - intros m i _ Hm j. unfold backStep. destruct (negb _); [|apply Hm].
    apply get_insert_zero; [|apply Hm].
    simpl. rewrite (Hs i), (Hm (i + 1)%nat). unfold Qdiv. ring.
  - intros j. destruct (negb _).
    + apply get_insert_zero; [|rewrite get_zeros; reflexivity].
      simpl. rewrite (Hs (n - 1)%nat). unfold Qdiv. ring.
    + rewrite get_zeros. reflexivity.
Qed.

Lemma splineCubic_line (t hi yi delta mi mi1 : Q) :
  mi == 0 -> mi1 == 0 -> splineCubic t hi yi delta mi mi1 == yi + delta * t.
Proof.
  intros E0 E1. unfold splineCubic. cbv zeta. rewrite E0, E1. unfold Qdiv. ring.
Qed.

(** *** Strategy A: every tangent is the slope of the line *)

Lemma interiorSlope_line (h delta : list Q) (i : nat) (s : Q) :
  0 < get h (i - 1) -> 0 < get h i ->
  get delta (i - 1) == s -> get delta i == s ->
  StrategyA.interiorSlope h delta i == s.
Proof.
  intros Hh1 Hh2 E1 E2. unfold StrategyA.interiorSlope.
  set (d1 := get delta (i - 1)) in *. set (d2 := get delta i) in *.
  set (h1 := get h (i - 1)) in *. set (h2 := get h i) in *.
  destruct (d1 * d2 <=? lit 0)%js eqn:Es.
  { apply Q_leb_le in Es. change (d1 * d2 <= 0) in Es.
    rewrite E1, E2 in Es. change (0 == s).
    assert (Hsq : 0 <= s * s) by nra.
    assert (Ez : s * s == 0) by lra.
    apply Qmult_integral in Ez. destruct Ez as [Ez|Ez]; rewrite Ez; reflexivity. }
  apply Q_leb_gt in Es. change (0 < d1 * d2) in Es.
  assert (Hs : ~ s == 0).
  { intros E. rewrite E1, E2, E in Es. lra. }
  cbv zeta. change (isFinite ?r) with true. cbn [negb orb].
  set (w1 := (lit 2 * h2 + h1)%js). set (w2 := (h2 + lit 2 * h1)%js).
  assert (Ew1 : w1 == 2 * h2 + h1) by reflexivity.
  assert (Ew2 : w2 == h2 + 2 * h1) by reflexivity.
  assert (Hd1 : ~ d1 == 0) by (rewrite E1; exact Hs).
  assert (Hd2 : ~ d2 == 0) by (rewrite E2; exact Hs).
  assert (Ed : (w1 / d1 + w2 / d2)%js == (w1 + w2) / s).
  { simpl. rewrite E1, E2. field. exact Hs. }
  assert (Hne : ~ (w1 + w2) / s == 0).
  { intros E. assert (E' : (w1 + w2) / s * s == 0) by (rewrite E; ring).
    assert (E'' : (w1 + w2) / s * s == w1 + w2) by (field; exact Hs).
    lra. }
  destruct ((w1 / d1 + w2 / d2)%js === lit 0)%js eqn:Ez.
  { exfalso. apply Q_eqb_eq in Ez. apply Hne. rewrite <- Ed. exact Ez. }
  simpl. simpl in Ed. rewrite Ed. field. split; [exact Hs | lra].
Qed.

Lemma slopes_line (x y : list Q) (a s : Q) (j : nat) :
  let n := length x in
  let h := intervals x n in
  let delta := secants y h n in
  (2 <= n)%nat -> strictly_increasing x -> collinear x y a s -> (j < n)%nat ->
  get (StrategyA.slopes h delta n) j == s.
Proof.
  intros n h delta Hn Hx Hy Hj.
  assert (Hd : forall i, (i + 1 < n)%nat -> get delta i == s).
  { intros i Hi. apply (collinear_secant x y a s i Hx Hy Hi). }
  destruct (decide (j = 0)%nat) as [->|Hnz].
  { rewrite get_slopes_first by exact Hn. change (isFinite ?r) with true. cbv iota.
    apply Hd. lia. }
  destruct (decide (j = n - 1)%nat) as [->|Hnl].
  { rewrite get_slopes_last by exact Hn. change (isFinite ?r) with true. cbv iota.
    apply Hd. lia. }
  rewrite get_slopes_interior by lia.
  apply interiorSlope_line.
  - pose proof (Q_interval_positive x (j - 1) Hx) as Hp. apply Hp. fold n. lia.
  - pose proof (Q_interval_positive x j Hx) as Hp. apply Hp. fold n. lia.
  - apply Hd. lia.
  - apply Hd. lia.
Qed.

Lemma hermite_line (T yi yi1 h mi mi1 : Q) :
  h * mi == yi1 - yi -> h * mi1 == yi1 - yi ->
  hermite T yi yi1 h mi mi1 == yi + (yi1 - yi) * T.
Proof.
  intros Hmi Hmi1. unfold hermite. cbv zeta. change (inject_Z (-2)) with (-2 # 1).
  setoid_replace ((T * T * T - 2 * (T * T) + T) * h * mi)
    with ((T * T * T - 2 * (T * T) + T) * (h * mi)) using relation Qeq by ring.
  setoid_replace ((T * T * T - T * T) * h * mi1)
    with ((T * T * T - T * T) * (h * mi1)) using relation Qeq by ring.
  rewrite Hmi, Hmi1. ring.
Qed.

(** The parts of the evaluation shared by the two strategies: the
    clamped ends, and the interval found for a target inside. *)
Lemma line_cases (x y : list Q) (a s t : Q) (P : Prop) :
  let n := length x in
  (2 <= n)%nat -> strictly_increasing x -> collinear x y a s ->
  get x 0 <= t -> t <= get x (n - 1) ->
  ((t <=? get x 0)%js = true -> get y 0 == a + s * t -> P) ->
  ((t <=? get x 0)%js = false -> (t >=? get x (n - 1))%js = true ->
   get y (n - 1) == a + s * t -> P) ->
  ((t <=? get x 0)%js = false -> (t >=? get x (n - 1))%js = false ->
   forall k, k = findInterval x n t -> (k + 1 < n)%nat ->
             0 < get (intervals x n) k -> P) ->
  P.
Proof.
  intros n Hn Hx Hy Hlo Hhi Hfirst Hlast Hinside.
  destruct (t <=? get x 0)%js eqn:E0.
  { apply Hfirst; [reflexivity|]. apply Q_leb_le in E0.
    rewrite (Hy 0%nat) by (fold n; lia).
    assert (E : t == get x 0) by lra. rewrite E. reflexivity. }
  destruct (t >=? get x (n - 1))%js eqn:E1.
  { apply Hlast; [reflexivity | reflexivity|]. apply Q_leb_le in E1.
    rewrite (Hy (n - 1)%nat) by (fold n; lia).
    assert (E : t == get x (n - 1)) by lra. rewrite E. reflexivity. }
  apply Q_leb_gt in E0. pose proof E1 as E1'. apply Q_leb_gt in E1.
  destruct (findInterval_spec x t Hn Hx) as (Hk & _);
    [apply Q_ltb_lt; exact E0 | apply Q_ltb_lt; exact E1 |].
  apply (Hinside eq_refl eq_refl (findInterval x n t) eq_refl Hk).
  apply Q_interval_positive; [exact Hx | exact Hk].
Qed.

Lemma strategyA_evaluate_line (x y : list Q) (a s t : Q) :
  let n := length x in
  let h := intervals x n in
  let m := StrategyA.slopes h (secants y h n) n in
  (2 <= n)%nat -> strictly_increasing x -> collinear x y a s ->
  get x 0 <= t -> t <= get x (n - 1) ->
  StrategyA.evaluate x y h m n t == a + s * t.
Proof.
  intros n h m Hn Hx Hy Hlo Hhi. unfold StrategyA.evaluate.
  apply (line_cases x y a s t _ Hn Hx Hy Hlo Hhi); fold n.
  - intros -> E. exact E.
  - intros -> -> E. exact E.
  - intros -> -> k <- Hk Hpos. fold h in Hpos.
    destruct (get h k === lit 0)%js eqn:Ez.
    { apply Q_eqb_eq in Ez. change (get h k == 0) in Ez. lra. }
    change (isFinite ?r) with true. cbv iota.
    change (hermite ((t - get x k) / get h k) (get y k) (get y (k + 1))
                    (get h k) (get m k) (get m (k + 1)) == a + s * t).
    pose proof (Q_secant_times_interval x y k Hx Hk) as Hrise. cbv zeta in Hrise.
    fold n h in Hrise.
    pose proof (collinear_secant x y a s k Hx Hy Hk) as Hd. fold n h in Hd.
    rewrite Hd in Hrise.
    assert (Hmk : get m k == s)
      by (apply (slopes_line x y a s k Hn Hx Hy); fold n; lia).
    assert (Hmk1 : get m (k + 1) == s)
      by (apply (slopes_line x y a s (k + 1) Hn Hx Hy); fold n; lia).
    rewrite hermite_line.
    + rewrite <- Hrise, (Hy k) by (fold n; lia). field. lra.
    + rewrite Hmk. exact Hrise.
    + rewrite Hmk1. exact Hrise.
Qed.

Lemma strategyB_evaluate_line (x y m : list Q) (a s t : Q) :
  let n := length x in
  let h := intervals x n in
  let delta := secants y h n in
  (2 <= n)%nat -> strictly_increasing x -> collinear x y a s ->
  (forall j, get m j == 0) ->
  get x 0 <= t -> t <= get x (n - 1) ->
  StrategyB.evaluate x y h delta m n t == a + s * t.
Proof.
  intros n h delta Hn Hx Hy Hm Hlo Hhi. unfold StrategyB.evaluate.
  apply (line_cases x y a s t _ Hn Hx Hy Hlo Hhi); fold n.
  - intros -> E. exact E.
  - intros -> -> E. exact E.
  - intros -> -> k <- Hk Hpos. fold h in Hpos.
    destruct (get h k === lit 0)%js eqn:Ez.
    { apply Q_eqb_eq in Ez. change (get h k == 0) in Ez. lra. }
    change (isFinite ?r) with true. cbv iota.
    change (splineCubic (t - get x k) (get h k) (get y k) (get delta k)
                        (get m k) (get m (k + 1)) == a + s * t).
    rewrite splineCubic_line by apply Hm.
    pose proof (collinear_secant x y a s k Hx Hy Hk) as Hd. fold n h delta in Hd.
    rewrite Hd, (Hy k) by (fold n; lia). ring.
Qed.

Lemma strategyB_linear_line (x y : list Q) (a s t : Q) :
  length x = 2%nat -> strictly_increasing x -> collinear x y a s ->
  get x 0 <= t -> t <= get x 1 ->
  StrategyB.linear x y t == a + s * t.
Proof.
  intros Hn Hx Hy Hlo Hhi. unfold StrategyB.linear.
  assert (H01 : get x 0 < get x 1) by (apply Q_increasing_lt; [exact Hx | lia | lia]).
  pose proof (Hy 0%nat ltac:(lia)) as Hy0. pose proof (Hy 1%nat ltac:(lia)) as Hy1.
  destruct (t <=? get x 0)%js eqn:E0.
  { apply Q_leb_le in E0. rewrite Hy0. assert (E : t == get x 0) by lra.
    rewrite E. reflexivity. }
  destruct (t >=? get x 1)%js eqn:E1.
  { apply Q_leb_le in E1. rewrite Hy1. assert (E : t == get x 1) by lra.
    rewrite E. reflexivity. }
  cbv zeta. simpl. rewrite Hy0, Hy1. field. lra.
Qed.

(** X4.  In exact arithmetic both strategies reproduce straight
    lines: for strictly increasing [x] with at least two samples and
    values [y[i] = a + s * x[i]], every target within the sample range
    is answered with [a + s * t]. *)
Theorem interpolation_reproduces_lines (x y targetX : list Q) (a s : Q) :
  (2 <= length x)%nat -> strictly_increasing x -> collinear x y a s ->
  Forall2 (fun t r => get x 0 <= t -> t <= get x (length x - 1) -> r == a + s * t)
          targetX (StrategyA.interpolatePCHIP x y targetX)
  /\ Forall2 (fun t r => get x 0 <= t -> t <= get x (length x - 1) -> r == a + s * t)
             targetX (StrategyB.interpolatePCHIP x y targetX).
Proof.
  intros Hn Hx Hy. split.
  - unfold StrategyA.interpolatePCHIP.
    destruct (Nat.ltb_spec (length x) 2) as [Hlt|_]; [lia|].
    apply Forall2_map_intro. intros t Hlo Hhi.
    apply (strategyA_evaluate_line x y a s t); assumption.
  - unfold StrategyB.interpolatePCHIP.
    destruct (Nat.ltb_spec (length x) 2) as [Hlt|_]; [lia|].
    destruct (Nat.eqb_spec (length x) 2) as [Heq|Hne].
    + apply Forall2_map_intro. intros t Hlo Hhi. rewrite Heq in Hhi.
      apply (strategyB_linear_line x y a s t); assumption.
    + apply Forall2_map_intro. intros t Hlo Hhi.
      apply (strategyB_evaluate_line x y _ a s t); try assumption.
      apply backSubstitution_zero, forwardElimination_rhs_zero, buildSystem_rhs_zero.
      intros i Hi1 Hi2.
      rewrite (collinear_secant x y a s i Hx Hy) by lia.
      rewrite (collinear_secant x y a s (i - 1) Hx Hy) by lia. reflexivity.
Qed.

Lemma line_yQ_collinear : collinear zigzag_xQ line_yQ 1 2.
Proof.
  intros i Hi. simpl in Hi.
  do 5 (try (destruct i as [|i]; [vm_compute; reflexivity|])). lia.
Qed.

Lemma interpolation_reproduces_lines_witness :
  Forall2 (fun t r => (get zigzag_xQ 0 <= t -> t <= get zigzag_xQ (length zigzag_xQ - 1)
                       -> r == 1 + 2 * t)%Q)
          [5 # 2]%Q (StrategyA.interpolatePCHIP zigzag_xQ line_yQ [5 # 2]%Q)
  /\ Forall2 (fun t r => (get zigzag_xQ 0 <= t -> t <= get zigzag_xQ (length zigzag_xQ - 1)
                          -> r == 1 + 2 * t)%Q)
             [5 # 2]%Q (StrategyB.interpolatePCHIP zigzag_xQ line_yQ [5 # 2]%Q).
Proof.
  apply (interpolation_reproduces_lines zigzag_xQ line_yQ [5 # 2]%Q 1 2);
    [simpl; lia | exact zigzag_xQ_increasing | exact line_yQ_collinear].
Defined.

End Lines.

Section Thomas.
Local Open Scope Q_scope.


Lemma foldl_projection {S} (proj : S -> list Q) (step : S -> nat -> S) (f : nat -> Q)
    (l : list nat) (s : S) :
  (forall s i, proj (step s i) = <[i := f i]> (proj s)) ->
  proj (foldl step s l) = foldl (fun m i => <[i := f i]> m) (proj s) l.
Proof.
  intros Hstep. revert s. induction l as [|i l IH]; intros s; simpl; [reflexivity|].
  rewrite IH, Hstep. reflexivity.
Qed.

(** The interior rows of the system that [buildSystem] leaves. *)
Lemma buildSystem_interior_rows (h delta : list Q) (n i : nat) :
  (1 <= i)%nat -> (i + 1 < n)%nat ->
  let s := StrategyB.buildSystem h delta n in
  get (StrategyB.sub_diag s) i = get h (i - 1)
  /\ get (StrategyB.diag s) i = 2 * (get h (i - 1) + get h i)
  /\ get (StrategyB.super_diag s) i = get h i
  /\ get (StrategyB.rhs s) i = 6 * (get delta i - get delta (i - 1)).
Proof.
  intros H1 H2 s. unfold s, StrategyB.buildSystem.
  repeat split.
  - rewrite (foldl_projection StrategyB.sub_diag _ (fun i => get h (i - 1)))
      by (intros; reflexivity).
    simpl. rewrite get_fill by (rewrite length_replicate; lia).
    destruct (decide _); [reflexivity | lia].
  - rewrite (foldl_projection StrategyB.diag _
               (fun i => (lit 2 * (get h (i - 1) + get h i))%js))
      by (intros; reflexivity).
    simpl. rewrite get_fill by (rewrite !length_insert, length_replicate; lia).
    destruct (decide _); [reflexivity | lia].
  - rewrite (foldl_projection StrategyB.super_diag _ (fun i => get h i))
      by (intros; reflexivity).
    simpl. rewrite get_fill by (rewrite length_replicate; lia).
    destruct (decide _); [reflexivity | lia].
  - rewrite (foldl_projection StrategyB.rhs _
               (fun i => (lit 6 * (get delta i - get delta (i - 1)))%js))
      by (intros; reflexivity).
    simpl. rewrite get_fill by (rewrite length_replicate; lia).
    destruct (decide _); [reflexivity | lia].
Qed.

Section Elimination.
Variables (h delta : list Q) (n : nat).
Hypothesis Hn : (3 <= n)%nat.
Hypothesis Hh : forall j, (j + 1 < n)%nat -> 0 < get h j.

Variable s0 : StrategyB.system (N:=Q).
Hypothesis Hs0 : s0 = StrategyB.buildSystem h delta n.

Lemma super_diag_nonnegative (j : nat) : (j + 1 < n)%nat -> 0 <= get (StrategyB.super_diag s0) j.
Proof.
  intros Hj. destruct (decide (j = 0)%nat) as [->|Hnz].
  - destruct (buildSystem_boundary_rows h delta n Hn) as (_ & _ & E & _).
    rewrite Hs0, E. apply Qle_refl.
  - destruct (buildSystem_interior_rows h delta n j) as (_ & _ & E & _); [lia | lia |].
    rewrite Hs0, E. apply Qlt_le_weak. apply Hh. exact Hj.
Qed.

Lemma eliminated_start : eliminated n s0 0 s0.
Proof.
  destruct (buildSystem_boundary_rows h delta n Hn)
    as (Hb0 & Hbl & Hc0 & Hal & Hd0 & Hdl & Hlenb & Hlend).
  rewrite <- Hs0 in Hb0, Hbl, Hc0, Hal, Hd0, Hdl, Hlenb, Hlend.
  unfold eliminated. repeat split; try assumption; try reflexivity.
  - lia.
  - lia.
  - assert (j = 0)%nat as -> by lia. rewrite Hb0. reflexivity.
  - intros _. assert (j = 0)%nat as -> by lia.
    rewrite Hb0, Hc0. reflexivity.
Qed.

Lemma eliminated_step (k : nat) (s : StrategyB.system) :
  (k + 1 < n)%nat -> eliminated n s0 k s ->
  eliminated n s0 (Datatypes.S k) (forwardStep s (Datatypes.S k)).
Proof.
  intros Hk (Ha & Hc & Hlb & Hld & Hrest & Hb0 & Hd0 & Hrec & Hpos).
  destruct (Hpos k (Nat.le_refl k)) as [Hpivot Hdom].
  destruct (Hrest (Datatypes.S k) (Nat.lt_succ_diag_r k)) as [Hbk Hdk].
  unfold forwardStep. replace (Datatypes.S k - 1)%nat with k by lia.
  destruct (get (StrategyB.diag s) k === lit 0)%js eqn:Ez.
  { apply Q_eqb_eq in Ez. change (get (StrategyB.diag s) k == 0) in Ez. lra. }
  cbv zeta. rewrite Ha, Hc, Hbk, Hdk.
  set (w := (get (StrategyB.sub_diag s0) (Datatypes.S k) / get (StrategyB.diag s) k)%js).
  unfold eliminated. cbn [StrategyB.sub_diag StrategyB.super_diag StrategyB.diag
                           StrategyB.rhs].
  split; [reflexivity|]. split; [reflexivity|].
  split; [rewrite length_insert; exact Hlb|].
  split; [rewrite length_insert; exact Hld|].
  split.
  { intros j Hj. rewrite !get_insert_other by lia. apply Hrest. lia. }
  split; [rewrite get_insert_other by lia; exact Hb0|].
  split; [rewrite get_insert_other by lia; exact Hd0|].
  split.
  { intros j Hj. destruct (decide (j = Datatypes.S k)) as [->|Hne].
    - rewrite !get_insert_same by lia.
      replace (Datatypes.S k - 1)%nat with k by lia.
      rewrite !get_insert_other by lia. split; reflexivity.
    - rewrite !get_insert_other by lia. apply Hrec. lia. }
  intros j Hj. destruct (decide (j = Datatypes.S k)) as [->|Hne].
  - rewrite !get_insert_same by lia.
    assert (Hck : 0 <= get (StrategyB.super_diag s0) k) by (apply super_diag_nonnegative; lia).
    assert (Hlt : get (StrategyB.super_diag s0) k < get (StrategyB.diag s) k) by (apply Hdom; lia).
    assert (Hfrac : get (StrategyB.super_diag s0) k / get (StrategyB.diag s) k <= 1).
    { apply Qle_shift_div_r; [exact Hpivot | lra]. }
    assert (Hfrac0 : 0 <= get (StrategyB.super_diag s0) k / get (StrategyB.diag s) k).
    { apply Qle_shift_div_l; [exact Hpivot | lra]. }
    assert (Ew : (w * get (StrategyB.super_diag s0) k)%js
                 == get (StrategyB.sub_diag s0) (Datatypes.S k) * (get (StrategyB.super_diag s0) k / get (StrategyB.diag s) k)).
    { unfold w. simpl. field. lra. }
    destruct (decide (Datatypes.S k + 1 < n)%nat) as [Hin|Hout].
    + destruct (buildSystem_interior_rows h delta n (Datatypes.S k))
        as (Ea & Eb & Ec & _); [lia | exact Hin |].
      rewrite <- Hs0 in Ea, Eb, Ec.
      replace (Datatypes.S k - 1)%nat with k in Ea, Eb by lia.
      assert (Hhk : 0 < get h k) by (apply Hh; lia).
      assert (Hhk1 : 0 < get h (Datatypes.S k)) by (apply Hh; exact Hin).
      assert (Hbound : get (StrategyB.sub_diag s0) (Datatypes.S k) * (get (StrategyB.super_diag s0) k / get (StrategyB.diag s) k)
                       <= get h k).
      { rewrite Ea. 
        setoid_replace (get h k) with (get h k * 1) using relation Qeq at 2 by ring.
        apply Qmult_le_l; [exact Hhk | exact Hfrac]. }
      change ((get (StrategyB.diag s0) (Datatypes.S k) - w * get (StrategyB.super_diag s0) k)%js)
        with (get (StrategyB.diag s0) (Datatypes.S k) - (w * get (StrategyB.super_diag s0) k)%js).
      rewrite Ew, Eb, Ec. split; [lra | intros _; lra].
    + destruct (buildSystem_boundary_rows h delta n Hn)
        as (_ & Hbl0 & _ & Hal0 & _).
      rewrite <- Hs0 in Hbl0, Hal0.
      replace (n - 1)%nat with (Datatypes.S k) in Hbl0, Hal0 by lia.
      change ((get (StrategyB.diag s0) (Datatypes.S k) - w * get (StrategyB.super_diag s0) k)%js)
        with (get (StrategyB.diag s0) (Datatypes.S k) - (w * get (StrategyB.super_diag s0) k)%js).
      rewrite Ew, Hbl0, Hal0. split; [|intros Hx; lia].
      change (lit 0) with 0. change (lit 1) with 1. lra.
  - rewrite !get_insert_other by lia. apply Hpos. lia.
Qed.

Lemma eliminated_after (k : nat) :
  (k + 1 <= n)%nat -> eliminated n s0 k (foldl forwardStep s0 (seq 1 k)).
Proof.
  induction k as [|k IH]; intros Hk.
  - exact eliminated_start.
  - rewrite seq_S, foldl_app. simpl. apply eliminated_step; [lia | apply IH; lia].
Qed.

Lemma substituted_step (s : StrategyB.system) (j : nat) (m : list Q) :
  (j + 2 < n + 1)%nat -> 0 < get (StrategyB.diag s) j ->
  substituted n s (Datatypes.S j) m -> substituted n s j (backStep s m j).
Proof.
  intros Hj Hpivot (Hlen & Hlast & Hrec). unfold backStep.
  assert (E : (get (StrategyB.diag s) j !== lit 0)%js = true).
  { apply negb_true_iff. destruct (get (StrategyB.diag s) j === lit 0)%js eqn:Ez;
      [|reflexivity].
    apply Q_eqb_eq in Ez. change (get (StrategyB.diag s) j == 0) in Ez. lra. }
  rewrite E. unfold substituted.
  split; [rewrite length_insert; exact Hlen|].
  split; [rewrite get_insert_other by lia; exact Hlast|].
  intros i Hi Hi'. destruct (decide (i = j)) as [->|Hne].
  - rewrite get_insert_same by lia. rewrite get_insert_other by lia. reflexivity.
  - rewrite !get_insert_other by lia. apply Hrec; lia.
Qed.

Lemma substituted_after (s : StrategyB.system) (k : nat) :
  (k + 1 <= n)%nat -> (forall j, (j < n)%nat -> 0 < get (StrategyB.diag s) j) ->
  substituted n s (n - 1 - k)
    (foldl (backStep s)
           (<[(n - 1)%nat := get (StrategyB.rhs s) (n - 1) / get (StrategyB.diag s) (n - 1)]>
              (replicate n (lit 0)))
           (rev (seq (n - 1 - k) k))).
Proof.
  intros Hk Hpos. induction k as [|k IH].
  - simpl. unfold substituted.
    split; [rewrite length_insert, length_replicate; reflexivity|].
    split; [apply get_insert_same; rewrite length_replicate; lia|].
    intros i Hi Hi'. lia.
  - replace (seq (n - 1 - Datatypes.S k) (Datatypes.S k))
      with ((n - 1 - Datatypes.S k)%nat :: seq (n - 1 - k) k).
    2:{ simpl. f_equal. f_equal. lia. }
    simpl rev. rewrite foldl_app. simpl.
    apply substituted_step; [lia | apply Hpos; lia |].
    replace (Datatypes.S (n - 1 - Datatypes.S k)) with (n - 1 - k)%nat by lia.
    apply IH. lia.
Qed.
End Elimination.
End Thomas.


Section Spline.
Local Open Scope Q_scope.

(** X6.  In exact arithmetic, for three or more rows and positive
    interval lengths, the elimination of Strategy B meets no zero
    pivot and its result solves the system of the natural cubic
    spline: [m[0] = 0], [m[n-1] = 0], and at every interior row
    [h[i-1] m[i-1] + 2 (h[i-1] + h[i]) m[i] + h[i] m[i+1]
     = 6 (delta[i] - delta[i-1])]. *)
Theorem strategyB_solves_the_spline_system (h delta : list Q) (n : nat) :
  (3 <= n)%nat -> (forall j, (j + 1 < n)%nat -> 0 < get h j) ->
  let m := StrategyB.backSubstitution
             (StrategyB.forwardElimination (StrategyB.buildSystem h delta n) n) n in
  get m 0 == 0 /\ get m (n - 1) == 0
  /\ forall i, (1 <= i)%nat -> (i + 1 < n)%nat ->
       get h (i - 1) * get m (i - 1) + 2 * (get h (i - 1) + get h i) * get m i
       + get h i * get m (i + 1)
       == 6 * (get delta i - get delta (i - 1)).
Proof.
  intros Hn Hh m.
  pose proof (eliminated_after h delta n Hn Hh _ eq_refl (n - 1) ltac:(lia)) as Helim.
  rewrite <- forwardElimination_unfold in Helim.
  set (s0 := StrategyB.buildSystem h delta n) in *.
  set (s := StrategyB.forwardElimination s0 n) in *.
  destruct Helim as (Ha & Hc & Hlb & Hld & _ & Hb0 & Hd0 & Hrec & Hpos).
  assert (Hpivot : forall j, (j < n)%nat -> 0 < get (StrategyB.diag s) j)
    by (intros j Hj; apply Hpos; lia).
  pose proof (substituted_after n Hn s (n - 1) ltac:(lia) Hpivot) as Hsub.
  replace (n - 1 - (n - 1))%nat with 0%nat in Hsub by lia.
  assert (Em : m = foldl (backStep s)
                     (<[(n - 1)%nat := get (StrategyB.rhs s) (n - 1)
                                       / get (StrategyB.diag s) (n - 1)]>
                        (replicate n (lit 0)))
                     (rev (seq 0 (n - 1)))).
  { unfold m. rewrite backSubstitution_unfold.
    assert (E : (get (StrategyB.diag s) (n - 1) !== lit 0)%js = true).
    { apply negb_true_iff.
      destruct (get (StrategyB.diag s) (n - 1) === lit 0)%js eqn:Ez; [|reflexivity].
      apply Q_eqb_eq in Ez. change (get (StrategyB.diag s) (n - 1) == 0) in Ez.
      pose proof (Hpivot (n - 1)%nat ltac:(lia)). lra. }
    rewrite E. reflexivity. }
  rewrite <- Em in Hsub. clearbody m. clear Em.
  destruct Hsub as (Hlen & Hlast & Hback).
  destruct (buildSystem_boundary_rows h delta n Hn)
    as (_ & Hbl & Hc0 & Hal & _ & Hdl & _ & _).
  fold s0 in Hbl, Hc0, Hal, Hdl.
  split; [|split].
  - rewrite (Hback 0%nat) by lia. rewrite Hb0, Hd0, Hc, Hc0.
    change (lit 0) with 0. field.
  - destruct (Hrec (n - 1)%nat ltac:(lia)) as [EB ED].
    assert (EB1 : get (StrategyB.diag s) (n - 1) == 1).
    { rewrite EB, Hbl, Hal. change (lit 0) with 0. change (lit 1) with 1.
      unfold Qdiv. ring. }
    assert (ED1 : get (StrategyB.rhs s) (n - 1) == 0).
    { rewrite ED, Hdl, Hal. change (lit 0) with 0. unfold Qdiv. ring. }
    rewrite Hlast, EB1, ED1. reflexivity.
  - intros i Hi1 Hi2.
    destruct (buildSystem_interior_rows h delta n i Hi1 Hi2) as (Ea & Eb & Ec & Ed).
    fold s0 in Ea, Eb, Ec, Ed.
    destruct (Hrec i ltac:(lia)) as [EB ED].
    pose proof (Hback (i - 1)%nat ltac:(lia) ltac:(lia)) as Eprev.
    replace (i - 1 + 1)%nat with i in Eprev by lia.
    pose proof (Hback i ltac:(lia) Hi2) as Ecur.
    pose proof (Hpivot (i - 1)%nat ltac:(lia)) as Hp1.
    pose proof (Hpivot i ltac:(lia)) as Hp2.
    rewrite Hc in Eprev, Ecur.
    rewrite <- Eb, <- Ed, <- Ea, <- Ec.
    set (A := get (StrategyB.sub_diag s0) i) in *.
    set (B0 := get (StrategyB.diag s0) i) in *.
    set (C := get (StrategyB.super_diag s0) i) in *.
    set (D0 := get (StrategyB.rhs s0) i) in *.
    set (Cp := get (StrategyB.super_diag s0) (i - 1)) in *.
    set (Bp := get (StrategyB.diag s) (i - 1)) in *.
    set (Dp := get (StrategyB.rhs s) (i - 1)) in *.
    set (B := get (StrategyB.diag s) i) in *.
    set (D := get (StrategyB.rhs s) i) in *.
    set (Mp := get m (i - 1)) in *. set (M := get m i) in *.
    set (Mn := get m (i + 1)) in *.
    assert (Z1 : Bp * Mp == Dp - Cp * M) by (rewrite Eprev; field; lra).
    assert (Z2 : B * M == D - C * Mn) by (rewrite Ecur; field; lra).
    assert (Z3 : B0 == B + A / Bp * Cp) by (rewrite EB; ring).
    assert (Z4 : D0 == D + A / Bp * Dp) by (rewrite ED; ring).
    assert (Z5 : A == A / Bp * Bp) by (field; lra).
    rewrite Z3, Z4.
    setoid_replace (A * Mp + (B + A / Bp * Cp) * M + C * Mn)
      with (A / Bp * (Bp * Mp) + B * M + A / Bp * Cp * M + C * Mn
            + (A - A / Bp * Bp) * Mp) using relation Qeq by ring.
    rewrite Z1, Z2, <- Z5. ring.
Qed.

Lemma four_h_positive (j : nat) : (j + 1 < 4)%nat -> (0 < get four_h j)%Q.
Proof.
  intros Hj. do 3 (try (destruct j as [|j]; [reflexivity|])). lia.
Qed.

Lemma strategyB_solves_the_spline_system_witness :
  (get (StrategyB.backSubstitution
          (StrategyB.forwardElimination (StrategyB.buildSystem four_h four_delta 4) 4) 4)
       0 == 0)%Q
  /\ (get (StrategyB.backSubstitution
             (StrategyB.forwardElimination (StrategyB.buildSystem four_h four_delta 4) 4) 4)
          (4 - 1) == 0)%Q
  /\ forall i, (1 <= i)%nat -> (i + 1 < 4)%nat ->
       (get four_h (i - 1)
        * get (StrategyB.backSubstitution
                 (StrategyB.forwardElimination (StrategyB.buildSystem four_h four_delta 4) 4) 4)
              (i - 1)
        + 2 * (get four_h (i - 1) + get four_h i)
          * get (StrategyB.backSubstitution
                   (StrategyB.forwardElimination (StrategyB.buildSystem four_h four_delta 4) 4) 4)
                i
        + get four_h i
          * get (StrategyB.backSubstitution
                   (StrategyB.forwardElimination (StrategyB.buildSystem four_h four_delta 4) 4) 4)
                (i + 1)
        == 6 * (get four_delta i - get four_delta (i - 1)))%Q.
Proof.
  apply (strategyB_solves_the_spline_system four_h four_delta 4);
    [lia | exact four_h_positive].
Defined.

End Spline.

(* ================================================================= *)
(** * 13. Further properties of the dataset loader *)
(* ================================================================= *)

Section FloatOrder.

Lemma SFleb_trans a b c :
  SFleb a b = true -> SFleb b c = true -> SFleb a c = true.
Proof. unfold SFleb, SFcompare. sf_cases; sf_compare. Qed.

Lemma SFeqb_SFleb a : SFeqb a a = true -> SFleb a a = true.
Proof. unfold SFeqb, SFleb. destruct (SFcompare a a) as [[]|]; congruence. Qed.

Lemma SFleb_infinity a : SFeqb a a = true -> SFleb a (S754_infinity false) = true.
Proof. unfold SFeqb, SFleb, SFcompare. sf_cases. Qed.

Lemma SFleb_neg_infinity a : SFeqb a a = true -> SFleb (S754_infinity true) a = true.
Proof. unfold SFeqb, SFleb, SFcompare. sf_cases. Qed.

Lemma float_leb_trans (a b c : float) :
  PrimFloat.leb a b = true -> PrimFloat.leb b c = true -> PrimFloat.leb a c = true.
Proof. rewrite !FloatAxioms.leb_spec. apply SFleb_trans. Qed.

Lemma float_leb_refl (a : float) : PrimFloat.is_nan a = false -> PrimFloat.leb a a = true.
Proof.
  unfold PrimFloat.is_nan. intros E. apply negb_false_iff in E. revert E.
  rewrite FloatAxioms.eqb_spec, FloatAxioms.leb_spec. apply SFeqb_SFleb.
Qed.

Lemma float_leb_infinity (a : float) :
  PrimFloat.is_nan a = false -> PrimFloat.leb a PrimFloat.infinity = true.
Proof.
  unfold PrimFloat.is_nan. intros E. apply negb_false_iff in E. revert E.
  rewrite FloatAxioms.eqb_spec, FloatAxioms.leb_spec. apply SFleb_infinity.
Qed.

Lemma float_leb_neg_infinity (a : float) :
  PrimFloat.is_nan a = false -> PrimFloat.leb PrimFloat.neg_infinity a = true.
Proof.
  unfold PrimFloat.is_nan. intros E. apply negb_false_iff in E. revert E.
  rewrite FloatAxioms.eqb_spec, FloatAxioms.leb_spec. apply SFleb_neg_infinity.
Qed.

Lemma float_ltb_leb (a b : float) : PrimFloat.ltb a b = true -> PrimFloat.leb a b = true.
Proof. rewrite FloatAxioms.ltb_spec, FloatAxioms.leb_spec. apply SFltb_SFleb. Qed.

Lemma float_leb_total (a b : float) :
  PrimFloat.is_nan a = false -> PrimFloat.is_nan b = false ->
  PrimFloat.ltb a b = false -> PrimFloat.leb b a = true.
Proof.
  intros Ha Hb. apply float_leb_refl in Ha, Hb. revert Ha Hb.
  rewrite FloatAxioms.ltb_spec, !FloatAxioms.leb_spec. apply SFleb_total.
Qed.
End FloatOrder.

Section Bounds.
Import DataLoader.

Lemma mathMin_spec (a b : float) :
  PrimFloat.is_nan a = false -> PrimFloat.is_nan b = false ->
  (mathMin a b = a \/ mathMin a b = b)
  /\ PrimFloat.leb (mathMin a b) a = true /\ PrimFloat.leb (mathMin a b) b = true.
Proof.
  intros Ha Hb. unfold mathMin. rewrite Ha, Hb. simpl.
  destruct (PrimFloat.ltb a b) eqn:Eab.
  - split; [auto|]. split; [apply float_leb_refl; exact Ha | apply float_ltb_leb; exact Eab].
  - destruct (PrimFloat.ltb b a) eqn:Eba.
    + split; [auto|]. split; [apply float_ltb_leb; exact Eba | apply float_leb_refl; exact Hb].
    + pose proof (float_leb_total a b Ha Hb Eab) as Lba.
      pose proof (float_leb_total b a Hb Ha Eba) as Lab.
      destruct (PrimFloat.get_sign a).
      * split; [auto|]. split; [apply float_leb_refl; exact Ha | exact Lab].
      * split; [auto|]. split; [exact Lba | apply float_leb_refl; exact Hb].
Qed.

Lemma mathMax_spec (a b : float) :
  PrimFloat.is_nan a = false -> PrimFloat.is_nan b = false ->
  (mathMax a b = a \/ mathMax a b = b)
  /\ PrimFloat.leb a (mathMax a b) = true /\ PrimFloat.leb b (mathMax a b) = true.
Proof.
  intros Ha Hb. unfold mathMax. rewrite Ha, Hb. simpl.
  destruct (PrimFloat.ltb a b) eqn:Eab.
  - split; [auto|]. split; [apply float_ltb_leb; exact Eab | apply float_leb_refl; exact Hb].
  - destruct (PrimFloat.ltb b a) eqn:Eba.
    + split; [auto|]. split; [apply float_leb_refl; exact Ha | apply float_ltb_leb; exact Eba].
    + pose proof (float_leb_total a b Ha Hb Eab) as Lba.
      pose proof (float_leb_total b a Hb Ha Eba) as Lab.
      destruct (PrimFloat.get_sign a).
      * split; [auto|]. split; [exact Lab | apply float_leb_refl; exact Hb].
      * split; [auto|]. split; [apply float_leb_refl; exact Ha | exact Lba].
Qed.

(** ** The stack visits every coordinate pair *)

Lemma weight_positive (c : Json) : 1 <= weight c.
Proof. destruct c; simpl; lia. Qed.

Lemma list_sum_rev (l : list nat) : list_sum (rev l) = list_sum l.
Proof.
  induction l as [|a l IH]; [reflexivity|].
  simpl. rewrite list_sum_app, IH. simpl. lia.
Qed.

Lemma visit_array (items : list Json) :
  asPair items = None -> visit (JsonArray items) = flat_map visit (rev items).
Proof.
  intros E. simpl. rewrite E. rewrite flat_map_concat_map, map_rev. reflexivity.
Qed.

Lemma drain_visits (fuel : nat) (stack : list Json) (b : Bounds) :
  list_sum (map weight stack) <= fuel ->
  drain fuel stack b = extendAll b (flat_map visit stack).
Proof.
  revert stack b. induction fuel as [|fuel IH]; intros stack b Hfuel.
  - destruct stack as [|c stack]; [reflexivity|].
    simpl in Hfuel. pose proof (weight_positive c). lia.
  - destruct stack as [|c stack]; [reflexivity|].
    destruct c as [v|items|].
    + simpl in *. apply IH. lia.
    + cbn [drain]. destruct (asPair items) as [[lng lat]|] eqn:E.
      * rewrite IH by (simpl in Hfuel; lia).
        cbn [flat_map]. simpl visit. rewrite E. reflexivity.
      * rewrite IH.
        -- cbn [flat_map]. rewrite (visit_array items E), flat_map_app. reflexivity.
        -- rewrite map_app, list_sum_app, map_rev, list_sum_rev.
           simpl in Hfuel. lia.
    + simpl in *. apply IH. lia.
Qed.

Lemma extendAll_app (b : Bounds) (l1 l2 : list (float * float)) :
  extendAll b (l1 ++ l2) = extendAll (extendAll b l1) l2.
Proof. apply foldl_app. Qed.

Lemma calculateBounds_extendAll (geojson : GeoJson) :
  calculateBounds geojson = extendAll noBounds (positions geojson).
Proof.
  unfold calculateBounds, positions. generalize noBounds.
  induction (geometriesOf geojson) as [|g gs IH]; intros b; [reflexivity|].
  cbn [foldl flat_map]. rewrite extendAll_app, IH. f_equal.
  destruct (coordinates g) as [coords|]; [|reflexivity].
  rewrite drain_visits by (simpl; lia). simpl. rewrite app_nil_r. reflexivity.
Qed.

(** X7.  The stack traversal of [calculateBounds] visits every
    coordinate pair of the document: a pair is an array starting with
    two numbers, found at any depth of nesting in the [coordinates] of
    any geometry; the result is the running minimum and maximum over
    exactly those pairs, and the sentinel
    [[Infinity, Infinity, -Infinity, -Infinity]] when there is none. *)
Theorem calculateBounds_visits_every_position (geojson : GeoJson) :
  calculateBounds geojson = extendAll noBounds (positions geojson)
  /\ (positions geojson = [] -> calculateBounds geojson = noBounds).
Proof.
  split; [apply calculateBounds_extendAll|].
  intros Hnone. rewrite calculateBounds_extendAll, Hnone. reflexivity.
Qed.

Lemma extend_spec (b : Bounds) (p : float * float) :
  boundsAreNumbers b -> numbers p ->
  let b' := extend b (fst p) (snd p) in
  boundsAreNumbers b' /\ widens b b' /\ inside b' p
  /\ (minLat b' = minLat b \/ minLat b' = snd p)
  /\ (maxLat b' = maxLat b \/ maxLat b' = snd p)
  /\ (minLng b' = minLng b \/ minLng b' = fst p)
  /\ (maxLng b' = maxLng b \/ maxLng b' = fst p).
Proof.
  intros (B1 & B2 & B3 & B4) (P1 & P2). unfold extend. simpl.
  destruct (mathMin_spec (minLat b) (snd p) B1 P2) as (O1 & L1 & L1').
  destruct (mathMin_spec (minLng b) (fst p) B2 P1) as (O2 & L2 & L2').
  destruct (mathMax_spec (maxLat b) (snd p) B3 P2) as (O3 & L3 & L3').
  destruct (mathMax_spec (maxLng b) (fst p) B4 P1) as (O4 & L4 & L4').
  split; [|split; [|split]].
  - unfold boundsAreNumbers. simpl.
    repeat split;
      [destruct O1 as [-> | ->] | destruct O2 as [-> | ->]
       | destruct O3 as [-> | ->] | destruct O4 as [-> | ->]]; assumption.
  - unfold widens. simpl. auto.
  - unfold inside. simpl. auto.
  - auto.
Qed.

Lemma widens_inside (b b' : Bounds) (p : float * float) :
  widens b b' -> inside b p -> inside b' p.
Proof.
  intros (W1 & W2 & W3 & W4) (I1 & I2 & I3 & I4). unfold inside.
  repeat split; eapply float_leb_trans; eassumption.
Qed.

Lemma widens_trans (b1 b2 b3 : Bounds) : widens b1 b2 -> widens b2 b3 -> widens b1 b3.
Proof.
  intros (W1 & W2 & W3 & W4) (V1 & V2 & V3 & V4). unfold widens.
  repeat split; eapply float_leb_trans; eassumption.
Qed.

Lemma extendAll_spec (l : list (float * float)) (b : Bounds) :
  boundsAreNumbers b -> Forall numbers l ->
  let b' := extendAll b l in
  boundsAreNumbers b' /\ (boundsAreNumbers b -> widens b b')
  /\ (forall p, In p l -> inside b' p)
  /\ (minLat b' = minLat b \/ exists p, In p l /\ minLat b' = snd p)
  /\ (maxLat b' = maxLat b \/ exists p, In p l /\ maxLat b' = snd p)
  /\ (minLng b' = minLng b \/ exists p, In p l /\ minLng b' = fst p)
  /\ (maxLng b' = maxLng b \/ exists p, In p l /\ maxLng b' = fst p).
Proof.
  revert b. induction l as [|p l IH]; intros b Hb Hl.
  - simpl. split; [exact Hb|]. split.
    + intros (B1 & B2 & B3 & B4). unfold widens.
      repeat split; apply float_leb_refl; assumption.
    + split; [intros p []|]. auto.
  - apply Forall_cons in Hl as [Hp Hl].
    destruct (extend_spec b p Hb Hp) as (Hb1 & W1 & I1 & A1 & A2 & A3 & A4).
    destruct (IH _ Hb1 Hl) as (Hb2 & W2 & I2 & C1 & C2 & C3 & C4).
    assert (E : extendAll b (p :: l) = extendAll (extend b (fst p) (snd p)) l)
      by (destruct p; reflexivity).
    cbv zeta. rewrite E. clear E. split; [exact Hb2|]. split; [|split].
    + intros _. eapply widens_trans; [exact W1 | exact (W2 Hb1)].
    + intros q [<-|Hq]; [|exact (I2 q Hq)].
      eapply widens_inside; [exact (W2 Hb1) | exact I1].
    + repeat split.
      * destruct C1 as [->|(q & Hq & ->)]; [|right; exists q; simpl; auto].
        destruct A1 as [->| ->]; [left; reflexivity | right; exists p; simpl; auto].
      * destruct C2 as [->|(q & Hq & ->)]; [|right; exists q; simpl; auto].
        destruct A2 as [->| ->]; [left; reflexivity | right; exists p; simpl; auto].
      * destruct C3 as [->|(q & Hq & ->)]; [|right; exists q; simpl; auto].
        destruct A3 as [->| ->]; [left; reflexivity | right; exists p; simpl; auto].
      * destruct C4 as [->|(q & Hq & ->)]; [|right; exists q; simpl; auto].
        destruct A4 as [->| ->]; [left; reflexivity | right; exists p; simpl; auto].
Qed.

(** X8.  When no coordinate of the document is NaN, the box
    [calculateBounds] returns encloses every coordinate pair
    ([minLat <= lat <= maxLat] and [minLng <= lng <= maxLng]) and is
    tight: when there is a pair at all, each side of the box is
    reached by some pair. *)
Theorem calculateBounds_encloses_positions (geojson : GeoJson) :
  Forall numbers (positions geojson) ->
  let b := calculateBounds geojson in
  (forall lng lat, In (lng, lat) (positions geojson) ->
     PrimFloat.leb (minLat b) lat = true /\ PrimFloat.leb lat (maxLat b) = true
     /\ PrimFloat.leb (minLng b) lng = true /\ PrimFloat.leb lng (maxLng b) = true)
  /\ (positions geojson <> [] ->
      exists south north west east,
        In south (positions geojson) /\ In north (positions geojson)
        /\ In west (positions geojson) /\ In east (positions geojson)
        /\ PrimFloat.leb (snd south) (minLat b) = true
        /\ PrimFloat.leb (maxLat b) (snd north) = true
        /\ PrimFloat.leb (fst west) (minLng b) = true
        /\ PrimFloat.leb (maxLng b) (fst east) = true).
Proof.
  intros Hnum b.
  assert (Hb : b = extendAll noBounds (positions geojson))
    by apply calculateBounds_extendAll.
  assert (Hno : boundsAreNumbers noBounds) by (repeat split).
  destruct (extendAll_spec (positions geojson) noBounds Hno Hnum)
    as (Hb' & _ & Hin & A1 & A2 & A3 & A4).
  rewrite <- Hb in Hb', Hin, A1, A2, A3, A4. clearbody b.
  split.
  - intros lng lat Hp. exact (Hin _ Hp).
  - intros Hne. destruct (positions geojson) as [|p0 ps] eqn:Eps; [congruence|].
    apply Forall_cons in Hnum as [[Hp1 Hp2] _].
    assert (H0 : In p0 (p0 :: ps)) by (left; reflexivity).
    assert (S1 : exists south, In south (p0 :: ps)
                               /\ PrimFloat.leb (snd south) (minLat b) = true).
    { destruct A1 as [E|(q & Hq & E)]; rewrite E.
      - exists p0. split; [exact H0 | apply float_leb_infinity; exact Hp2].
      - exists q. split; [exact Hq | apply float_leb_refl; rewrite <- E; apply Hb']. }
    assert (S2 : exists north, In north (p0 :: ps)
                               /\ PrimFloat.leb (maxLat b) (snd north) = true).
    { destruct A2 as [E|(q & Hq & E)]; rewrite E.
      - exists p0. split; [exact H0 | apply float_leb_neg_infinity; exact Hp2].
      - exists q. split; [exact Hq | apply float_leb_refl; rewrite <- E; apply Hb']. }
    assert (S3 : exists west, In west (p0 :: ps)
                              /\ PrimFloat.leb (fst west) (minLng b) = true).
    { destruct A3 as [E|(q & Hq & E)]; rewrite E.
      - exists p0. split; [exact H0 | apply float_leb_infinity; exact Hp1].
      - exists q. split; [exact Hq | apply float_leb_refl; rewrite <- E; apply Hb']. }
    assert (S4 : exists east, In east (p0 :: ps)
                              /\ PrimFloat.leb (maxLng b) (fst east) = true).
    { destruct A4 as [E|(q & Hq & E)]; rewrite E.
      - exists p0. split; [exact H0 | apply float_leb_neg_infinity; exact Hp1].
      - exists q. split; [exact Hq | apply float_leb_refl; rewrite <- E; apply Hb']. }
    destruct S1 as (south & Hs & Ls), S2 as (north & Hn & Ln),
             S3 as (west & Hw & Lw), S4 as (east & He & Le).
    exists south, north, west, east. auto 10.
Qed.

Lemma calculateBounds_encloses_positions_witness :
  PrimFloat.leb (minLat (calculateBounds triangle)) 37 = true
  /\ PrimFloat.leb 37 (maxLat (calculateBounds triangle)) = true
  /\ PrimFloat.leb (minLng (calculateBounds triangle)) (-113.5) = true
  /\ PrimFloat.leb (-113.5) (maxLng (calculateBounds triangle)) = true.
Proof.
  assert (Hnum : Forall numbers (positions triangle)).
  { vm_compute. repeat constructor. }
  apply (proj1 (calculateBounds_encloses_positions triangle Hnum) (-113.5)%float 37%float).
  vm_compute. auto.
Defined.

End Bounds.

Section Trim.

Lemma trimEnd_idempotent (s : string) : trimEnd (trimEnd s) = trimEnd s.
Proof.
  induction s as [|c s IH]; simpl; [reflexivity|].
  destruct (trimEnd s) as [|d r] eqn:E.
  - destruct (isWhiteSpace c) eqn:W; simpl; [reflexivity|]. rewrite W. reflexivity.
  - change (trimEnd (String c (String d r))) with
      (match trimEnd (String d r) with
       | EmptyString => if isWhiteSpace c then EmptyString else String c EmptyString
       | r' => String c r'
       end).
    rewrite IH. reflexivity.
Qed.

Lemma trimStart_no_leading (s : string) :
  match trimStart s with
  | String c _ => isWhiteSpace c = false
  | EmptyString => True
  end.
Proof.
  induction s as [|c s IH]; simpl; [exact I|].
  destruct (isWhiteSpace c) eqn:W; [exact IH | exact W].
Qed.

Lemma trimEnd_head (c : ascii) (s : string) :
  isWhiteSpace c = false -> exists r, trimEnd (String c s) = String c r.
Proof.
  intros W. simpl. destruct (trimEnd s); [rewrite W|]; eexists; reflexivity.
Qed.

Lemma trim_idempotent (s : string) : trim (trim s) = trim s.
Proof.
  unfold trim. pose proof (trimStart_no_leading s) as Hs.
  destruct (trimStart s) as [|c u]; [reflexivity|].
  destruct (trimEnd_head c u Hs) as (r & E).
  rewrite E. replace (trimStart (String c r)) with (String c r) by (simpl; rewrite Hs; reflexivity).
  rewrite <- E. apply trimEnd_idempotent.
Qed.

Lemma orEmpty_trim_trimmed (v : option string) :
  trim (orEmpty (trim <$> v)) = orEmpty (trim <$> v).
Proof.
  unfold orEmpty. destruct v as [s|]; simpl; [|reflexivity].
  destruct (negb _); [apply trim_idempotent | reflexivity].
Qed.
End Trim.

Section ParsedRows.
Import DataLoader.

Lemma rowOf_from (headers values : list string) (g : nat -> nat) (row0 : Row) :
  let row := foldl (fun (row : Row) '(idx, header) =>
                      if String.eqb header "__proto__" then row
                      else <[header := orEmpty (trim <$> values !! idx)]> row)
                   row0 (imap (fun idx header => (g idx, header)) headers) in
  dom row = dom row0 ∪ list_to_set (filter (fun h => h <> "__proto__") headers)
  /\ (forall k v, row !! k = Some v ->
        row0 !! k = Some v \/ exists idx, v = orEmpty (trim <$> values !! idx)).
Proof.
  revert g row0. induction headers as [|h headers IH]; intros g row0; simpl.
  - split; [set_solver | auto].
  - destruct (String.eqb_spec h "__proto__") as [->|Hh].
    + rewrite filter_cons_False by (intros Hne; apply Hne; reflexivity).
      apply (IH (g ∘ S) row0).
    + rewrite filter_cons_True by exact Hh.
      destruct (IH (g ∘ S) (<[h := orEmpty (trim <$> values !! g 0)]> row0))
        as [Hdom Hval].
      split.
      * etransitivity; [exact Hdom|]. rewrite dom_insert_L. set_solver.
      * intros k v Hk. destruct (Hval k v Hk) as [H0|H1]; [|right; exact H1].
        destruct (decide (h = k)) as [->|Hne].
        -- rewrite lookup_insert_eq in H0. injection H0 as <-. right. eexists. reflexivity.
        -- rewrite lookup_insert_ne in H0 by exact Hne. left. exact H0.
Qed.

Lemma rowOf_shape (headers values : list string) :
  dom (rowOf headers values)
  = list_to_set (filter (fun h => h <> "__proto__") headers)
  /\ (forall k v, rowOf headers values !! k = Some v -> trim v = v).
Proof.
  destruct (rowOf_from headers values (fun i => i) ∅) as [Hdom Hval].
  split.
  - etransitivity; [exact Hdom|]. set_solver.
  - intros k v Hk. destruct (Hval k v Hk) as [H0|(idx & ->)].
    + rewrite lookup_empty in H0. discriminate.
    + apply orEmpty_trim_trimmed.
Qed.

Lemma parseCSV_rows (text : string) :
  snd (DataManager.parseCSV text) = parseCSV text.
Proof.
  unfold DataManager.parseCSV, parseCSV.
  destruct (filter _ (split "010" text)) as [|l0 [|l1 ls]]; reflexivity.
Qed.
End ParsedRows.

(** X9.  The parser of the import wizard and the parser of the
    loader read the same rows from every text; and whenever the
    loader finds a row, the wizard has found headers. *)
Theorem parseCSV_parsers_agree (text : string) :
  snd (DataManager.parseCSV text) = DataLoader.parseCSV text
  /\ (DataLoader.parseCSV text <> [] -> fst (DataManager.parseCSV text) <> []).
Proof.
  split; [apply parseCSV_rows|].
  unfold DataManager.parseCSV, DataLoader.parseCSV.
  destruct (filter _ (split "010" text)) as [|l0 [|l1 ls]]; simpl; try congruence.
  intros _. destruct (split _ l0) eqn:E; [|discriminate].
  exfalso. revert E. generalize (if includes "009" l0 then "009"%char else ","%char).
  intros a E. clear -E. destruct l0 as [|c l0]; simpl in E; [discriminate|].
  destruct (Ascii.eqb c a); [discriminate|]. destruct (split a l0); discriminate.
Qed.

(** X10.  Every row parsed from a text has as its columns exactly
    the headers other than [__proto__] (a header of that name gives a
    row no column), however many cells its line holds (a missing cell
    reads as the empty text, a surplus cell is dropped); headers and
    cells carry no white space at either end. *)
Theorem parseCSV_rows_have_the_header_columns (text : string) :
  let headers := fst (DataManager.parseCSV text) in
  Forall (fun h => trim h = h) headers
  /\ Forall (fun row : Row =>
               dom row = list_to_set (filter (fun h => h <> "__proto__") headers)
               /\ forall k v, row !! k = Some v -> trim v = v)
            (DataLoader.parseCSV text).
Proof.
  unfold DataManager.parseCSV, DataLoader.parseCSV.
  destruct (filter _ (split "010" text)) as [|l0 [|l1 ls]]; simpl.
  - split; constructor.
  - split; [|constructor]. apply Forall_map, Forall_forall. intros h _. apply trim_idempotent.
  - split; [apply Forall_map, Forall_forall; intros h _; apply trim_idempotent|].
    apply Forall_cons. split; [apply rowOf_shape|].
    apply Forall_map, Forall_forall. intros l _. apply rowOf_shape.
Qed.

(** A header named [__proto__] gives the rows no column. *)
Example parseCSV_proto_header_gives_no_column :
  DataLoader.parseCSV ("__proto__,a" +:+ newline +:+ "x,1") = [ {[ "a" := "1" ]} ].
Proof. vm_compute. reflexivity. Qed.

Section SplitJoin.

Lemma split_nonempty (sep : ascii) (s : string) :
  exists p ps, split sep s = p :: ps.
Proof.
  destruct s as [|c s]; simpl; [eauto|].
  destruct (Ascii.eqb c sep); [eauto|]. destruct (split sep s); eauto.
Qed.

Lemma split_app (sep : ascii) (a b : string) :
  split sep (a +:+ String sep b) = split sep a ++ split sep b.
Proof.
  induction a as [|c a IH]; simpl.
  - rewrite Ascii.eqb_refl. reflexivity.
  - destruct (Ascii.eqb c sep); [rewrite IH; reflexivity|].
    change (String.app a (String sep b)) with (a +:+ String sep b).
    rewrite IH. destruct (split_nonempty sep a) as (p & ps & ->). reflexivity.
Qed.

Lemma split_plain (sep : ascii) (s : string) :
  includes sep s = false -> split sep s = [s].
Proof.
  induction s as [|c s IH]; simpl; [reflexivity|].
  intros E. apply orb_false_iff in E as [Ec Es].
  rewrite Ec, (IH Es). reflexivity.
Qed.

Lemma includes_app (c : ascii) (a b : string) :
  includes c (a +:+ b) = includes c a || includes c b.
Proof.
  induction a as [|d a IH]; simpl; [reflexivity|].
  change (String.app a b) with (a +:+ b). rewrite IH, orb_assoc. reflexivity.
Qed.

Lemma split_join (sep : ascii) (lines : list string) :
  lines <> [] -> Forall (fun l => includes sep l = false) lines ->
  split sep (join (String sep "") lines) = lines.
Proof.
  intros Hne Hall. induction Hall as [|l lines Hl Hall IH]; [congruence|].
  destruct lines as [|l' lines].
  - simpl. apply split_plain. exact Hl.
  - change (join (String sep "") (l :: l' :: lines))
      with (l +:+ String sep (join (String sep "") (l' :: lines))).
    rewrite split_app, (split_plain _ _ Hl), IH by discriminate. reflexivity.
Qed.

Lemma trimStart_blank (s : string) :
  trimStart s = "" -> forall c, includes c s = true -> isWhiteSpace c = true.
Proof.
  induction s as [|d s IH]; simpl; [discriminate|].
  destruct (isWhiteSpace d) eqn:W; [|discriminate].
  intros E c Hc. apply orb_true_iff in Hc as [Hd|Hs].
  - apply Ascii.eqb_eq in Hd. subst d. exact W.
  - apply IH; assumption.
Qed.

Lemma trimEnd_blank (s : string) :
  trimEnd s = "" -> forall c, includes c s = true -> isWhiteSpace c = true.
Proof.
  induction s as [|d s IH]; simpl; [discriminate|].
  destruct (trimEnd s) eqn:E; [|discriminate].
  destruct (isWhiteSpace d) eqn:W; [|discriminate].
  intros _ c Hc. apply orb_true_iff in Hc as [Hd|Hs].
  - apply Ascii.eqb_eq in Hd. subst d. exact W.
  - apply IH; [reflexivity | exact Hs].
Qed.

Lemma includes_trimStart (c : ascii) (s : string) :
  isWhiteSpace c = false -> includes c (trimStart s) = includes c s.
Proof.
  intros W. induction s as [|d s IH]; simpl; [reflexivity|].
  destruct (isWhiteSpace d) eqn:Wd; [|reflexivity].
  rewrite IH. destruct (Ascii.eqb_spec d c) as [->|]; [congruence | reflexivity].
Qed.

(** A line that holds a character other than white space is not blank. *)
Lemma trim_not_blank (c : ascii) (s : string) :
  isWhiteSpace c = false -> includes c s = true -> trim s <> "".
Proof.
  intros W Hc E. unfold trim in E.
  pose proof (trimEnd_blank _ E c) as Hb.
  rewrite includes_trimStart in Hb by exact W.
  rewrite (Hb Hc) in W. discriminate.
Qed.
End SplitJoin.

Section RoundTrip.
Import DataLoader.

Lemma filter_all {A} (P : A -> Prop) `{forall a, Decision (P a)} (l : list A) :
  Forall P l -> filter P l = l.
Proof.
  induction 1 as [|a l Ha Hl IH]; [reflexivity|].
  rewrite filter_cons_True by exact Ha. rewrite IH. reflexivity.
Qed.

Lemma csvLine_not_blank (a b c d : string) : trim (csvLine a b c d) <> "".
Proof.
  apply (trim_not_blank ","); [reflexivity|].
  unfold csvLine. rewrite includes_app. simpl. apply orb_true_r.
Qed.

Lemma csvLine_one_line (a b c d : string) :
  plainCell a -> plainCell b -> plainCell c -> plainCell d ->
  includes "010" (csvLine a b c d) = false.
Proof.
  intros [_ Ha] [_ Hb] [_ Hc] [_ Hd]. unfold csvLine.
  rewrite !includes_app, Ha, Hb, Hc, Hd. reflexivity.
Qed.

Lemma split_csvLine (a b c d : string) :
  plainCell a -> plainCell b -> plainCell c -> plainCell d ->
  split "," (csvLine a b c d) = [a; b; c; d].
Proof.
  intros [Ha _] [Hb _] [Hc _] [Hd _]. unfold csvLine.
  change (a +:+ "," +:+ b +:+ "," +:+ c +:+ "," +:+ d)
    with (a +:+ String "," (b +:+ String "," (c +:+ String "," d))).
  rewrite !split_app, !split_plain by assumption. reflexivity.
Qed.

Lemma orEmpty_Some (s : string) : orEmpty (Some s) = s.
Proof.
  unfold orEmpty. simpl. destruct (String.eqb_spec s ""); simpl; congruence.
Qed.

(** Reading back a table written with a four-column header line. *)
Lemma parseCSV_exported (header : string) (k1 k2 k3 k4 : string)
    (lines : list (string * string * string * string)) :
  includes "010" header = false -> includes "009" header = false ->
  trim header <> "" ->
  map trim (split "," header) = [k1; k2; k3; k4] ->
  Forall (fun '(a, b, c, d) => plainCell a /\ plainCell b /\ plainCell c /\ plainCell d)
         lines ->
  parseCSV (header +:+ String "010" ""
            +:+ join (String "010" "")
                  (map (fun '(a, b, c, d) => csvLine a b c d) lines))
  = map (fun '(a, b, c, d) => rowOf [k1; k2; k3; k4] [a; b; c; d]) lines.
Proof.
  intros Hnl Htab Hblank Hkeys Hall. unfold parseCSV.
  change (header +:+ String "010" "" +:+ ?j) with (header +:+ String "010" j).
  rewrite split_app, (split_plain _ _ Hnl). simpl app.
  rewrite filter_cons_True by exact Hblank.
  destruct lines as [|l lines].
  - reflexivity.
  - rewrite split_join.
    2:{ discriminate. }
    2:{ apply Forall_map. eapply Forall_impl; [exact Hall|].
        intros [[[a b] c] d] (Ha & Hb & Hc & Hd). apply csvLine_one_line; assumption. }
    rewrite filter_all.
    2:{ apply Forall_map, Forall_forall. intros [[[a b] c] d] _. apply csvLine_not_blank. }
    cbn [length map Nat.ltb Nat.leb head tail default from_option]. unfold Datatypes.id.
    rewrite Htab, Hkeys.
    change (map (fun line => rowOf [k1; k2; k3; k4] (split "," line))
                (map (fun '(a, b, c, d) => csvLine a b c d) (l :: lines))
            = map (fun '(a, b, c, d) => rowOf [k1; k2; k3; k4] [a; b; c; d]) (l :: lines)).
    rewrite map_map.
    induction Hall as [|[[[a b] c] d] ls' (Ha & Hb & Hc & Hd) Hall IH]; [reflexivity|].
    simpl. rewrite IH. f_equal. rewrite split_csvLine by assumption. reflexivity.
Qed.
End RoundTrip.

Section RoundTripTheorems.
Import DataLoader.

Lemma rowOf_four (k1 k2 k3 k4 a b c d : string) :
  k1 <> "__proto__" -> k2 <> "__proto__" -> k3 <> "__proto__" -> k4 <> "__proto__" ->
  rowOf [k1; k2; k3; k4] [a; b; c; d] = rowOfCells k1 k2 k3 k4 a b c d.
Proof.
  intros H1 H2 H3 H4. apply String.eqb_neq in H1, H2, H3, H4.
  unfold rowOf, rowOfCells. simpl. rewrite H1, H2, H3, H4, !orEmpty_Some. reflexivity.
Qed.

Lemma parseCSV_wellsCsv (ws : list DataManager.CanonicalWell) :
  Forall plainWell ws ->
  parseCSV (DataManager.wellsCsv ws)
  = map (fun w => rowOfCells "well_id" "lat" "long" "aquifer_id"
                    (DataManager.well_id w) (DataManager.lat w)
                    (DataManager.long w) (DataManager.aquifer_id w)) ws.
Proof.
  intros Hall. unfold DataManager.wellsCsv.
  pose proof (parseCSV_exported "well_id,lat,long,aquifer_id"
                "well_id" "lat" "long" "aquifer_id"
                (map (fun w => (DataManager.well_id w, DataManager.lat w,
                                DataManager.long w, DataManager.aquifer_id w)) ws)) as E.
  rewrite !map_map in E. etransitivity; [etransitivity; [|apply E]|].
  - reflexivity.
  - reflexivity.
  - reflexivity.
  - discriminate.
  - reflexivity.
  - apply Forall_map. exact Hall.
  - apply map_ext. intros w. apply rowOf_four; discriminate.
Qed.

Lemma parseCSV_waterLevelsCsv (ms : list DataManager.CanonicalMeasurement) :
  Forall plainMeasurement ms ->
  parseCSV (DataManager.waterLevelsCsv ms)
  = map (fun m => rowOfCells "well_id" "date" "wte" "aquifer_id"
                    (DataManager.m_well_id m) (DataManager.m_date m)
                    (DataManager.m_wte m) (DataManager.m_aquifer_id m)) ms.
Proof.
  intros Hall. unfold DataManager.waterLevelsCsv.
  pose proof (parseCSV_exported "well_id,date,wte,aquifer_id"
                "well_id" "date" "wte" "aquifer_id"
                (map (fun m => (DataManager.m_well_id m, DataManager.m_date m,
                                DataManager.m_wte m, DataManager.m_aquifer_id m)) ms)) as E.
  rewrite !map_map in E. etransitivity; [etransitivity; [|apply E]|].
  - reflexivity.
  - reflexivity.
  - reflexivity.
  - discriminate.
  - reflexivity.
  - apply Forall_map. exact Hall.
  - apply map_ext. intros w. apply rowOf_four; discriminate.
Qed.

(** X11.  Export, then parse: when no cell of the exported wells
    and measurements holds a comma or a line feed, parsing the exported
    [wells.csv] and [water_levels.csv] texts gives back one row per
    record, in order, with the four canonical columns and each cell
    trimmed. *)
Theorem exported_tables_parse_back
    (ws : list DataManager.CanonicalWell) (ms : list DataManager.CanonicalMeasurement) :
  Forall plainWell ws -> Forall plainMeasurement ms ->
  Forall2 (fun w (row : Row) =>
             dom row = {[ "well_id"; "lat"; "long"; "aquifer_id" ]}
             /\ row !! "well_id" = Some (trim (DataManager.well_id w))
             /\ row !! "lat" = Some (trim (DataManager.lat w))
             /\ row !! "long" = Some (trim (DataManager.long w))
             /\ row !! "aquifer_id" = Some (trim (DataManager.aquifer_id w)))
          ws (parseCSV (DataManager.wellsCsv ws))
  /\ Forall2 (fun m (row : Row) =>
                dom row = {[ "well_id"; "date"; "wte"; "aquifer_id" ]}
                /\ row !! "well_id" = Some (trim (DataManager.m_well_id m))
                /\ row !! "date" = Some (trim (DataManager.m_date m))
                /\ row !! "wte" = Some (trim (DataManager.m_wte m))
                /\ row !! "aquifer_id" = Some (trim (DataManager.m_aquifer_id m)))
             ms (parseCSV (DataManager.waterLevelsCsv ms)).
Proof.
  intros Hws Hms. split.
  - rewrite parseCSV_wellsCsv by exact Hws. apply Forall2_map_intro.
    intros w. unfold rowOfCells.
    split; [rewrite !dom_insert_L, dom_empty_L; set_solver|].
    repeat split; repeat (rewrite lookup_insert_ne by discriminate);
      apply lookup_insert_eq.
  - rewrite parseCSV_waterLevelsCsv by exact Hms. apply Forall2_map_intro.
    intros w. unfold rowOfCells.
    split; [rewrite !dom_insert_L, dom_empty_L; set_solver|].
    repeat split; repeat (rewrite lookup_insert_ne by discriminate);
      apply lookup_insert_eq.
Qed.

Lemma exported_wells_plain : Forall plainWell exported_wells.
Proof. repeat constructor. Qed.

Lemma exported_levels_plain : Forall plainMeasurement exported_levels.
Proof. repeat constructor. Qed.

Lemma exported_tables_parse_back_witness :
  Forall2 (fun w (row : Row) =>
             dom row = {[ "well_id"; "lat"; "long"; "aquifer_id" ]}
             /\ row !! "well_id" = Some (trim (DataManager.well_id w))
             /\ row !! "lat" = Some (trim (DataManager.lat w))
             /\ row !! "long" = Some (trim (DataManager.long w))
             /\ row !! "aquifer_id" = Some (trim (DataManager.aquifer_id w)))
          exported_wells (parseCSV (DataManager.wellsCsv exported_wells))
  /\ Forall2 (fun m (row : Row) =>
                dom row = {[ "well_id"; "date"; "wte"; "aquifer_id" ]}
                /\ row !! "well_id" = Some (trim (DataManager.m_well_id m))
                /\ row !! "date" = Some (trim (DataManager.m_date m))
                /\ row !! "wte" = Some (trim (DataManager.m_wte m))
                /\ row !! "aquifer_id" = Some (trim (DataManager.m_aquifer_id m)))
             exported_levels (parseCSV (DataManager.waterLevelsCsv exported_levels)).
Proof.
  apply (exported_tables_parse_back exported_wells exported_levels);
    [exact exported_wells_plain | exact exported_levels_plain].
Defined.

End RoundTripTheorems.

Section LoadBack.
Import DataLoader.

Lemma field_rowOfCells (k1 k2 k3 k4 a b c d k fallback : string) :
  field (rowOfCells k1 k2 k3 k4 a b c d) k fallback
  = match rowOfCells k1 k2 k3 k4 a b c d !! k with
    | Some v => if String.eqb v "" then fallback else v
    | None => fallback
    end.
Proof.
  unfold field. destruct (_ !! k) as [v|]; simpl; [|reflexivity].
  destruct (String.eqb v ""); reflexivity.
Qed.

Lemma parseFloat_zero_rejected :
  PrimFloat.eqb (parseFloat "0") 0 = true /\ parseFloat "0" = 0%float
  /\ isNaN (parseFloat "") = true.
Proof. vm_compute. auto. Qed.

(** X12.  Export, then load: every well [loadWells] reads from an
    exported [wells.csv] comes from an exported record (its trimmed
    identifier, the numbers its latitude and longitude texts parse
    to, its trimmed aquifer reference) and, the export having no such
    columns, has its identifier as name, elevation [0] and no aquifer
    name; and every exported record with a non-blank identifier and
    coordinates that parse to numbers other than zero is loaded. *)
Theorem exported_wells_load_back (ws : list DataManager.CanonicalWell)
    (region : string) :
  Forall plainWell ws ->
  let loaded := loadWells (Some (DataManager.wellsCsv ws)) region in
  (forall well, In well loaded ->
     name well = id well /\ gse well = 0%float /\ aquiferName well = ""
     /\ regionId well = region
     /\ exists w, In w ws
          /\ id well = trim (DataManager.well_id w)
          /\ lat well = parseFloat (trim (DataManager.lat w))
          /\ lng well = parseFloat (trim (DataManager.long w))
          /\ aquiferId well = trim (DataManager.aquifer_id w))
  /\ (forall w, In w ws ->
        trim (DataManager.well_id w) <> "" ->
        isNaN (parseFloat (trim (DataManager.lat w))) = false ->
        isNaN (parseFloat (trim (DataManager.long w))) = false ->
        PrimFloat.eqb (parseFloat (trim (DataManager.lat w))) 0 = false ->
        PrimFloat.eqb (parseFloat (trim (DataManager.long w))) 0 = false ->
        exists well, In well loaded /\ id well = trim (DataManager.well_id w)
                     /\ lat well = parseFloat (trim (DataManager.lat w))
                     /\ lng well = parseFloat (trim (DataManager.long w))).
Proof.
  intros Hws loaded. unfold loaded, loadWells.
  rewrite parseCSV_wellsCsv by exact Hws. clear Hws loaded.
  destruct parseFloat_zero_rejected as (Hz & Hz' & Hnan).
  assert (Hrow : forall w : DataManager.CanonicalWell,
    let row := rowOfCells "well_id" "lat" "long" "aquifer_id"
                 (DataManager.well_id w) (DataManager.lat w)
                 (DataManager.long w) (DataManager.aquifer_id w) in
    field row "well_id" "" = trim (DataManager.well_id w)
    /\ field row "well_name" (trim (DataManager.well_id w)) = trim (DataManager.well_id w)
    /\ field row "lat" "0"
       = (if String.eqb (trim (DataManager.lat w)) "" then "0" else trim (DataManager.lat w))
    /\ field row "long" "0"
       = (if String.eqb (trim (DataManager.long w)) "" then "0" else trim (DataManager.long w))
    /\ field row "gse" "0" = "0"
    /\ field row "aquifer_id" "" = trim (DataManager.aquifer_id w)
    /\ field row "aquifer_name" "" = "").
  { intros w row. unfold row. rewrite !field_rowOfCells. unfold rowOfCells.
    repeat split;
      repeat (rewrite lookup_insert_ne by discriminate);
      rewrite ?lookup_insert_eq, ?lookup_empty; try reflexivity.
    - destruct (String.eqb_spec (trim (DataManager.well_id w)) ""); congruence.
    - destruct (String.eqb_spec (trim (DataManager.aquifer_id w)) ""); congruence. }
  split.
  - intros well Hin. apply in_flat_map in Hin as (row & Hrow_in & Hwell).
    apply in_map_iff in Hrow_in as (w & <- & Hw).
    destruct (Hrow w) as (E1 & E2 & E3 & E4 & E5 & E6 & E7).
    unfold wellOfRow in Hwell. rewrite E1, E2, E3, E4, E5, E6, E7 in Hwell.
    destruct (negb (String.eqb (trim (DataManager.well_id w)) "") && _ && _ && _ && _)
      eqn:G; [|destruct Hwell].
    destruct Hwell as [<-|[]]. simpl.
    apply andb_prop in G as [G Glng]. apply andb_prop in G as [G Glat].
    split; [reflexivity|]. split; [exact Hz'|]. split; [reflexivity|].
    split; [reflexivity|]. exists w. split; [exact Hw|]. split; [reflexivity|].
    split; [|split; [|reflexivity]].
    + destruct (String.eqb (trim (DataManager.lat w)) ""); [|reflexivity].
      rewrite Hz in Glat. discriminate.
    + destruct (String.eqb (trim (DataManager.long w)) ""); [|reflexivity].
      rewrite Hz in Glng. discriminate.
  - intros w Hw Hid Hlat Hlng Hlat0 Hlng0.
    destruct (Hrow w) as (E1 & E2 & E3 & E4 & E5 & E6 & E7).
    assert (Elat : String.eqb (trim (DataManager.lat w)) "" = false).
    { destruct (String.eqb_spec (trim (DataManager.lat w)) "") as [E|]; [|reflexivity].
      rewrite E, Hnan in Hlat. discriminate. }
    assert (Elng : String.eqb (trim (DataManager.long w)) "" = false).
    { destruct (String.eqb_spec (trim (DataManager.long w)) "") as [E|]; [|reflexivity].
      rewrite E, Hnan in Hlng. discriminate. }
    rewrite Elat in E3. rewrite Elng in E4.
    eexists. split.
    + apply in_flat_map. eexists. split; [apply in_map; exact Hw|].
      unfold wellOfRow. rewrite E1, E2, E3, E4, E5, E6, E7.
      rewrite Hlat, Hlng, Hlat0, Hlng0.
      destruct (String.eqb_spec (trim (DataManager.well_id w)) ""); [congruence|].
      left. reflexivity.
    + simpl. auto.
Qed.

Lemma exported_wells_load_back_witness :
  exists well,
    loadWells (Some (DataManager.wellsCsv exported_wells)) "utah" = [well]
    /\ id well = "A" /\ name well = "A" /\ gse well = 0%float /\ aquiferName well = "".
Proof.
  destruct (exported_wells_load_back exported_wells "utah" exported_wells_plain)
    as [Hsound _].
  destruct (loadWells (Some (DataManager.wellsCsv exported_wells)) "utah")
    as [|well [|well' rest]] eqn:E; [vm_compute in E; discriminate | | vm_compute in E; discriminate].
  exists well. split; [reflexivity|].
  destruct (Hsound well (or_introl eq_refl)) as (Hname & Hgse & Haq & _ & w & Hw & Hid & _).
  destruct Hw as [<-|[]].
  assert (Hid' : id well = "A") by (rewrite Hid; reflexivity).
  split; [exact Hid'|]. split; [rewrite Hname; exact Hid'|]. split; assumption.
Defined.


(** X13.  Export, then load: when no cell of the exported
    measurements holds a comma or a line feed, [loadMeasurements] on
    the exported [water_levels.csv] yields, in order, one measurement
    for each record whose trimmed well identifier and date are not
    empty and whose elevation text parses to a number (an empty one
    reads as [0]); the well name is empty, the export having no such
    column. *)
Theorem exported_measurements_load_back (ms : list DataManager.CanonicalMeasurement) :
  Forall plainMeasurement ms ->
  loadMeasurements (Some (DataManager.waterLevelsCsv ms))
  = flat_map (fun m =>
                let wte := parseFloat (if String.eqb (trim (DataManager.m_wte m)) ""
                                       then "0" else trim (DataManager.m_wte m)) in
                if negb (String.eqb (trim (DataManager.m_well_id m)) "")
                   && negb (String.eqb (trim (DataManager.m_date m)) "")
                   && negb (isNaN wte)
                then [ {| wellId := trim (DataManager.m_well_id m);
                          wellName := "";
                          date := trim (DataManager.m_date m);
                          wte := wte;
                          measurementAquiferId := trim (DataManager.m_aquifer_id m) |} ]
                else []) ms.
Proof.
  intros Hms. unfold loadMeasurements.
  rewrite parseCSV_waterLevelsCsv by exact Hms. clear Hms.
  induction ms as [|m ms IH]; [reflexivity|].
  cbn [map flat_map]. rewrite IH. f_equal. unfold measurementOfRow.
  set (row := rowOfCells _ _ _ _ _ _ _ _).
  assert (E1 : field row "well_id" "" = trim (DataManager.m_well_id m)).
  { unfold row. rewrite field_rowOfCells. unfold rowOfCells.
    repeat (rewrite lookup_insert_ne by discriminate). rewrite lookup_insert_eq.
    destruct (String.eqb_spec (trim (DataManager.m_well_id m)) ""); congruence. }
  assert (E2 : field row "well_name" "" = "").
  { unfold row. rewrite field_rowOfCells. unfold rowOfCells.
    repeat (rewrite lookup_insert_ne by discriminate). rewrite lookup_empty. reflexivity. }
  assert (E3 : field row "date" "" = trim (DataManager.m_date m)).
  { unfold row. rewrite field_rowOfCells. unfold rowOfCells.
    repeat (rewrite lookup_insert_ne by discriminate). rewrite lookup_insert_eq.
    destruct (String.eqb_spec (trim (DataManager.m_date m)) ""); congruence. }
  assert (E4 : field row "wte" "0"
               = if String.eqb (trim (DataManager.m_wte m)) "" then "0"
                 else trim (DataManager.m_wte m)).
  { unfold row. rewrite field_rowOfCells. unfold rowOfCells.
    repeat (rewrite lookup_insert_ne by discriminate). rewrite lookup_insert_eq.
    reflexivity. }
  assert (E5 : field row "aquifer_id" "" = trim (DataManager.m_aquifer_id m)).
  { unfold row. rewrite field_rowOfCells. unfold rowOfCells.
    rewrite lookup_insert_eq.
    destruct (String.eqb_spec (trim (DataManager.m_aquifer_id m)) ""); congruence. }
  rewrite E1, E2, E3, E4, E5. reflexivity.
Qed.

Lemma exported_measurements_load_back_witness :
  exists m,
    loadMeasurements (Some (DataManager.waterLevelsCsv exported_levels)) = [m]
    /\ wellId m = "A" /\ date m = "2009-01-05" /\ wellName m = "".
Proof.
  rewrite (exported_measurements_load_back exported_levels exported_levels_plain).
  eexists. split; [vm_compute; reflexivity|]. repeat split.
Defined.

End LoadBack.

Section Aquifers.
Import AquiferLoader.

Lemma mapHas_In {V} (m : list (string * V)) (k : string) :
  mapHas m k = true <-> In k (map fst m).
Proof.
  unfold mapHas. rewrite existsb_exists, in_map_iff. split.
  - intros (e & He & E). apply String.eqb_eq in E. exists e. auto.
  - intros (e & E & He). exists e. split; [exact He | apply String.eqb_eq; exact E].
Qed.

Lemma groupFeature_keys
    (m : list (string * (list AquiferFeature * DataManager.JsValue)))
    (feature : AquiferFeature) :
  map fst (groupFeature m feature)
  = if mapHas m (featureId feature) then map fst m
    else map fst m ++ [featureId feature].
Proof.
  unfold groupFeature. cbv zeta. rewrite map_map.
  assert (E : forall l : list (string * (list AquiferFeature * DataManager.JsValue)),
            map (fun e => fst (let '(k, (features, name)) := e in
                               if String.eqb k (featureId feature)
                               then (k, (features ++ [feature], name))
                               else (k, (features, name)))) l
            = map fst l).
  { intros l. apply map_ext. intros [k [features name]]. simpl.
    destruct (String.eqb k (featureId feature)); reflexivity. }
  rewrite E. destruct (mapHas m (featureId feature)); [reflexivity|].
  rewrite map_app. reflexivity.
Qed.

Lemma groupFeature_entries
    (m : list (string * (list AquiferFeature * DataManager.JsValue)))
    (feature : AquiferFeature) (k : string) (features : list AquiferFeature)
    (name : DataManager.JsValue) :
  In (k, (features, name)) (groupFeature m feature) ->
  (k <> featureId feature /\ In (k, (features, name)) m)
  \/ (k = featureId feature
      /\ ((exists before, features = before ++ [feature] /\ In (k, (before, name)) m)
          \/ (mapHas m k = false /\ features = [feature]
              /\ name = featureName feature))).
Proof.
  unfold groupFeature. cbv zeta. intros Hin.
  apply in_map_iff in Hin as ([k' [features' name']] & E & Hin).
  destruct (String.eqb_spec k' (featureId feature)) as [Heq|Hne].
  - injection E as <- <- <-. right. split; [exact Heq|].
    destruct (mapHas m (featureId feature)) eqn:Hhas.
    + left. exists features'. auto.
    + apply in_app_iff in Hin as [Hin|[Hin|[]]].
      * left. exists features'. auto.
      * injection Hin as <- <- <-. right. split; [exact Hhas|]. split; reflexivity.
  - injection E as <- <- <-. left. split; [exact Hne|].
    destruct (mapHas m (featureId feature)); [exact Hin|].
    apply in_app_iff in Hin as [Hin|[Hin|[]]]; [exact Hin|].
    injection Hin as E1 _ _. congruence.
Qed.

Lemma filter_snoc {A} (p : A -> bool) (l : list A) (a : A) :
  List.filter p (l ++ [a]) = List.filter p l ++ (if p a then [a] else []).
Proof.
  induction l as [|b l IH]; simpl; [destruct (p a); reflexivity|].
  rewrite IH. destruct (p b); reflexivity.
Qed.

Lemma filter_none {A} (p : A -> bool) (l : list A) :
  (forall a, In a l -> p a = false) -> List.filter p l = [].
Proof.
  induction l as [|b l IH]; intros H; simpl; [reflexivity|].
  rewrite (H b (or_introl eq_refl)). apply IH. intros a Ha. apply H. right. exact Ha.
Qed.

Lemma grouped_step (seen : list AquiferFeature)
    (m : list (string * (list AquiferFeature * DataManager.JsValue)))
    (feature : AquiferFeature) :
  grouped seen m -> grouped (seen ++ [feature]) (groupFeature m feature).
Proof.
  intros (Hnodup & Hentries & Hseen). unfold grouped.
  rewrite groupFeature_keys.
  split; [|split].
  - destruct (mapHas m (featureId feature)) eqn:Hhas; [exact Hnodup|].
    apply NoDup_ListNoDup. apply NoDup_ListNoDup in Hnodup.
    apply NoDup_app. split; [exact Hnodup|]. split; [|apply NoDup_singleton].
    intros k Hk Hk'. apply list_elem_of_singleton in Hk'. subst k.
    apply list_elem_of_In, mapHas_In in Hk. congruence.
  - intros k features name Hin. rewrite filter_snoc.
    apply groupFeature_entries in Hin
      as [[Hne Hin]|[-> [(before & -> & Hin)|(Hhas & -> & ->)]]].
    + destruct (Hentries _ _ _ Hin) as [Hnonempty ->].
      split; [exact Hnonempty|].
      destruct (String.eqb_spec (featureId feature) k); [congruence|].
      rewrite app_nil_r. reflexivity.
    + destruct (Hentries _ _ _ Hin) as [(first & rest & Efirst & Ename) Efilter].
      rewrite String.eqb_refl. split.
      * exists first, (rest ++ [feature]). rewrite Efirst. split; [reflexivity | exact Ename].
      * rewrite <- Efilter. reflexivity.
    + rewrite String.eqb_refl. split; [exists feature, []; split; reflexivity|].
      rewrite filter_none; [reflexivity|].
      intros f Hf. destruct (String.eqb_spec (featureId f) (featureId feature)) as [E|];
        [|reflexivity].
      exfalso. apply Hseen in Hf. rewrite E in Hf. apply mapHas_In in Hf. congruence.
  - intros f Hf. apply in_app_iff in Hf as [Hf|[E|[]]].
    + destruct (mapHas m (featureId feature)); [apply Hseen; exact Hf|].
      apply in_app_iff. left. apply Hseen. exact Hf.
    + subst f. destruct (mapHas m (featureId feature)) eqn:Hhas.
      * apply mapHas_In. exact Hhas.
      * apply in_app_iff. right. left. reflexivity.
Qed.

Lemma grouped_after (features seen : list AquiferFeature)
    (m : list (string * (list AquiferFeature * DataManager.JsValue))) :
  grouped seen m -> grouped (seen ++ features) (foldl groupFeature m features).
Proof.
  revert seen m. induction features as [|f features IH]; intros seen m Hm; simpl.
  - rewrite app_nil_r. exact Hm.
  - replace (seen ++ f :: features) with ((seen ++ [f]) ++ features)
      by (rewrite <- app_assoc; reflexivity).
    apply IH. apply grouped_step. exact Hm.
Qed.

Lemma grouped_all (features : list AquiferFeature) :
  grouped features (foldl groupFeature [] features).
Proof.
  apply (grouped_after features [] []). unfold grouped. simpl.
  split; [constructor|]. split; [intros k fs nm []|intros f []].
Qed.

Lemma fromGeometry_ids (regionId : string) (doc : AquiferDocument) :
  map id (fromGeometry regionId doc) = map fst (foldl groupFeature [] (featuresOf doc)).
Proof.
  unfold fromGeometry. rewrite map_map. apply map_ext.
  intros [k [features name]]. reflexivity.
Qed.

(** X23.  When [aquifers.geojson] is fetched and holds at least one
    feature, and its [aquifer_id] values are texts, booleans, null or
    safe integers (the numbers [String] prints digit by digit),
    [loadAquifers] groups its features by identifier (the text of a
    truthy [aquifer_id], the text [unknown] otherwise): there is at
    least one aquifer, the aquifers have pairwise distinct ids, every
    feature's identifier is the id of an aquifer, and each aquifer
    holds exactly the features with its id, in file order, is named
    after the first of them, belongs to the region, and has the
    bounding box of its features; the wells are not consulted. *)
Theorem loadAquifers_groups_features_by_id (doc : AquiferDocument)
    (region : string) (wells : list DataLoader.Well) :
  featuresOf doc <> [] ->
  aquiferIdsPrintedInFull doc = true ->
  let aquifers := loadAquifers (Ok doc) region wells in
  aquifers <> []
  /\ List.NoDup (map id aquifers)
  /\ (forall f, In f (featuresOf doc) -> In (featureId f) (map id aquifers))
  /\ (forall a, In a aquifers ->
        (exists first rest, geojson a = first :: rest /\ name a = featureName first)
        /\ geojson a
           = List.filter (fun f => String.eqb (featureId f) (id a)) (featuresOf doc)
        /\ regionId a = region
        /\ bounds a
           = DataLoader.calculateBounds
               (DataLoader.GeoFeatureCollection (map feature_geometry (geojson a)))).
Proof.
  intros Hfs _ aquifers.
  destruct (grouped_all (featuresOf doc)) as (Hnodup & Hentries & Hseen).
  assert (Hne : fromGeometry region doc <> []).
  { destruct (featuresOf doc) as [|f fs] eqn:E; [congruence|].
    intros Hnil. pose proof (Hseen f (or_introl eq_refl)) as Hin.
    rewrite <- E, <- (fromGeometry_ids region doc), Hnil in Hin. destruct Hin. }
  assert (Ea : aquifers = fromGeometry region doc).
  { unfold aquifers, loadAquifers. cbv zeta.
    destruct (fromGeometry region doc); [congruence | reflexivity]. }
  rewrite Ea. clear Ea aquifers.
  split; [exact Hne|]. rewrite fromGeometry_ids.
  split; [exact Hnodup|]. split; [exact Hseen|].
  intros a Ha. unfold fromGeometry in Ha.
  apply in_map_iff in Ha as ([k [features name]] & <- & Hin). simpl.
  destruct (Hentries _ _ _ Hin) as [Hnonempty Hfilter].
  auto.
Qed.

Lemma loadAquifers_groups_features_by_id_witness :
  loadAquifers (Ok aquifers_document) "utah" [] <> []
  /\ List.NoDup (map id (loadAquifers (Ok aquifers_document) "utah" [])).
Proof.
  destruct (loadAquifers_groups_features_by_id aquifers_document "utah" []
              ltac:(discriminate) eq_refl) as (Hsome & Hdistinct & _).
  split; assumption.
Defined.


Lemma wellAquifers_from (wells : list DataLoader.Well) (m : list (string * string)) :
  let m' := foldl (fun m well =>
                     if negb (String.eqb (DataLoader.aquiferId well) "")
                        && negb (mapHas m (DataLoader.aquiferId well))
                     then m ++ [(DataLoader.aquiferId well, DataLoader.aquiferName well)]
                     else m)
                  m wells in
  (List.NoDup (map fst m) -> List.NoDup (map fst m'))
  /\ (forall s, In s (map fst m')
                <-> In s (map fst m)
                    \/ (s <> "" /\ exists w, In w wells /\ DataLoader.aquiferId w = s)).
Proof.
  revert m. induction wells as [|w wells IH]; intros m; simpl.
  - split; [auto|]. intros s. split; [auto|]. intros [H|(_ & w & [] & _)]. exact H.
  - destruct (negb (String.eqb (DataLoader.aquiferId w) "")
              && negb (mapHas m (DataLoader.aquiferId w))) eqn:G.
    + apply andb_prop in G as [Hne Hhas].
      apply negb_true_iff in Hne, Hhas. apply String.eqb_neq in Hne.
      destruct (IH (m ++ [(DataLoader.aquiferId w, DataLoader.aquiferName w)]))
        as [IHnodup IHin].
      split.
      * intros Hm. apply IHnodup. rewrite map_app.
        apply NoDup_ListNoDup. apply NoDup_ListNoDup in Hm.
        apply NoDup_app. split; [exact Hm|]. split; [|apply NoDup_singleton].
        intros k Hk Hk'. apply list_elem_of_singleton in Hk'. subst k.
        apply list_elem_of_In, mapHas_In in Hk. simpl in Hk. congruence.
      * intros s. rewrite IHin, map_app, in_app_iff. simpl. split.
        -- intros [[H|[H|[]]]|(Hs & w' & Hw' & E')]; [auto | |].
           ++ right. subst s. split; [exact Hne|]. eauto.
           ++ right. split; [exact Hs|]. eauto.
        -- intros [H|(Hs & w' & [<-|Hw'] & E')]; [auto | auto|].
           right. split; [exact Hs|]. eauto.
    + destruct (IH m) as [IHnodup IHin]. split; [exact IHnodup|].
      intros s. rewrite IHin. split.
      * intros [H|(Hs & w' & Hw' & E')]; [auto|]. right. split; [exact Hs|]. eauto.
      * intros [H|(Hs & w' & [<-|Hw'] & E')]; [auto | |].
        -- apply andb_false_iff in G as [G|G]; apply negb_false_iff in G.
           ++ apply String.eqb_eq in G. congruence.
           ++ left. apply mapHas_In. rewrite <- E'. exact G.
        -- right. split; [exact Hs|]. eauto.
Qed.

Lemma fromWells_ids (region : string) (wells : list DataLoader.Well) :
  map id (fromWells region wells) = map fst (wellAquifers wells)
  /\ (forall a, In a (fromWells region wells) -> geojson a = [] /\ regionId a = region).
Proof.
  unfold fromWells.
  destruct (wellAquifers_from wells []) as [_ Hin]. fold (wellAquifers wells) in Hin.
  assert (Hkeys : forall e, In e (wellAquifers wells) ->
            (0 <? length (List.filter (fun w => String.eqb (DataLoader.aquiferId w) (fst e))
                                      wells))%nat = true).
  { intros e He. assert (Hk : In (fst e) (map fst (wellAquifers wells)))
      by (apply in_map; exact He).
    apply Hin in Hk as [[]|(_ & w & Hw & E)].
    assert (Hf : In w (List.filter (fun w => String.eqb (DataLoader.aquiferId w) (fst e))
                                   wells)).
    { apply filter_In. split; [exact Hw | apply String.eqb_eq; exact E]. }
    destruct (List.filter _ wells); [destruct Hf | reflexivity]. }
  revert Hkeys. generalize (wellAquifers wells). intros m Hkeys. split.
  - induction m as [|[k nm] m IH]; [reflexivity|]. simpl.
    rewrite map_app, IH by (intros e He; apply Hkeys; right; exact He).
    pose proof (Hkeys (k, nm) (or_introl eq_refl)) as E. simpl in E. rewrite E. reflexivity.
  - intros a Ha. apply in_flat_map in Ha as ([k nm] & _ & Ha).
    destruct (0 <? _)%nat; [|destruct Ha]. destruct Ha as [<-|[]]. split; reflexivity.
Qed.

(** X24.  Where the aquifers come from when there is no geometry:
    if the fetch throws, [loadAquifers] returns nothing, even when the
    wells name aquifers; a fetched document without features gives
    the same as a response that is not ok, namely one aquifer without
    geometry for each distinct non-empty [aquiferId] among the wells,
    with pairwise distinct ids, in the region. *)
Theorem loadAquifers_falls_back_to_wells (doc : AquiferDocument)
    (region : string) (wells : list DataLoader.Well) :
  loadAquifers FetchThrows region wells = []
  /\ (featuresOf doc = [] ->
      loadAquifers (Ok doc) region wells = loadAquifers NotOk region wells)
  /\ List.NoDup (map id (loadAquifers NotOk region wells))
  /\ (forall s, In s (map id (loadAquifers NotOk region wells))
                <-> s <> "" /\ exists w, In w wells /\ DataLoader.aquiferId w = s)
  /\ (forall a, In a (loadAquifers NotOk region wells) ->
        geojson a = [] /\ regionId a = region).
Proof.
  destruct (fromWells_ids region wells) as [Hids Hshape].
  destruct (wellAquifers_from wells []) as [Hnodup Hin]. fold (wellAquifers wells) in Hnodup, Hin.
  split; [reflexivity|]. split; [|split; [|split]].
  - intros Hnone. unfold loadAquifers, fromGeometry. rewrite Hnone. simpl.
    destruct (wellAquifers wells) as [|e m] eqn:E; [|reflexivity].
    unfold fromWells. rewrite E. reflexivity.
  - simpl. rewrite Hids. apply Hnodup. constructor.
  - intros s. simpl. rewrite Hids, Hin. split; [|auto]. intros [[]|H]. exact H.
  - exact Hshape.
Qed.
End Aquifers.

(* ================================================================= *)
(** * 14. Further properties of the import wizard and the map view *)
(* ================================================================= *)

Section FolderName.
Import DataManager.

Lemma tidy_collapseRuns (b : bool) (s : string) : tidy b (collapseRuns b s) = true.
Proof.
  revert b. induction s as [|c s IH]; intros b; simpl; [reflexivity|].
  destruct (isSlugChar c) eqn:E; simpl.
  - rewrite E. apply IH.
  - destruct b; [apply IH|]. simpl. apply IH.
Qed.

Lemma tidy_weaken (b : bool) (s : string) : tidy b s = true -> tidy false s = true.
Proof.
  destruct s as [|c s]; simpl; [auto|].
  destruct (isSlugChar c); [auto|]. destruct b; simpl; [|auto].
  rewrite andb_false_r. discriminate.
Qed.

Lemma dropLeadingHyphen_other (c : ascii) (s : string) :
  c <> "-"%char -> dropLeadingHyphen (String c s) = String c s.
Proof.
  intros Hne. destruct c as [[] [] [] [] [] [] [] []]; try reflexivity. congruence.
Qed.

Lemma tidy_dropLeadingHyphen (s : string) :
  tidy false s = true -> tidy true (dropLeadingHyphen s) = true.
Proof.
  destruct s as [|c s]; [auto|].
  destruct (Ascii.eqb_spec c "-") as [->|Hne]; intros T.
  - exact T.
  - rewrite (dropLeadingHyphen_other c s Hne). simpl in *.
    destruct (isSlugChar c); [exact T|].
    apply Ascii.eqb_neq in Hne. rewrite Hne in T. discriminate.
Qed.

Lemma tidy_dropTrailingHyphen (b : bool) (s : string) :
  tidy b s = true ->
  tidy b (dropTrailingHyphen s) = true /\ endsWithHyphen (dropTrailingHyphen s) = false.
Proof.
  revert b. induction s as [|c s IH]; intros b T; [split; reflexivity|].
  destruct s as [|d s].
  - simpl. destruct (Ascii.eqb c "-") eqn:E; [split; reflexivity|].
    split; [exact T|]. simpl. exact E.
  - change (dropTrailingHyphen (String c (String d s)))
      with (String c (dropTrailingHyphen (String d s))).
    simpl in T. 
    assert (Hnext : forall b', tidy b' (String d s) = true ->
              tidy b' (dropTrailingHyphen (String d s)) = true
              /\ endsWithHyphen (String c (dropTrailingHyphen (String d s))) = false).
    { intros b' T'. destruct (IH b' T') as [T1 T2]. split; [exact T1|].
      destruct (dropTrailingHyphen (String d s)) as [|e r] eqn:Er; [|exact T2].
      (* the tail was a single hyphen *)
      destruct s as [|d' s]; simpl in Er.
      - destruct (Ascii.eqb d "-") eqn:Ed; [|discriminate].
        apply Ascii.eqb_eq in Ed. subst d.
        simpl in T'. destruct b'; [discriminate|].
        simpl. destruct (Ascii.eqb c "-") eqn:Ec; [|reflexivity].
        apply Ascii.eqb_eq in Ec. subst c.
        simpl in T. destruct b; discriminate.
      - discriminate. }
    clear IH. simpl. destruct (isSlugChar c).
    + destruct (Hnext false T) as [T1 T2]. split; [exact T1 | exact T2].
    + apply andb_prop in T as [T0 T]. rewrite T0.
      destruct (Hnext true T) as [T1 T2]. split; [exact T1 | exact T2].
Qed.

Lemma tidy_getFolderName (name : string) :
  tidy true (getFolderName name) = true /\ endsWithHyphen (getFolderName name) = false.
Proof.
  unfold getFolderName, stripHyphens. apply tidy_dropTrailingHyphen.
  apply tidy_dropLeadingHyphen. apply (tidy_collapseRuns false).
Qed.

Lemma tidy_chars (b : bool) (s : string) (c : ascii) :
  tidy b s = true -> includes c s = true -> isSlugChar c = true \/ c = "-"%char.
Proof.
  revert b. induction s as [|d s IH]; intros b T Hc; simpl in *; [discriminate|].
  apply orb_true_iff in Hc as [Hd|Hs].
  - apply Ascii.eqb_eq in Hd. subst d. destruct (isSlugChar c); [left; reflexivity|].
    apply andb_prop in T as [T _]. apply andb_prop in T as [T _].
    right. apply Ascii.eqb_eq. exact T.
  - destruct (isSlugChar d); [exact (IH _ T Hs)|].
    apply andb_prop in T as [_ T]. exact (IH _ T Hs).
Qed.

Lemma tidy_no_leading_hyphen (s r : string) :
  tidy true s = true -> s <> "-" +:+ r.
Proof. intros T ->. simpl in T. discriminate. Qed.

Lemma tidy_no_double_hyphen (b : bool) (s l r : string) :
  tidy b s = true -> s <> l +:+ "--" +:+ r.
Proof.
  revert b s. induction l as [|c l IH]; intros b s T ->; simpl in T.
  - destruct b; discriminate.
  - destruct (isSlugChar c).
    + exact (IH _ _ T eq_refl).
    + apply andb_prop in T as [_ T]. exact (IH _ _ T eq_refl).
Qed.

Lemma endsWithHyphen_app (l : string) : endsWithHyphen (l +:+ "-") = true.
Proof.
  induction l as [|c l IH]; [reflexivity|].
  simpl. change (String.app l "-") with (l +:+ "-").
  destruct (l +:+ "-") eqn:E; [|exact IH].
  destruct l; discriminate.
Qed.

Lemma toLowerCase_tidy (b : bool) (s : string) : tidy b s = true -> toLowerCase s = s.
Proof.
  revert b. induction s as [|c s IH]; intros b T; simpl in *; [reflexivity|].
  assert (Hc : toLowerChar c = c).
  { destruct (isSlugChar c) eqn:E.
    - unfold toLowerChar. cbv zeta.
      destruct ((65 <=? nat_of_ascii c)%nat && (nat_of_ascii c <=? 90)%nat
                || (192 <=? nat_of_ascii c)%nat && (nat_of_ascii c <=? 222)%nat
                   && negb (nat_of_ascii c =? 215)%nat) eqn:G; [|reflexivity].
      exfalso. unfold isSlugChar in E. cbv zeta in E.
      repeat match goal with
             | H : _ || _ = true |- _ => apply orb_true_iff in H as [H|H]
             | H : _ && _ = true |- _ => apply andb_prop in H as [? H]
             | H : (_ <=? _)%nat = true |- _ => apply Nat.leb_le in H
             end; lia.
    - apply andb_prop in T as [T _]. apply andb_prop in T as [T _].
      apply Ascii.eqb_eq in T. subst c. reflexivity. }
  rewrite Hc. f_equal. destruct (isSlugChar c); [exact (IH _ T)|].
  apply andb_prop in T as [_ T]. exact (IH _ T).
Qed.

Lemma collapseRuns_tidy (b : bool) (s : string) : tidy b s = true -> collapseRuns b s = s.
Proof.
  revert b. induction s as [|c s IH]; intros b T; simpl in *; [reflexivity|].
  destruct (isSlugChar c); [f_equal; exact (IH _ T)|].
  apply andb_prop in T as [T0 T]. apply andb_prop in T0 as [Tc Tb].
  apply Ascii.eqb_eq in Tc. subst c. destruct b; [discriminate|].
  f_equal. exact (IH _ T).
Qed.

Lemma dropTrailingHyphen_fixed (s : string) :
  endsWithHyphen s = false -> dropTrailingHyphen s = s.
Proof.
  induction s as [|c s IH]; [reflexivity|].
  destruct s as [|d s].
  - simpl. intros ->. reflexivity.
  - intros E. change (dropTrailingHyphen (String c (String d s)))
      with (String c (dropTrailingHyphen (String d s))).
    rewrite IH; [reflexivity | exact E].
Qed.

Lemma dropLeadingHyphen_fixed (s : string) :
  tidy true s = true -> dropLeadingHyphen s = s.
Proof.
  destruct s as [|c s]; [reflexivity|]. intros T.
  destruct (Ascii.eqb_spec c "-") as [->|Hne]; [simpl in T; discriminate|].
  apply dropLeadingHyphen_other. exact Hne.
Qed.

(** X14.  The folder name made from any region name holds only the
    characters [a]-[z], [0]-[9] and the hyphen, neither starts nor
    ends with a hyphen, and has no two hyphens in a row. *)
Theorem getFolderName_is_a_slug (name : string) :
  let folder := getFolderName name in
  (forall c, includes c folder = true -> isSlugChar c = true \/ c = "-"%char)
  /\ (forall r, folder <> "-" +:+ r)
  /\ (forall l, folder <> l +:+ "-")
  /\ (forall l r, folder <> l +:+ "--" +:+ r).
Proof.
  intros folder. destruct (tidy_getFolderName name) as [T E]. fold folder in T, E.
  split; [intros c; apply (tidy_chars true); exact T|].
  split; [intros r; apply tidy_no_leading_hyphen; exact T|].
  split; [|intros l r; apply (tidy_no_double_hyphen true); exact T].
  intros l El. rewrite El, endsWithHyphen_app in E. discriminate.
Qed.

(** X15.  A folder name is its own folder name: [getFolderName]
    applied to one of its results returns it unchanged. *)
Theorem getFolderName_idempotent (name : string) :
  getFolderName (getFolderName name) = getFolderName name.
Proof.
  destruct (tidy_getFolderName name) as [T E].
  set (folder := getFolderName name) in *.
  unfold getFolderName at 1, stripHyphens.
  rewrite (toLowerCase_tidy true) by exact T.
  rewrite (collapseRuns_tidy false) by (apply (tidy_weaken true); exact T).
  rewrite dropLeadingHyphen_fixed by exact T.
  apply dropTrailingHyphen_fixed. exact E.
Qed.
End FolderName.

Section AutoMap.
Import DataManager.

Lemma findIndex_Some {A} (p : A -> bool) (l : list A) (i : nat) :
  findIndex p l = Some i -> exists a, l !! i = Some a /\ p a = true.
Proof.
  revert i. induction l as [|a l IH]; intros i; simpl; [discriminate|].
  destruct (p a) eqn:E.
  - intros [= <-]. exists a. auto.
  - destruct (findIndex p l) as [j|]; [|discriminate].
    intros [= <-]. apply IH. reflexivity.
Qed.

Lemma findIndex_found {A} (p : A -> bool) (l : list A) (a : A) :
  In a l -> p a = true -> exists i, findIndex p l = Some i.
Proof.
  induction l as [|b l IH]; simpl; [tauto|].
  intros Hin Ha. destruct (p b) eqn:E; [eauto|].
  destruct Hin as [->|Hin]; [congruence|].
  destruct (IH Hin Ha) as (i & ->). simpl. eauto.
Qed.

Lemma toLowerCase_nonempty (c : string) : toLowerCase c = "" -> c = "".
Proof. destruct c; [reflexivity | discriminate]. Qed.

(** What one assignment [if (idx >= 0) mapping[key] = columns[idx]]
    leaves under a key. *)
Lemma assign_lookup (p : string -> bool) (fieldKey k c : string)
    (columns : list string) (m : gmap string string) :
  p "" = false ->
  assign fieldKey (findIndex p (map toLowerCase columns)) columns m !! k = Some c ->
  (k = fieldKey /\ In c columns /\ c <> "") \/ m !! k = Some c.
Proof.
  intros Hp. unfold assign.
  destruct (findIndex p (map toLowerCase columns)) as [i|] eqn:Ei; [|auto].
  destruct (columns !! i) as [column|] eqn:Ec; [|auto].
  destruct (decide (fieldKey = k)) as [<-|Hne].
  - rewrite lookup_insert_eq. intros [= <-]. left.
    split; [reflexivity|]. split.
    + apply list_elem_of_In. eapply list_elem_of_lookup_2. exact Ec.
    + intros ->. apply findIndex_Some in Ei as (a & Ha & Hpa).
      rewrite list_lookup_fmap, Ec in Ha. simpl in Ha. injection Ha as <-. congruence.
  - rewrite lookup_insert_ne by exact Hne. auto.
Qed.

Lemma assign_other (fieldKey k : string) (idx : option nat)
    (columns : list string) (m : gmap string string) :
  fieldKey <> k -> assign fieldKey idx columns m !! k = m !! k.
Proof.
  intros Hne. unfold assign. destruct idx as [i|]; [|reflexivity].
  destruct (columns !! i); [|reflexivity]. apply lookup_insert_ne. exact Hne.
Qed.

Lemma assign_recognised (p : string -> bool) (fieldKey header : string)
    (columns : list string) (m : gmap string string) :
  p "" = false -> p header = true -> In header (map toLowerCase columns) ->
  truthy (assign fieldKey (findIndex p (map toLowerCase columns)) columns m !! fieldKey)
  = true.
Proof.
  intros Hp Hh Hin. destruct (findIndex_found p _ _ Hin Hh) as (i & Ei).
  unfold assign. rewrite Ei.
  apply findIndex_Some in Ei as (a & Ha & Hpa).
  rewrite list_lookup_fmap in Ha.
  destruct (columns !! i) as [column|]; [|discriminate].
  simpl in Ha. injection Ha as <-.
  rewrite lookup_insert_eq. simpl.
  destruct (String.eqb_spec column "") as [->|]; [|reflexivity]. simpl in Hpa. congruence.
Qed.

Ltac file_type_cases fileType :=
  destruct (String.eqb_spec fileType "region") as [->|?];
  [|destruct (String.eqb_spec fileType "aquifer") as [->|?];
    [|destruct (String.eqb_spec fileType "wells") as [->|?];
      [|destruct (String.eqb_spec fileType "waterLevels") as [->|?]]]].

(** X16.  Whatever [autoMapColumns] maps, it maps a field of the
    schema of the file type to one of the given columns, and never to
    the empty text. *)
Theorem autoMapColumns_maps_fields_to_columns (columns : list string)
    (fileType k c : string) :
  autoMapColumns columns fileType !! k = Some c ->
  In c columns /\ c <> "" /\ In k (map key (getRequiredColumns fileType)).
Proof.
  unfold autoMapColumns, getRequiredColumns.
  file_type_cases fileType; simpl;
    try (rewrite lookup_empty; discriminate);
    intros Hk;
    repeat match type of Hk with
           | assign _ _ _ _ !! _ = Some _ =>
               apply assign_lookup in Hk as [(-> & Hin & Hne)|Hk];
               [tauto | | reflexivity]
           end;
    rewrite lookup_empty in Hk; discriminate.
Qed.

Lemma autoMapColumns_maps_fields_to_columns_witness :
  In "Latitude" wells_headers /\ "Latitude" <> ""
  /\ In "lat" (map key (getRequiredColumns "wells")).
Proof.
  apply (autoMapColumns_maps_fields_to_columns wells_headers "wells" "lat" "Latitude").
  vm_compute. reflexivity.
Defined.


(** X17.  Canonical headers need no manual mapping: when every
    required field of the file type is, up to letter case, one of the
    columns of the upload, the mapping [autoMapColumns] proposes leaves
    [checkMapping] nothing to report. *)
Theorem autoMapColumns_recognises_canonical_headers (file : UploadedFile)
    (fileType : string) :
  mapping file = autoMapColumns (columns file) fileType ->
  (forall col, In col (getRequiredColumns fileType) -> required col = true ->
     In (key col) (map toLowerCase (columns file))) ->
  checkMapping file fileType = [].
Proof.
  intros Hm Hcols. unfold checkMapping. rewrite Hm. clear Hm.
  revert Hcols. unfold autoMapColumns, getRequiredColumns.
  file_type_cases fileType; simpl; try reflexivity; intros Hcols.
  - rewrite assign_other by discriminate.
    rewrite (assign_recognised _ "aquifer_id" "aquifer_id");
      [|reflexivity | reflexivity | first [ exact (Hcols _ (or_introl eq_refl) eq_refl)
              | exact (Hcols _ (or_intror (or_introl eq_refl)) eq_refl)
              | exact (Hcols _ (or_intror (or_intror (or_introl eq_refl))) eq_refl) ]].
    rewrite (assign_recognised _ "aquifer_name" "aquifer_name");
      [|reflexivity | reflexivity | first [ exact (Hcols _ (or_introl eq_refl) eq_refl)
              | exact (Hcols _ (or_intror (or_introl eq_refl)) eq_refl)
              | exact (Hcols _ (or_intror (or_intror (or_introl eq_refl))) eq_refl) ]].
    reflexivity.
  - rewrite !(assign_other "aquifer_id") by discriminate.
    rewrite !(assign_other "long" "lat"), !(assign_other "long" "well_id") by discriminate.
    rewrite !(assign_other "lat" "well_id") by discriminate.
    rewrite (assign_recognised _ "well_id" "well_id");
      [|reflexivity | reflexivity | first [ exact (Hcols _ (or_introl eq_refl) eq_refl)
              | exact (Hcols _ (or_intror (or_introl eq_refl)) eq_refl)
              | exact (Hcols _ (or_intror (or_intror (or_introl eq_refl))) eq_refl) ]].
    rewrite (assign_recognised _ "lat" "lat");
      [|reflexivity | reflexivity | first [ exact (Hcols _ (or_introl eq_refl) eq_refl)
              | exact (Hcols _ (or_intror (or_introl eq_refl)) eq_refl)
              | exact (Hcols _ (or_intror (or_intror (or_introl eq_refl))) eq_refl) ]].
    rewrite (assign_recognised _ "long" "long");
      [|reflexivity | reflexivity | first [ exact (Hcols _ (or_introl eq_refl) eq_refl)
              | exact (Hcols _ (or_intror (or_introl eq_refl)) eq_refl)
              | exact (Hcols _ (or_intror (or_intror (or_introl eq_refl))) eq_refl) ]].
    reflexivity.
  - rewrite !(assign_other "aquifer_id") by discriminate.
    rewrite !(assign_other "wte" "date"), !(assign_other "wte" "well_id") by discriminate.
    rewrite !(assign_other "date" "well_id") by discriminate.
    rewrite (assign_recognised _ "well_id" "well_id");
      [|reflexivity | reflexivity | first [ exact (Hcols _ (or_introl eq_refl) eq_refl)
              | exact (Hcols _ (or_intror (or_introl eq_refl)) eq_refl)
              | exact (Hcols _ (or_intror (or_intror (or_introl eq_refl))) eq_refl) ]].
    rewrite (assign_recognised _ "date" "date");
      [|reflexivity | reflexivity | first [ exact (Hcols _ (or_introl eq_refl) eq_refl)
              | exact (Hcols _ (or_intror (or_introl eq_refl)) eq_refl)
              | exact (Hcols _ (or_intror (or_intror (or_introl eq_refl))) eq_refl) ]].
    rewrite (assign_recognised _ "wte" "wte");
      [|reflexivity | reflexivity | first [ exact (Hcols _ (or_introl eq_refl) eq_refl)
              | exact (Hcols _ (or_intror (or_introl eq_refl)) eq_refl)
              | exact (Hcols _ (or_intror (or_intror (or_introl eq_refl))) eq_refl) ]].
    reflexivity.
Qed.

Lemma autoMapColumns_recognises_canonical_headers_witness :
  checkMapping canonical_wells_file "wells" = [].
Proof.
  apply (autoMapColumns_recognises_canonical_headers canonical_wells_file "wells");
    [reflexivity|].
  intros col [<-|[<-|[<-|[<-|[]]]]] Hreq; simpl; auto. discriminate.
Defined.

(** An assignment of [autoMapColumns] never picks a column named
    [__proto__]: no rule recognises that name. *)
Lemma assign_lookup_own (p : string -> bool) (fieldKey k c : string)
    (columns : list string) (m : gmap string string) :
  p "__proto__" = false ->
  (forall k c, m !! k = Some c -> c <> "__proto__") ->
  assign fieldKey (findIndex p (map toLowerCase columns)) columns m !! k = Some c ->
  c <> "__proto__".
Proof.
  intros Hp Hm. unfold assign.
  destruct (findIndex p (map toLowerCase columns)) as [i|] eqn:Ei; [|apply Hm].
  destruct (columns !! i) as [column|] eqn:Ec; [|apply Hm].
  destruct (decide (fieldKey = k)) as [<-|Hne].
  - rewrite lookup_insert_eq. intros [= <-] ->.
    apply findIndex_Some in Ei as (a & Ha & Hpa).
    rewrite list_lookup_fmap, Ec in Ha.
    change (Some "__proto__" = Some a) in Ha. injection Ha as <-. congruence.
  - rewrite lookup_insert_ne by exact Hne. apply Hm.
Qed.

Ltac never_proto :=
  let H := fresh "Hk" in
  intros ? ? H;
  lazymatch type of H with
  | assign _ _ _ _ !! _ = Some _ =>
      apply assign_lookup_own in H; [exact H | reflexivity | never_proto]
  | _ => rewrite lookup_empty in H; discriminate
  end.

Lemma autoMapColumns_own (columns : list string) (fileType k c : string) :
  autoMapColumns columns fileType !! k = Some c -> c <> "__proto__".
Proof.
  revert k c. unfold autoMapColumns.
  file_type_cases fileType; simpl; never_proto.
Qed.

Lemma wizard_rows_have_the_headers (text : string) (headers : list string)
    (rows : list Row) (row : Row) (c : string) :
  parseCSV text = (headers, rows) -> In row rows -> In c headers ->
  c <> "__proto__" -> exists v, row !! c = Some v.
Proof.
  unfold parseCSV.
  destruct (filter _ (split "010" text)) as [|l0 ls]; simpl.
  - intros [= <- <-] [].
  - intros [= <- <-] Hrow Hc Hown.
    apply in_map_iff in Hrow as (line & <- & _).
    destruct (DataLoader.rowOf _ (split _ line) !! c) as [v|] eqn:E; [eauto|].
    exfalso. apply not_elem_of_dom in E.
    rewrite (proj1 (rowOf_shape _ _)) in E. apply E.
    apply elem_of_list_to_set, list_elem_of_filter.
    split; [exact Hown | apply list_elem_of_In; exact Hc].
Qed.

(** X25.  When [handleFileUpload] stores a table, the file name ends
    in [.csv] or [.txt], and every column that the automatic mapping
    has chosen is a field of the schema of the file type, a header of
    the table other than the empty text, and a key of every parsed
    row. *)
Theorem handleFileUpload_maps_existing_columns
    (fileName text fileType : string) (file : UploadedFile) :
  handleFileUpload fileName text fileType = Table file ->
  (endsWith ".csv" fileName || endsWith ".txt" fileName) = true
  /\ exists rows,
       data file = CsvRows rows
       /\ forall k c, mapping file !! k = Some c ->
            In k (map key (getRequiredColumns fileType))
            /\ In c (columns file) /\ c <> ""
            /\ forall row, In row rows -> exists v, row !! c = Some v.
Proof.
  unfold handleFileUpload. cbv zeta.
  destruct (endsWith ".zip" fileName); [discriminate|].
  destruct (endsWith ".geojson" fileName || endsWith ".json" fileName); [discriminate|].
  destruct (endsWith ".csv" fileName || endsWith ".txt" fileName); [|discriminate].
  destruct (parseCSV text) as [headers rows] eqn:Eparse.
  intros [= <-]. split; [reflexivity|]. exists rows. split; [reflexivity|]. simpl.
  intros k c Hk.
  assert (Hc : In k (map key (getRequiredColumns fileType)) /\ In c headers /\ c <> "").
  { revert Hk. unfold autoMapColumns, getRequiredColumns.
    file_type_cases fileType; simpl;
      try (rewrite lookup_empty; discriminate);
      intros Hk;
      repeat match type of Hk with
             | assign _ _ _ _ !! _ = Some _ =>
                 apply assign_lookup in Hk as [(-> & Hin & Hne)|Hk];
                 [tauto | | reflexivity]
             end;
      rewrite lookup_empty in Hk; discriminate. }
  destruct Hc as (Hkey & Hin & Hne). repeat split; try assumption.
  intros row Hrow.
  exact (wizard_rows_have_the_headers text headers rows row c Eparse Hrow Hin
           (autoMapColumns_own headers fileType k c Hk)).
Qed.

Lemma handleFileUpload_maps_existing_columns_witness :
  exists file,
    handleFileUpload "wells.csv" uploaded_wells_text "wells" = Table file
    /\ mapping file !! "lat" = Some "Latitude"
    /\ exists rows,
         data file = CsvRows rows
         /\ forall row, In row rows -> exists v, row !! "Latitude" = Some v.
Proof.
  destruct (handleFileUpload "wells.csv" uploaded_wells_text "wells") as [|file|] eqn:E;
    [vm_compute in E; discriminate | | vm_compute in E; discriminate].
  exists file.
  assert (Hlat : mapping file !! "lat" = Some "Latitude").
  { clear -E. vm_compute in E. injection E as <-. vm_compute. reflexivity. }
  destruct (handleFileUpload_maps_existing_columns "wells.csv" uploaded_wells_text "wells" file E)
    as (_ & rows & Hrows & Hmapped).
  split; [reflexivity|]. split; [exact Hlat|].
  exists rows. split; [exact Hrows|].
  exact (proj2 (proj2 (proj2 (Hmapped "lat" "Latitude" Hlat)))).
Defined.

End AutoMap.

Section Referential.
Import DataManager.









End Referential.

Section Consistency.
Import DataManager.

Lemma filter_split_length {A} (p : A -> bool) (l : list A) :
  length (List.filter p l) + length (List.filter (fun a => negb (p a)) l) = length l.
Proof. induction l as [|a l IH]; simpl; [reflexivity|]. destruct (p a); simpl; lia. Qed.

Lemma filter_length_le {A} (p q : A -> bool) (l : list A) :
  (forall a, In a l -> p a = true -> q a = true) ->
  length (List.filter p l) <= length (List.filter q l).
Proof.
  induction l as [|a l IH]; simpl; intros H; [lia|].
  assert (IH' := IH (fun b Hb => H b (or_intror Hb))).
  destruct (p a) eqn:E.
  - rewrite (H a (or_introl eq_refl) E). simpl. lia.
  - destruct (q a); simpl; lia.
Qed.

(** The identifiers of the exported wells are among those the
    validator collected, and are all of them when no identified well
    lacks a coordinate. *)
Lemma processWells_ids (wells : list Row) (c1 c2 c3 c4 : option string) (id : string) :
  In id (map well_id (processWells wells c1 c2 c3 c4))
  <-> id <> ""
      /\ exists w, In w wells /\ prop w c1 = Some id
                   /\ truthy (prop w c2) = true /\ truthy (prop w c3) = true.
Proof.
  unfold processWells. rewrite in_map_iff. split.
  - intros (cw & <- & Hin). apply filter_In in Hin as [Hin Hkeep].
    apply in_map_iff in Hin as (w & <- & Hw). simpl in *.
    apply andb_prop in Hkeep as [Hkeep H3]. apply andb_prop in Hkeep as [H1 H2].
    assert (Hor : forall v, negb (String.eqb (orEmpty v) "") = true ->
                            truthy v = true /\ v = Some (orEmpty v)).
    { intros v. unfold orEmpty. destruct (truthy v) eqn:T; [|discriminate].
      intros _. split; [reflexivity|]. destruct v; [reflexivity | discriminate]. }
    destruct (Hor _ H1) as [T1 E1]. destruct (Hor _ H2) as [T2 _].
    destruct (Hor _ H3) as [T3 _].
    split.
    + intros E. rewrite E in H1. discriminate.
    + exists w. auto.
  - intros (Hne & w & Hw & Hp & T2 & T3).
    eexists. split; [|apply filter_In; split; [apply in_map; exact Hw|]]; simpl.
    + apply orEmpty_truthy; assumption.
    + rewrite (orEmpty_truthy _ id Hp Hne).
      assert (Hor : forall v, truthy v = true -> negb (String.eqb (orEmpty v) "") = true).
      { intros v T. unfold orEmpty. rewrite T. destruct v; [exact T | discriminate]. }
      rewrite (Hor _ T2), (Hor _ T3).
      destruct (String.eqb_spec id ""); [congruence | reflexivity].
Qed.

(** X19.  The export never keeps more measurements than validation
    announced: whenever [processData] produces the tables, the kept
    measurements and the [droppedMeasurements] count of [validateData]
    together do not exceed the uploaded rows, and they account for
    all of them when every well row with an identifier also has a
    latitude and a longitude. *)
Theorem processData_drops_no_fewer_than_announced
    (rf af wf mf : UploadedFile) (dateFormat : string)
    (wells rows : list Row) (result : ValidationResult)
    (ws : list CanonicalWell) (ms : list CanonicalMeasurement) :
  data wf = CsvRows wells -> data mf = CsvRows rows ->
  validateData (Some rf) (Some af) (Some wf) (Some mf) = Returns result ->
  processData (Some rf) (Some af) (Some wf) (Some mf) dateFormat
  = Returns (Some (ws, ms)) ->
  length ms + droppedMeasurements result <= length rows
  /\ ((forall w, In w wells ->
         truthy (prop w (mapping wf !! "well_id")) = true ->
         truthy (prop w (mapping wf !! "lat")) = true
         /\ truthy (prop w (mapping wf !! "long")) = true) ->
      length ms + droppedMeasurements result = length rows).
Proof.
  intros Hwells Hrows Hval Hproc.
  unfold processData in Hproc. rewrite Hval in Hproc.
  destruct (isValid result) eqn:Hvalid; simpl in Hproc; [|discriminate].
  rewrite Hwells, Hrows in Hproc. injection Hproc as <- <-.
  revert Hval. unfold validateData. simpl.
  destruct (0 <? length _)%nat.
  { intros Hval. inversion Hval as [Hres]. subst. discriminate. }
  rewrite Hwells, Hrows. simpl.
  destruct (checkWells wells (mapping wf !! "well_id") (mapping wf !! "aquifer_id")
              (collectAquiferIds (featuresOf (data af)) (mapping af !! "aquifer_id")))
    as [wellIds errs] eqn:Ewells.
  assert (Hids : forall id, id ∈ wellIds
            <-> id <> "" /\ exists w, In w wells
                                      /\ prop w (mapping wf !! "well_id") = Some id).
  { intros id.
    rewrite <- (checkWells_ids wells (mapping wf !! "well_id")
                  (mapping wf !! "aquifer_id")
                  (collectAquiferIds (featuresOf (data af)) (mapping af !! "aquifer_id"))).
    rewrite Ewells. reflexivity. }
  pose proof (checkMeasurements_count rows (mapping mf !! "well_id") wellIds) as Hcount.
  destruct (checkMeasurements rows (mapping mf !! "well_id") wellIds)
    as [valid dropped] eqn:Emeas.
  simpl in Hcount. intros Hval. inversion Hval as [Hres]. subst. simpl. clear Hval.
  unfold processWaterLevels. rewrite length_map.
  set (kept := fun m : Row => has wellIds (prop m (mapping mf !! "well_id"))).
  rewrite <- (filter_split_length kept rows).
  split.
  - apply Nat.add_le_mono_r. apply filter_length_le. intros m _.
    unfold kept, has. destruct (prop m (mapping mf !! "well_id")) as [id|]; [|auto].
    rewrite !bool_decide_eq_true. intros Hin.
    apply elem_of_list_to_set, list_elem_of_In, processWells_ids in Hin.
    apply Hids. destruct Hin as (Hne & w & Hw & Hp & _). eauto.
  - intros Hcomplete. f_equal. f_equal. apply filter_ext. intros m.
    unfold kept, has. destruct (prop m (mapping mf !! "well_id")) as [id|]; [|auto].
    apply bool_decide_ext.
    rewrite elem_of_list_to_set, list_elem_of_In, processWells_ids, Hids.
    split.
    + intros (Hne & w & Hw & Hp & _). eauto.
    + intros (Hne & w & Hw & Hp). split; [exact Hne|]. exists w.
      destruct (Hcomplete w Hw) as [T2 T3].
      * rewrite Hp. simpl. destruct (String.eqb_spec id ""); [congruence | reflexivity].
      * auto.
Qed.

Lemma processData_drops_no_fewer_than_announced_witness :
  exists result ws ms,
    validateData (Some region_file) (Some aquifer_file)
                 (Some wells_file) (Some levels_file) = Returns result
    /\ processData (Some region_file) (Some aquifer_file)
                   (Some wells_file) (Some levels_file) "us-short"
       = Returns (Some (ws, ms))
    /\ length ms + droppedMeasurements result <= length levels_rows.
Proof.
  destruct (validateData (Some region_file) (Some aquifer_file)
                         (Some wells_file) (Some levels_file))
    as [result|e] eqn:E; [|vm_compute in E; discriminate].
  destruct (processData (Some region_file) (Some aquifer_file)
                        (Some wells_file) (Some levels_file) "us-short")
    as [[[ws ms]|]|e] eqn:P;
    [|vm_compute in P; discriminate | vm_compute in P; discriminate].
  exists result, ws, ms. split; [reflexivity|]. split; [reflexivity|].
  apply (processData_drops_no_fewer_than_announced
           region_file aquifer_file wells_file levels_file "us-short"
           wells_rows levels_rows result ws ms eq_refl eq_refl E P).
Defined.

End Consistency.

Section Manifest.
Import DataManager.

Lemma existsb_entry_id (l : list ManifestEntry) (folderName : string) :
  existsb (fun r => String.eqb (entry_id r) folderName) l = true
  <-> In folderName (map entry_id l).
Proof.
  rewrite existsb_exists, in_map_iff. split.
  - intros (r & Hin & E). apply String.eqb_eq in E. exists r. auto.
  - intros (r & E & Hin). exists r. split; [exact Hin | apply String.eqb_eq; exact E].
Qed.

(** X20.  The manifest written by an export: the fetched entries are
    kept, in order, as a prefix; the folder of the export is listed;
    an entry with that id is either one that was there already (the
    new region name is then not written) or the single new entry, with
    path [/data/<folder>] and the given name; distinct ids stay
    distinct; and exporting the same folder again changes nothing. *)
Theorem mergeManifest_adds_once (fetched : option (list ManifestEntry))
    (folderName regionName : string) :
  let before := default [] fetched in
  let after := mergeManifest fetched folderName regionName in
  (exists added, after = before ++ added)
  /\ In folderName (map entry_id after)
  /\ (forall e, In e after -> entry_id e = folderName ->
        In e before
        \/ (~ In folderName (map entry_id before)
            /\ e = {| entry_id := folderName; entry_path := "/data/" +:+ folderName;
                      entry_name := regionName |}))
  /\ (List.NoDup (map entry_id before) -> List.NoDup (map entry_id after))
  /\ (forall otherName, mergeManifest (Some after) folderName otherName = after).
Proof.
  intros before after. unfold after, mergeManifest. fold before.
  destruct (existsb _ before) eqn:E.
  - apply existsb_entry_id in E.
    split; [exists []; rewrite app_nil_r; reflexivity|].
    split; [exact E|]. split; [intros e He _; left; exact He|].
    split; [auto|].
    intros otherName. simpl.
    apply existsb_entry_id in E. rewrite E. reflexivity.
  - assert (Hno : ~ In folderName (map entry_id before)).
    { intros Hin. apply existsb_entry_id in Hin. congruence. }
    split; [eexists; reflexivity|].
    split; [rewrite map_app, in_app_iff; right; left; reflexivity|].
    split.
    { intros e He Hid. apply in_app_iff in He. destruct He as [He|[<-|[]]].
      - left. exact He.
      - right. split; [exact Hno | reflexivity]. }
    split.
    { intros Hnd. rewrite map_app. simpl.
      apply NoDup_ListNoDup. apply NoDup_ListNoDup in Hnd.
      apply NoDup_app. split; [exact Hnd|]. split.
      - intros i Hi Hi'. apply list_elem_of_singleton in Hi'. subst i.
        apply Hno. apply list_elem_of_In. exact Hi.
      - apply NoDup_singleton. }
    intros otherName. simpl.
    rewrite existsb_app. simpl. rewrite String.eqb_refl, orb_true_r. reflexivity.
Qed.
End Manifest.

Section Counts.
Import DataLoader MapView.

Lemma wellMeasurementCounts_from (ms : list Measurement) (counts : gmap string nat) (w : string) :
  default 0 (foldl (fun (counts : gmap string nat) m =>
                      <[wellId m := default 0 (counts !! wellId m) + 1]> counts)
                   counts ms !! w)
  = default 0 (counts !! w)
    + length (List.filter (fun m => String.eqb (wellId m) w) ms).
Proof.
  revert counts. induction ms as [|m ms IH]; intros counts; simpl; [lia|].
  rewrite IH. destruct (String.eqb_spec (wellId m) w) as [->|Hne]; simpl.
  - rewrite lookup_insert_eq. simpl. lia.
  - rewrite lookup_insert_ne by exact Hne. lia.
Qed.

(** X21.  The map view counts, for each well, the measurements that
    carry its identifier; a well has enough data, and is drawn as
    such, exactly when it has two of them or more; and a well without
    an entry in the map has no measurement. *)
Theorem wellMeasurementCounts_counts (ms : list Measurement) (w : string) :
  measurementCount (wellMeasurementCounts ms) w
  = length (List.filter (fun m => String.eqb (wellId m) w) ms)
  /\ (hasEnoughData (wellMeasurementCounts ms) w = true
      <-> 2 <= length (List.filter (fun m => String.eqb (wellId m) w) ms))
  /\ (wellMeasurementCounts ms !! w = None
      <-> Forall (fun m => wellId m <> w) ms).
Proof.
  assert (Hc : measurementCount (wellMeasurementCounts ms) w
               = length (List.filter (fun m => String.eqb (wellId m) w) ms)).
  { unfold measurementCount, wellMeasurementCounts.
    rewrite wellMeasurementCounts_from, lookup_empty. reflexivity. }
  split; [exact Hc|]. split.
  - unfold hasEnoughData. rewrite Hc. apply Nat.leb_le.
  - clear Hc. unfold wellMeasurementCounts.
    assert (Hgen : forall counts : gmap string nat,
      foldl (fun (counts : gmap string nat) m =>
               <[wellId m := default 0 (counts !! wellId m) + 1]> counts) counts ms !! w = None
      <-> counts !! w = None /\ Forall (fun m => wellId m <> w) ms).
    { induction ms as [|m ms IH]; intros counts; simpl.
      - split; [intros E; split; [exact E | constructor] | intros [E _]; exact E].
      - rewrite IH, Forall_cons. destruct (decide (wellId m = w)) as [->|Hne].
        + rewrite lookup_insert_eq. split; [intros [E _]; discriminate | intros (_ & Hne & _); congruence].
        + rewrite lookup_insert_ne by exact Hne. tauto. }
    rewrite Hgen, lookup_empty. tauto.
Qed.
End Counts.
